(** * gsap: a schema-aligned JSON parser, embedded in Rocq

    A shallow embedding of the Go package [sap] (candidate extraction,
    forgiving JSON repair, schema-directed coercion and the orchestrator
    that ties them together), followed by the properties established
    about it.

    Conventions.
    - A Go [string] is a [string] (a sequence of bytes); [[]rune(s)] is its
      UTF-8 decoding, written out below.
    - A Go [int] is a [Z] kept in the signed 64-bit range by [wrap].
    - A [float64] is the kernel's binary64 [float].
    - [*Score] is threaded explicitly through the coercer, together with the
      seed from which the runtime draws the order of a [range] over a map. *)

From Stdlib Require Import ZArith Lia Ascii String List Bool Permutation.
From Stdlib Require Import Floats.
From Stdlib Require DecimalString.
From stdpp Require Import base option list gmap strings.

Set Warnings "-register-all".

Local Open Scope string_scope.
Local Open Scope list_scope.
Local Open Scope Z_scope.

(** ** Machine integers *)

Module GoInt.

Definition wrap (bits : Z) (z : Z) : Z :=
  (z + 2 ^ (bits - 1)) mod 2 ^ bits - 2 ^ (bits - 1).

Definition uwrap (bits : Z) (z : Z) : Z := z mod 2 ^ bits.

Definition MaxInt64 : Z := 2 ^ 63 - 1.
Definition MinInt64 : Z := - 2 ^ 63.

(** [a + b] on Go's [int] (64 bits wide). *)
Definition add (a b : Z) : Z := wrap 64 (a + b).

Definition in_range (z : Z) : Prop := MinInt64 <= z <= MaxInt64.

End GoInt.

(** ** Bytes, runes and UTF-8 *)

(** A rune is a Unicode code point (Go's [int32]). *)
Definition rune := Z.

Definition byte_of (c : ascii) : Z := Z.of_N (N_of_ascii c).
Definition ascii_of_byte (b : Z) : ascii := ascii_of_N (Z.to_N b).

(** The bytes of a string, and back. *)
Definition bytes (s : string) : list Z := map byte_of (list_ascii_of_string s).
Definition of_bytes (p : list Z) : string :=
  string_of_list_ascii (map ascii_of_byte p).

(** [len(s)] *)
Definition len (s : string) : Z := Z.of_nat (String.length s).

Module utf8.

Definition RuneError : rune := 0xFFFD.
Definition RuneSelf : Z := 0x80.
Definition MaxRune : rune := 0x10FFFF.

(** [utf8.DecodeRune]: the first rune of [p] and its width in bytes; an
    invalid or short sequence decodes to [(RuneError, 1)]. *)
Definition DecodeRune (p : list Z) : rune * nat :=
  match p with
  | [] => (RuneError, 0%nat)
  | p0 :: _ =>
    if p0 <? RuneSelf then (p0, 1%nat)
    else if (p0 <? 0xC2) || (0xF4 <? p0) then (RuneError, 1%nat)
    else
      let sz := if p0 <? 0xE0 then 2%nat else if p0 <? 0xF0 then 3%nat else 4%nat in
      let lo := if p0 =? 0xE0 then 0xA0 else if p0 =? 0xF0 then 0x90 else 0x80 in
      let hi := if p0 =? 0xED then 0x9F else if p0 =? 0xF4 then 0x8F else 0xBF in
      if (length p <? sz)%nat then (RuneError, 1%nat)
      else
        let b1 := nth 1 p 0 in
        if (b1 <? lo) || (hi <? b1) then (RuneError, 1%nat)
        else if (sz <=? 2)%nat then
          (Z.lor (Z.shiftl (Z.land p0 0x1F) 6) (Z.land b1 0x3F), 2%nat)
        else
          let b2 := nth 2 p 0 in
          if (b2 <? 0x80) || (0xBF <? b2) then (RuneError, 1%nat)
          else if (sz <=? 3)%nat then
            (Z.lor (Z.lor (Z.shiftl (Z.land p0 0x0F) 12)
                          (Z.shiftl (Z.land b1 0x3F) 6)) (Z.land b2 0x3F), 3%nat)
          else
            let b3 := nth 3 p 0 in
            if (b3 <? 0x80) || (0xBF <? b3) then (RuneError, 1%nat)
            else
              (Z.lor (Z.lor (Z.lor (Z.shiftl (Z.land p0 0x07) 18)
                                   (Z.shiftl (Z.land b1 0x3F) 12))
                            (Z.shiftl (Z.land b2 0x3F) 6)) (Z.land b3 0x3F), 4%nat)
  end.

(** [utf8.RuneStart] *)
Definition RuneStart (b : Z) : bool := negb (Z.land b 0xC0 =? 0x80).

(** The backwards scan of [utf8.DecodeLastRune] for the start of the last
    sequence: [for start--; start >= lim; start-- { if RuneStart ... break }]. *)
Fixpoint scan_back (fuel : nat) (p : list Z) (start lim : Z) : Z :=
  match fuel with
  | O => start
  | S fuel' =>
    if start <? lim then start
    else if RuneStart (nth (Z.to_nat start) p 0) then start
    else scan_back fuel' p (start - 1) lim
  end.

(** [utf8.DecodeLastRune] *)
Definition DecodeLastRune (p : list Z) : rune * nat :=
  let end_ := Z.of_nat (length p) in
  if end_ =? 0 then (RuneError, 0%nat)
  else
    let start := end_ - 1 in
    let r := nth (Z.to_nat start) p 0 in
    if r <? RuneSelf then (r, 1%nat)
    else
      let lim := Z.max 0 (end_ - 4) in
      let start := scan_back 4 p (start - 1) lim in
      let start := if start <? 0 then 0 else start in
      let '(r, size) := DecodeRune (drop (Z.to_nat start) p) in
      if negb (start + Z.of_nat size =? end_) then (RuneError, 1%nat)
      else (r, size).

(** [utf8.AppendRune]: the UTF-8 encoding of a rune; runes out of range and
    surrogate halves are written as [RuneError]. *)
Definition EncodeRune (r : rune) : list Z :=
  let enc3 (r : Z) :=
    [Z.lor 0xE0 (Z.shiftr r 12);
     Z.lor 0x80 (Z.land (Z.shiftr r 6) 0x3F);
     Z.lor 0x80 (Z.land r 0x3F)] in
  if (0 <=? r) && (r <=? 0x7F) then [r]
  else if (0 <=? r) && (r <=? 0x7FF) then
    [Z.lor 0xC0 (Z.shiftr r 6); Z.lor 0x80 (Z.land r 0x3F)]
  else if (r <? 0) || (MaxRune <? r) || ((0xD800 <=? r) && (r <=? 0xDFFF)) then
    enc3 RuneError
  else if r <=? 0xFFFF then enc3 r
  else
    [Z.lor 0xF0 (Z.shiftr r 18);
     Z.lor 0x80 (Z.land (Z.shiftr r 12) 0x3F);
     Z.lor 0x80 (Z.land (Z.shiftr r 6) 0x3F);
     Z.lor 0x80 (Z.land r 0x3F)].

(** The runes of a byte sequence, one [DecodeRune] after the other (what
    [[]rune(s)] and [for _, ch := range s] visit). Every step consumes at
    least one byte, so [length p] steps are enough. *)
Fixpoint decode (fuel : nat) (p : list Z) : list rune :=
  match fuel with
  | O => []
  | S fuel' =>
    match p with
    | [] => []
    | _ => let '(r, size) := DecodeRune p in r :: decode fuel' (drop size p)
    end
  end.

Definition encode (rs : list rune) : list Z := flat_map EncodeRune rs.

End utf8.

(** [[]rune(s)] *)
Definition runes (s : string) : list rune :=
  utf8.decode (length (bytes s)) (bytes s).

(** [string(rs)] for [rs []rune] *)
Definition string_of_runes (rs : list rune) : string :=
  of_bytes (utf8.encode rs).

(** [unicode.IsSpace]: the Latin-1 cases and the [White_Space] table. *)
Definition unicode_IsSpace (r : rune) : bool :=
  if (0 <=? r) && (r <=? 0xFF) then
    (r =? 9) || (r =? 10) || (r =? 11) || (r =? 12) || (r =? 13) || (r =? 32)
    || (r =? 0x85) || (r =? 0xA0)
  else
    (r =? 0x1680) || ((0x2000 <=? r) && (r <=? 0x200A)) || (r =? 0x2028)
    || (r =? 0x2029) || (r =? 0x202F) || (r =? 0x205F) || (r =? 0x3000).

(** ** Package strings *)

Module strings.

(** The [asciiSpace] table of package strings. *)
Definition asciiSpace (c : Z) : bool :=
  (c =? 9) || (c =? 10) || (c =? 11) || (c =? 12) || (c =? 13) || (c =? 32).

Fixpoint has_prefix (pre p : list Z) : bool :=
  match pre, p with
  | [], _ => true
  | a :: pre', b :: p' => (a =? b) && has_prefix pre' p'
  | _ :: _, [] => false
  end.

(** [strings.Index] on bytes, counting from offset [i]. *)
Fixpoint index_from (p sub : list Z) (i : Z) : Z :=
  if has_prefix sub p then i
  else match p with
       | [] => -1
       | _ :: p' => index_from p' sub (i + 1)
       end.

Definition Index (s substr : string) : Z := index_from (bytes s) (bytes substr) 0.

Definition HasPrefix (s pre : string) : bool := has_prefix (bytes pre) (bytes s).

Definition HasSuffix (s suf : string) : bool :=
  has_prefix (rev (bytes suf)) (rev (bytes s)).

(** [strings.Contains(s, c)] for a one-byte [c]. *)
Definition ContainsByte (s : string) (c : Z) : bool :=
  existsb (Z.eqb c) (bytes s).

(** [strings.ReplaceAll(s, c, "")] for a one-byte [c]. *)
Definition RemoveByte (s : string) (c : Z) : string :=
  of_bytes (filter (fun b => b ≠ c) (bytes s)).

(** [strings.Split(s, c)] for a one-byte separator [c]: the pieces of [p]
    between the occurrences of [c] ([acc] is the piece being read). *)
Fixpoint split_bytes (c : Z) (acc p : list Z) : list (list Z) :=
  match p with
  | [] => [acc]
  | b :: p' => if b =? c then acc :: split_bytes c [] p'
               else split_bytes c (acc ++ [b]) p'
  end.

Definition SplitByte (s : string) (c : Z) : list string :=
  map of_bytes (split_bytes c [] (bytes s)).

(** [strings.TrimLeftFunc] *)
Fixpoint trimLeftFunc (fuel : nat) (f : rune -> bool) (p : list Z) : list Z :=
  match fuel with
  | O => p
  | S fuel' =>
    match p with
    | [] => []
    | _ => let '(r, wid) := utf8.DecodeRune p in
           if f r then trimLeftFunc fuel' f (drop wid p) else p
    end
  end.

Definition TrimLeftFunc (f : rune -> bool) (p : list Z) : list Z :=
  trimLeftFunc (length p) f p.

(** [lastIndexFunc(s, f, truth)], the loop entered with [i]. *)
Fixpoint lastIndexFunc (fuel : nat) (f : rune -> bool) (truth : bool)
    (p : list Z) (i : Z) : Z :=
  match fuel with
  | O => -1
  | S fuel' =>
    if i <=? 0 then -1
    else
      let '(r, size) := utf8.DecodeLastRune (take (Z.to_nat i) p) in
      let i := i - Z.of_nat size in
      if Bool.eqb (f r) truth then i else lastIndexFunc fuel' f truth p i
  end.

(** [strings.TrimRightFunc] *)
Definition TrimRightFunc (f : rune -> bool) (p : list Z) : list Z :=
  let i := lastIndexFunc (length p) f false p (Z.of_nat (length p)) in
  let i :=
    if (0 <=? i) && (utf8.RuneSelf <=? nth (Z.to_nat i) p 0)
    then i + Z.of_nat (snd (utf8.DecodeRune (drop (Z.to_nat i) p)))
    else i + 1 in
  take (Z.to_nat i) p.

Definition TrimFunc (f : rune -> bool) (p : list Z) : list Z :=
  TrimRightFunc f (TrimLeftFunc f p).

(** The second loop of [strings.TrimSpace], walking back from the end of
    [s[start:]]; [q] is that slice reversed. *)
Fixpoint trim_stop (q : list Z) : list Z :=
  match q with
  | [] => []
  | c :: q' =>
    if utf8.RuneSelf <=? c then TrimRightFunc unicode_IsSpace (rev q)
    else if asciiSpace c then trim_stop q'
    else rev q
  end.

(** [strings.TrimSpace] on bytes: the ASCII fast path from both ends, and
    the Unicode-aware trim as soon as a non-ASCII byte is met. *)
Fixpoint trim_space (p : list Z) : list Z :=
  match p with
  | [] => []
  | c :: p' =>
    if utf8.RuneSelf <=? c then TrimFunc unicode_IsSpace p
    else if asciiSpace c then trim_space p'
    else trim_stop (rev p)
  end.

Definition TrimSpace (s : string) : string := of_bytes (trim_space (bytes s)).

Fixpoint drop_while (f : Z -> bool) (p : list Z) : list Z :=
  match p with
  | [] => []
  | b :: p' => if f b then drop_while f p' else p
  end.

(** [strings.TrimRight(s, cutset)] for an ASCII cutset: bytewise. *)
Definition TrimRight (s cutset : string) : string :=
  of_bytes (rev (drop_while (fun b => existsb (Z.eqb b) (bytes cutset))
                            (rev (bytes s)))).

End strings.

(** ** types.go: Score *)

(** [flags] is [None] for Go's nil map. *)
Record Score := mkScore {
  flags : option (gmap string Z);
  total : Z
}.

Definition AddFlag (s : Score) (flag : string) (value : Z) : Score :=
  let m := match flags s with None => ∅ | Some m => m end in
  {| flags := Some (<[flag := value]> m);
     total := GoInt.add (total s) value |}.

Definition Total (s : Score) : Z := total s.

Definition Less (s other : Score) : bool := total s <? total other.

(** The per-flag entry of a score, as [s.flags[flag]] reads it. *)
Definition flag_of (s : Score) (flag : string) : option Z :=
  match flags s with None => None | Some m => m !! flag end.

(** ** The values and types the coercer works on *)

(** What [json.Unmarshal] stores into an [interface{}]: [nil], [bool],
    [float64], [string], [[]interface{}] and [map[string]interface{}]; and
    the integer values [coerceToFloat] also accepts.  An object keeps its
    entries in a list with distinct keys; the order of the list carries no
    meaning (see [mapiter]). *)
Inductive IntKind := KInt | KInt8 | KInt16 | KInt32 | KInt64.
Inductive UintKind := KUint | KUint8 | KUint16 | KUint32 | KUint64.
Inductive FloatKind := KFloat32 | KFloat64.

Inductive Value :=
| VNull
| VBool (b : bool)
| VNumber (f : float)
| VString (s : string)
| VArray (items : list Value)
| VObject (m : list (string * Value))
| VInt (k : IntKind) (n : Z).

(** [reflect.StructField], as far as the coercer reads it; [JsonTag] is what
    [field.Tag.Lookup("json")] returns, and [PkgPath] is empty exactly for
    exported fields. *)
Record StructField (T : Type) := mkField {
  Name : string;
  PkgPath : string;
  JsonTag : option string;
  FieldType : T
}.
Arguments mkField {T}.
Arguments Name {T}.
Arguments PkgPath {T}.
Arguments JsonTag {T}.
Arguments FieldType {T}.

(** [reflect.Type], by kind.  Type descriptors are finite trees (recursive
    type declarations are outside the model); [TOther] stands for the kinds
    the coercer's switch does not list (chan, func, complex128, ...). *)
Inductive GoType :=
| TInterface
| TString
| TBool
| TInt (k : IntKind)
| TUint (k : UintKind)
| TFloat (k : FloatKind)
| TPtr (elem : GoType)
| TSlice (elem : GoType)
| TArray (n : nat) (elem : GoType)
| TMap (key elem : GoType)
| TStruct (fields : list (StructField GoType))
| TOther (kind : string).

(** The typed values the coercer hands back. [GNil] is the nil interface;
    pointers, slices and maps carry [None] when nil. *)
Inductive GoValue :=
| GNil
| GBool (b : bool)
| GString (s : string)
| GInt (k : IntKind) (n : Z)
| GUint (k : UintKind) (n : Z)
| GFloat (k : FloatKind) (f : float)
| GPtr (elem : GoType) (p : option GoValue)
| GSlice (elem : GoType) (items : option (list GoValue))
| GArray (elem : GoType) (items : list GoValue)
| GMap (key elem : GoType) (m : option (list (GoValue * GoValue)))
| GStruct (t : GoType) (fields : list GoValue)
| GZero (t : GoType).

Definition int_bits (k : IntKind) : Z :=
  match k with KInt => 64 | KInt8 => 8 | KInt16 => 16 | KInt32 => 32 | KInt64 => 64 end.

Definition uint_bits (k : UintKind) : Z :=
  match k with KUint => 64 | KUint8 => 8 | KUint16 => 16 | KUint32 => 32 | KUint64 => 64 end.

(** [reflect.TypeOf(value)]; [None] for nil. *)
Definition typeOf (v : Value) : option GoType :=
  match v with
  | VNull => None
  | VBool _ => Some TBool
  | VNumber _ => Some (TFloat KFloat64)
  | VString _ => Some TString
  | VArray _ => Some (TSlice TInterface)
  | VObject _ => Some (TMap TString TInterface)
  | VInt k _ => Some (TInt k)
  end.

(** A decoded value seen as a Go value (what [return value, nil] returns). *)
Fixpoint toGo (v : Value) : GoValue :=
  match v with
  | VNull => GNil
  | VBool b => GBool b
  | VNumber f => GFloat KFloat64 f
  | VString s => GString s
  | VArray items => GSlice TInterface (Some (map toGo items))
  | VObject m =>
      GMap TString TInterface (Some (map (fun kv => (GString (fst kv), toGo (snd kv))) m))
  | VInt k n => GInt k n
  end.

Definition IntKind_eqb (a b : IntKind) : bool :=
  match a, b with
  | KInt, KInt | KInt8, KInt8 | KInt16, KInt16 | KInt32, KInt32 | KInt64, KInt64 => true
  | _, _ => false
  end.

Definition UintKind_eqb (a b : UintKind) : bool :=
  match a, b with
  | KUint, KUint | KUint8, KUint8 | KUint16, KUint16 | KUint32, KUint32
  | KUint64, KUint64 => true
  | _, _ => false
  end.

Definition FloatKind_eqb (a b : FloatKind) : bool :=
  match a, b with
  | KFloat32, KFloat32 | KFloat64, KFloat64 => true
  | _, _ => false
  end.

Definition option_string_eqb (a b : option string) : bool :=
  match a, b with
  | None, None => true
  | Some x, Some y => String.eqb x y
  | _, _ => false
  end.

(** [t1 == t2] on type descriptors. *)
Fixpoint GoType_eqb (a b : GoType) {struct a} : bool :=
  match a, b with
  | TInterface, TInterface | TString, TString | TBool, TBool => true
  | TInt k, TInt k' => IntKind_eqb k k'
  | TUint k, TUint k' => UintKind_eqb k k'
  | TFloat k, TFloat k' => FloatKind_eqb k k'
  | TPtr e, TPtr e' => GoType_eqb e e'
  | TSlice e, TSlice e' => GoType_eqb e e'
  | TArray n e, TArray n' e' => Nat.eqb n n' && GoType_eqb e e'
  | TMap k e, TMap k' e' => GoType_eqb k k' && GoType_eqb e e'
  | TStruct fs, TStruct fs' =>
      (fix fields_eqb (fs fs' : list (StructField GoType)) : bool :=
         match fs, fs' with
         | [], [] => true
         | f :: fs, f' :: fs' =>
             String.eqb (Name f) (Name f') && String.eqb (PkgPath f) (PkgPath f')
             && option_string_eqb (JsonTag f) (JsonTag f')
             && GoType_eqb (FieldType f) (FieldType f') && fields_eqb fs fs'
         | _, _ => false
         end) fs fs'
  | TOther k, TOther k' => String.eqb k k'
  | _, _ => false
  end.

(** [reflect.Zero(t)] *)
Fixpoint zeroValue (t : GoType) : GoValue :=
  match t with
  | TInterface => GNil
  | TString => GString ""
  | TBool => GBool false
  | TInt k => GInt k 0
  | TUint k => GUint k 0
  | TFloat k => GFloat k 0%float
  | TPtr e => GPtr e None
  | TSlice e => GSlice e None
  | TArray n e => GArray e (repeat (zeroValue e) n)
  | TMap k e => GMap k e None
  | TStruct fs => GStruct t (map (fun f => zeroValue (FieldType f)) fs)
  | TOther _ => GZero t
  end.

(** [k1 == k2] on map keys, as Go compares them: floats by IEEE equality,
    pointers by identity (two pointers the coercer allocates are never
    equal), slices and maps never. *)
Fixpoint go_key_eqb (a b : GoValue) {struct a} : bool :=
  match a, b with
  | GNil, GNil => true
  | GBool x, GBool y => Bool.eqb x y
  | GString x, GString y => String.eqb x y
  | GInt k x, GInt k' y => IntKind_eqb k k' && (x =? y)
  | GUint k x, GUint k' y => UintKind_eqb k k' && (x =? y)
  | GFloat k x, GFloat k' y => FloatKind_eqb k k' && PrimFloat.eqb x y
  | GArray _ xs, GArray _ ys =>
      (fix all_eqb (xs ys : list GoValue) : bool :=
         match xs, ys with
         | [], [] => true
         | x :: xs, y :: ys => go_key_eqb x y && all_eqb xs ys
         | _, _ => false
         end) xs ys
  | GStruct _ xs, GStruct _ ys =>
      (fix all_eqb (xs ys : list GoValue) : bool :=
         match xs, ys with
         | [], [] => true
         | x :: xs, y :: ys => go_key_eqb x y && all_eqb xs ys
         | _, _ => false
         end) xs ys
  | _, _ => false
  end.

(** [m.SetMapIndex(key, elem)]: a nil [elem] (the zero [reflect.Value])
    deletes the key. *)
Fixpoint SetMapIndex (m : list (GoValue * GoValue)) (key elem : GoValue)
    : list (GoValue * GoValue) :=
  match m with
  | [] => match elem with GNil => [] | _ => [(key, elem)] end
  | (k, v) :: m' =>
      if go_key_eqb k key
      then match elem with GNil => m' | _ => (k, elem) :: m' end
      else (k, v) :: SetMapIndex m' key elem
  end.

(** [mapVal[key]] on a decoded object. *)
Fixpoint lookup_key (m : list (string * Value)) (key : string) : option Value :=
  match m with
  | [] => None
  | (k, v) :: m' => if String.eqb k key then Some v else lookup_key m' key
  end.

(** ** Errors and results *)

Inductive error :=
| ErrNum (s : string)              (* strconv.ParseFloat: parsing s *)
| ErrStringToInt (cause : error)   (* cannot convert string to int: cause *)
| ErrStringToFloat (cause : error) (* cannot convert string to float: cause *)
| ErrStringToBool (s : string)     (* cannot convert string to bool: s *)
| ErrConvert (from : option GoType) (to : string)  (* cannot convert %T to ... *)
| ErrUnsupportedType (t : GoType)  (* unsupported type: t *)
| ErrNoJSON                        (* no JSON found in input *)
| ErrExtract (cause : error)       (* failed to extract JSON: cause *)
| ErrParse (cause : option error)  (* failed to parse: cause *)
| ErrJSON (msg : string).          (* an error of encoding/json *)

(** What a call comes back with: a value, an [error], or a run-time panic
    (raised by package reflect). *)
Inductive outcome (A : Type) :=
| Ok (a : A)
| Err (e : error)
| Panic (msg : string).
Arguments Ok {A}.
Arguments Err {A}.
Arguments Panic {A}.

(** ** What the package takes from the Go runtime and standard library *)

(** The state from which the runtime draws the starting point of a map
    iteration. *)
Definition Seed := Z.

Class GoRuntime := {
  (** [strconv.ParseFloat(s, 64)]; [None] when it returns an error *)
  strconv_ParseFloat : string -> option float;
  (** [strconv.FormatFloat(v, 'f', -1, 64)] *)
  strconv_FormatFloat : float -> string;
  (** the conversion [int64(v)] of a [float64] (truncation; what it gives
      out of range depends on the platform) *)
  int64_of_float64 : float -> Z;
  (** the conversion [float32(v)] of a [float64], kept as a binary64 *)
  float32_of_float64 : float -> float;
  unicode_IsLetter : rune -> bool;
  unicode_IsDigit : rune -> bool;
  unicode_ToLower : rune -> rune;
  strings_EqualFold : string -> string -> bool;
  (** [fmt.Sprintf("%v", v)] *)
  fmt_Sprint : Value -> string;
  (** [for k, v := range m]: the entries of [m] in the order this iteration
      visits them, and the runtime's next state.  Every entry is visited
      once. *)
  mapiter : Seed -> list (string * Value) -> list (string * Value) * Seed;
  mapiter_perm : forall s m, Permutation (fst (mapiter s m)) m
}.

(** The conversion [float64(n)] of an [int64]. *)
Definition float64_of_int64 (n : Z) : float :=
  SF2Prim (SpecFloat.binary_normalize FloatOps.prec FloatOps.emax n 0 false).

(** [strconv.FormatInt(n, 10)] *)
Definition strconv_FormatInt (n : Z) : string :=
  DecimalString.NilZero.string_of_int (Z.to_int n).

Section Package.
Context `{RT : GoRuntime}.

(** [strings.ToLower] *)
Definition strings_ToLower (s : string) : string :=
  string_of_runes (map unicode_ToLower (runes s)).

(** ** coercer.go: parseNumber *)

Definition parseNumber (s : string) : outcome float :=
  let s := strings.TrimSpace s in
  let s := strings.RemoveByte s 36 in  (* "$" *)
  let s := strings.RemoveByte s 44 in  (* "," *)
  let std :=
    match strconv_ParseFloat s with
    | Some f => Ok f
    | None => Err (ErrNum s)
    end in
  if strings.ContainsByte s 47 then    (* "/" *)
    match strings.SplitByte s 47 with
    | [p0; p1] =>
      match strconv_ParseFloat (strings.TrimSpace p0),
            strconv_ParseFloat (strings.TrimSpace p1) with
      | Some num, Some denom =>
          if negb (PrimFloat.eqb denom 0%float) then Ok (num / denom)%float
          else std
      | _, _ => std
      end
    | _ => std
    end
  else std.

(** The number parser as its specification words it: strip [$] and [,];
    a string with exactly one [/] whose two sides parse, with a nonzero
    denominator, is a fraction; anything else goes to the standard parse.
    Compared with [parseNumber] in the properties below. *)
Definition parseNumber_as_specified (s : string) : outcome float :=
  let s := strings.RemoveByte s 36 in
  let s := strings.RemoveByte s 44 in
  let std :=
    match strconv_ParseFloat s with
    | Some f => Ok f
    | None => Err (ErrNum s)
    end in
  match strings.SplitByte s 47 with
  | [p0; p1] =>
    match strconv_ParseFloat p0, strconv_ParseFloat p1 with
    | Some num, Some denom =>
        if negb (PrimFloat.eqb denom 0%float) then Ok (num / denom)%float else std
    | _, _ => std
    end
  | _ => std
  end.

(** ** coercer.go: the coercer

    The coercer runs in a state monad: the state is the [*Score] every call
    shares and the runtime's iteration seed. *)

Record CState := mkCState { score : Score; seed : Seed }.

Definition M (A : Type) : Type := CState -> outcome A * CState.

Definition ret {A} (a : A) : M A := fun st => (Ok a, st).
Definition fail {A} (e : error) : M A := fun st => (Err e, st).
Definition panic {A} (msg : string) : M A := fun st => (Panic msg, st).

Definition bind {A B} (m : M A) (k : A -> M B) : M B :=
  fun st =>
    match m st with
    | (Ok a, st') => k a st'
    | (Err e, st') => (Err e, st')
    | (Panic msg, st') => (Panic msg, st')
    end.

Notation "'let*' x := m 'in' k" := (bind m (fun x => k))
  (at level 10, x name, m at level 100, k at level 200, only parsing).
Notation "m ;; k" := (bind m (fun _ => k))
  (at level 100, k at level 200, only parsing).

(** [v, err := m]: an error is handed to the caller as a value. *)
Definition attempt {A} (m : M A) : M (error + A) :=
  fun st =>
    match m st with
    | (Ok a, st') => (Ok (inr a), st')
    | (Err e, st') => (Ok (inl e), st')
    | (Panic msg, st') => (Panic msg, st')
    end.

(** [score.AddFlag(flag, value)] *)
Definition addFlag (flag : string) (value : Z) : M unit :=
  fun st => (Ok tt, mkCState (AddFlag (score st) flag value) (seed st)).

(** [range m] *)
Definition range (m : list (string * Value)) : M (list (string * Value)) :=
  fun st => let '(es, sd) := mapiter (seed st) m in (Ok es, mkCState (score st) sd).

(** [x.Set(reflect.ValueOf(elem))]: package reflect panics on the zero
    [reflect.Value], which is what [reflect.ValueOf(nil)] is. *)
Definition reflect_Set (elem : GoValue) : M GoValue :=
  match elem with
  | GNil => panic "reflect: call of reflect.Value.Set on zero Value"
  | _ => ret elem
  end.

Definition coerceToString (value : Value) : M GoValue :=
  match value with
  | VString v => ret (GString v)
  | VNumber v =>
      if PrimFloat.eqb v (float64_of_int64 (int64_of_float64 v))
      then ret (GString (strconv_FormatInt (int64_of_float64 v)))
      else ret (GString (strconv_FormatFloat v))
  | VBool v => ret (GString (if v then "true" else "false"))
  | _ => ret (GString (fmt_Sprint value))
  end.

(** [targetType] is one of the signed integer types; [k] is its kind. *)
Definition coerceToInt (value : Value) (k : IntKind) : M GoValue :=
  let* intVal :=
    match value with
    | VNumber v =>
        let intVal := int64_of_float64 v in
        if negb (PrimFloat.eqb (float64_of_int64 intVal) v)
        then addFlag "FloatToInt" 1 ;; ret intVal
        else ret intVal
    | VString v =>
        match parseNumber v with
        | Ok parsed =>
            let intVal := int64_of_float64 parsed in
            addFlag "StringToInt" 2 ;; ret intVal
        | Err err => fail (ErrStringToInt err)
        | Panic msg => panic msg
        end
    | VBool v =>
        let intVal := if v then 1 else 0 in
        addFlag "BoolToInt" 2 ;; ret intVal
    | _ => fail (ErrConvert (typeOf value) "int")
    end in
  ret (GInt k (GoInt.wrap (int_bits k) intVal)).

Definition coerceToUint (value : Value) (k : UintKind) : M GoValue :=
  let* intVal := coerceToInt value KInt64 in
  match intVal with
  | GInt _ n => ret (GUint k (GoInt.uwrap (uint_bits k) (GoInt.uwrap 64 n)))
  | _ => panic "interface conversion: interface {} is not int64"
  end.

Definition coerceToFloat (value : Value) (k : FloatKind) : M GoValue :=
  let* floatVal :=
    match value with
    | VNumber v => ret v
    | VString v =>
        match parseNumber v with
        | Ok parsed => addFlag "StringToFloat" 2 ;; ret parsed
        | Err err => fail (ErrStringToFloat err)
        | Panic msg => panic msg
        end
    | VInt _ n => ret (float64_of_int64 n)
    | _ => fail (ErrConvert (typeOf value) "float")
    end in
  ret (GFloat k match k with
                | KFloat64 => floatVal
                | KFloat32 => float32_of_float64 floatVal
                end).

Definition coerceToBool (value : Value) : M GoValue :=
  match value with
  | VBool v => ret (GBool v)
  | VString v =>
      let lower := strings_ToLower (strings.TrimSpace v) in
      if String.eqb lower "true" || String.eqb lower "yes"
         || String.eqb lower "1" || String.eqb lower "on"
      then addFlag "StringToBool" 1 ;; ret (GBool true)
      else if String.eqb lower "false" || String.eqb lower "no"
              || String.eqb lower "0" || String.eqb lower "off"
      then addFlag "StringToBool" 1 ;; ret (GBool false)
      else fail (ErrStringToBool v)
  | VNumber v =>
      addFlag "NumberToBool" 1 ;;
      ret (GBool (negb (PrimFloat.eqb v 0%float)))
  | _ => fail (ErrConvert (typeOf value) "bool")
  end.

(** The recursive calls of [coerceToSlice], [coerceToArray], [coerceToMap]
    and [coerceToStruct] go through [coerceValue], which they receive as an
    argument until the knot is tied below. *)

(** [for i, item := range items { elem, err := coerceValue(item, elemType);
    ...; result.Index(i).Set(reflect.ValueOf(elem)) }] *)
Fixpoint coerce_items (coerceElem : Value -> M GoValue) (items : list Value)
    (i : nat) (result : list GoValue) : M (list GoValue) :=
  match items with
  | [] => ret result
  | item :: items' =>
      let* elem := coerceElem item in
      let* elem := reflect_Set elem in
      coerce_items coerceElem items' (S i) (<[i := elem]> result)
  end.

Definition coerceToSlice (coerceElem : Value -> M GoValue) (value : Value)
    (elemType : GoType) : M GoValue :=
  let items := match value with VArray v => v | _ => [value] end in
  let result := repeat (zeroValue elemType) (length items) in
  let* result := coerce_items coerceElem items 0 result in
  ret (GSlice elemType (Some result)).

Definition coerceToArray (coerceElem : Value -> M GoValue) (value : Value)
    (n : nat) (elemType : GoType) : M GoValue :=
  let items := match value with VArray v => v | _ => [value] end in
  let result := repeat (zeroValue elemType) n in
  let* result := coerce_items coerceElem (take n items) 0 result in
  ret (GArray elemType result).

Fixpoint coerce_entries (coerceKey coerceElem : Value -> M GoValue)
    (entries : list (string * Value)) (result : list (GoValue * GoValue))
    : M (list (GoValue * GoValue)) :=
  match entries with
  | [] => ret result
  | (k, v) :: entries' =>
      let* key := coerceKey (VString k) in
      let* elem := coerceElem v in
      coerce_entries coerceKey coerceElem entries' (SetMapIndex result key elem)
  end.

Definition coerceToMap (coerceKey coerceElem : Value -> M GoValue)
    (value : Value) (keyType elemType : GoType) : M GoValue :=
  match value with
  | VObject mapVal =>
      let* entries := range mapVal in
      let* result := coerce_entries coerceKey coerceElem entries [] in
      ret (GMap keyType elemType (Some result))
  | _ => fail (ErrConvert (typeOf value) "map")
  end.

Definition nonempty (s : string) : bool := negb (String.eqb s "").

(** The key of [mapVal] a struct field reads, with its value: the JSON tag
    first, then the field name, then a case-insensitive match;
    [("", VNull)] when none is found. *)
Definition resolve_field (mapVal : list (string * Value))
    (field : StructField GoType) : M (string * Value) :=
  let found := ("", VNull) in
  let found :=
    match JsonTag field with
    | Some tag =>
        let parts0 := hd "" (strings.SplitByte tag 44) in  (* "," *)
        if nonempty parts0 && negb (String.eqb parts0 "-") then
          match lookup_key mapVal parts0 with
          | Some v => (parts0, v)
          | None => found
          end
        else found
    | None => found
    end in
  let found :=
    if String.eqb (fst found) "" then
      match lookup_key mapVal (Name field) with
      | Some v => (Name field, v)
      | None => found
      end
    else found in
  if String.eqb (fst found) "" then
    let* entries := range mapVal in
    match find (fun kv => strings_EqualFold (fst kv) (Name field)) entries with
    | Some (k, v) => addFlag "FuzzyFieldMatch" 1 ;; ret (k, v)
    | None => ret found
    end
  else ret found.

(** [result.Field(i).Set(x)]: package reflect panics on a field that is not
    exported. *)
Definition set_field (field : StructField GoType) (i : nat) (x : GoValue)
    (result : list GoValue) : M (list GoValue) :=
  if nonempty (PkgPath field)
  then panic "reflect: reflect.Value.Set using value obtained using unexported field"
  else ret (<[i := x]> result).

Fixpoint coerce_fields (coerceValue : Value -> GoType -> M GoValue)
    (mapVal : list (string * Value)) (fields : list (StructField GoType))
    (i : nat) (result : list GoValue) : M (list GoValue) :=
  match fields with
  | [] => ret result
  | field :: fields' =>
      let* found := resolve_field mapVal field in
      let* result :=
        (if nonempty (fst found) then
           let* r := attempt (coerceValue (snd found) (FieldType field)) in
           match r with
           | inl _ => ret result      (* continue *)
           | inr GNil => set_field field i (zeroValue (FieldType field)) result
           | inr elem => set_field field i elem result
           end
         else ret result) in
      coerce_fields coerceValue mapVal fields' (S i) result
  end.

Definition coerceToStruct (coerceValue : Value -> GoType -> M GoValue)
    (value : Value) (targetType : GoType)
    (fields : list (StructField GoType)) : M GoValue :=
  match value with
  | VObject mapVal =>
      let result := map (fun f => zeroValue (FieldType f)) fields in
      let* result := coerce_fields coerceValue mapVal fields 0 result in
      ret (GStruct targetType result)
  | _ => fail (ErrConvert (typeOf value) "struct")
  end.

Definition type_matches (valueType : option GoType) (targetType : GoType) : bool :=
  match valueType with
  | Some t => GoType_eqb t targetType
  | None => false
  end.

Fixpoint coerceValue (value : Value) (targetType : GoType) {struct targetType}
    : M GoValue :=
  match value with
  | VNull => ret GNil
  | _ =>
    match targetType with
    | TInterface => ret (toGo value)
    | _ =>
      if type_matches (typeOf value) targetType then ret (toGo value)
      else
        match targetType with
        | TPtr elemType =>
            let* elem := coerceValue value elemType in
            match elem with
            | GNil => ret (GPtr elemType None)
            | _ => ret (GPtr elemType (Some elem))
            end
        | TString => coerceToString value
        | TInt k => coerceToInt value k
        | TUint k => coerceToUint value k
        | TFloat k => coerceToFloat value k
        | TBool => coerceToBool value
        | TSlice elemType =>
            coerceToSlice (fun v => coerceValue v elemType) value elemType
        | TArray n elemType =>
            coerceToArray (fun v => coerceValue v elemType) value n elemType
        | TMap keyType elemType =>
            coerceToMap (fun v => coerceValue v keyType)
                        (fun v => coerceValue v elemType) value keyType elemType
        | TStruct fields => coerceToStruct coerceValue value targetType fields
        | TInterface | TOther _ => fail (ErrUnsupportedType targetType)
        end
    end
  end.

(** [TypeCoercer.Coerce] *)
Definition Coerce (value : Value) (targetType : GoType) (sd : Seed)
    : outcome GoValue * Score * Seed :=
  match value with
  | VNull => (Ok GNil, mkScore None 0, sd)
  | _ =>
      let '(r, st) := coerceValue value targetType (mkCState (mkScore (Some ∅) 0) sd) in
      (r, score st, seed st)
  end.

(** ** The enum coercer: fuzzy matching of labels *)

(** [min(values...)] *)
Definition min (values : list Z) : Z :=
  match values with
  | [] => 0
  | m :: _ => fold_left (fun m v => if v <? m then v else m) values m
  end.

(** [dp[i][j]] and [dp[i][j] = v] on the table of [levenshteinDistance]. *)
Definition dp_get (dp : list (list Z)) (i j : nat) : Z := nth j (nth i dp []) 0.
Definition dp_set (dp : list (list Z)) (i j : nat) (v : Z) : list (list Z) :=
  <[i := <[j := v]> (nth i dp [])]> dp.

Definition levenshteinDistance (s1 s2 : string) : Z :=
  let runes1 := runes s1 in
  let runes2 := runes s2 in
  let len1 := length runes1 in
  let len2 := length runes2 in
  if (len1 =? 0)%nat then Z.of_nat len2
  else if (len2 =? 0)%nat then Z.of_nat len1
  else
    let dp := repeat (repeat 0 (len2 + 1)) (len1 + 1) in
    let dp := fold_left (fun dp i => dp_set dp i 0 (Z.of_nat i)) (seq 0 (len1 + 1)) dp in
    let dp := fold_left (fun dp j => dp_set dp 0 j (Z.of_nat j)) (seq 0 (len2 + 1)) dp in
    let dp :=
      fold_left (fun dp i =>
        fold_left (fun dp j =>
          let cost := if negb (nth (i - 1) runes1 0 =? nth (j - 1) runes2 0) then 1 else 0 in
          dp_set dp i j
            (min [GoInt.add (dp_get dp (i - 1) j) 1;
                  GoInt.add (dp_get dp i (j - 1)) 1;
                  GoInt.add (dp_get dp (i - 1) (j - 1)) cost]))
          (seq 1 len2) dp)
        (seq 1 len1) dp in
    dp_get dp len1 len2.

(** The accent table of [normalizeString]. *)
Definition replacements (ch : rune) : option rune :=
  let a := 97 in let e := 101 in let i := 105 in let o := 111 in
  let u := 117 in let y := 121 in let c := 99 in
  if (ch =? 0xE1) || (ch =? 0xE0) || (ch =? 0xE4) || (ch =? 0xE2) || (ch =? 0xE3)
     || (ch =? 0xE5) then Some a
  else if (ch =? 0xE9) || (ch =? 0xE8) || (ch =? 0xEB) || (ch =? 0xEA) then Some e
  else if (ch =? 0xED) || (ch =? 0xEC) || (ch =? 0xEF) || (ch =? 0xEE) then Some i
  else if (ch =? 0xF3) || (ch =? 0xF2) || (ch =? 0xF6) || (ch =? 0xF4) || (ch =? 0xF5)
  then Some o
  else if (ch =? 0xFA) || (ch =? 0xF9) || (ch =? 0xFC) || (ch =? 0xFB) then Some u
  else if (ch =? 0xFD) || (ch =? 0x1EF3) || (ch =? 0xFF) then Some y
  else if (ch =? 0xE7) || (ch =? 0x10D) then Some c
  else if ch =? 0xF1 then Some 110     (* n *)
  else if ch =? 0xDF then Some 115     (* s *)
  else if ch =? 0xE6 then Some a
  else if ch =? 0x153 then Some o
  else None.

Definition normalizeString (s : string) : string :=
  let s := strings_ToLower s in
  string_of_runes
    (flat_map (fun ch =>
       match replacements ch with
       | Some replacement => [replacement]
       | None =>
           if unicode_IsLetter ch || unicode_IsDigit ch || (ch =? 95) || (ch =? 32)
           then [ch] else []
       end) (runes s)).

Definition stringDistance (s1 s2 : string) : Z :=
  let s1Norm := normalizeString s1 in
  let s2Norm := normalizeString s2 in
  levenshteinDistance s1Norm s2Norm.

(** [fuzzyMatchEnum]; a [scoreResult] is a pair of the label and its score. *)
Definition fuzzyMatchEnum (input : string) (enumValues : list string) : string :=
  let results := map (fun enumValue => (enumValue, stringDistance input enumValue)) enumValues in
  match results with
  | [] => ""
  | r0 :: _ =>
      let best := fold_left (fun best r => if snd r <? snd best then r else best) results r0 in
      let threshold := Z.quot (GoInt.add (len input) (len (fst best))) 2 in
      if snd best <=? threshold then fst best else ""
  end.

(** ** The repairer: FixJSON *)

Record fixingParserState := mkFixState {
  fx_runes : list rune;
  pos : Z;
  result : string;                (* the strings.Builder *)
  inString : bool;
  stringQuoteChar : rune;
  stringEscaped : bool;
  lastNonWhitespace : rune;
  bracketStack : list rune
}.

Definition set_pos (p : fixingParserState) (n : Z) : fixingParserState :=
  mkFixState (fx_runes p) n (result p) (inString p) (stringQuoteChar p)
             (stringEscaped p) (lastNonWhitespace p) (bracketStack p).
Definition set_result (p : fixingParserState) (r : string) : fixingParserState :=
  mkFixState (fx_runes p) (pos p) r (inString p) (stringQuoteChar p)
             (stringEscaped p) (lastNonWhitespace p) (bracketStack p).
Definition set_inString (p : fixingParserState) (b : bool) : fixingParserState :=
  mkFixState (fx_runes p) (pos p) (result p) b (stringQuoteChar p)
             (stringEscaped p) (lastNonWhitespace p) (bracketStack p).
Definition set_stringQuoteChar (p : fixingParserState) (c : rune) : fixingParserState :=
  mkFixState (fx_runes p) (pos p) (result p) (inString p) c
             (stringEscaped p) (lastNonWhitespace p) (bracketStack p).
Definition set_stringEscaped (p : fixingParserState) (b : bool) : fixingParserState :=
  mkFixState (fx_runes p) (pos p) (result p) (inString p) (stringQuoteChar p)
             b (lastNonWhitespace p) (bracketStack p).
Definition set_lastNonWhitespace (p : fixingParserState) (c : rune) : fixingParserState :=
  mkFixState (fx_runes p) (pos p) (result p) (inString p) (stringQuoteChar p)
             (stringEscaped p) c (bracketStack p).
Definition set_bracketStack (p : fixingParserState) (st : list rune) : fixingParserState :=
  mkFixState (fx_runes p) (pos p) (result p) (inString p) (stringQuoteChar p)
             (stringEscaped p) (lastNonWhitespace p) st.

(** [p.result.WriteRune(ch)] and [p.result.WriteString(s)] *)
Definition WriteRune (p : fixingParserState) (ch : rune) : fixingParserState :=
  set_result p (result p +:+ string_of_runes [ch]).
Definition WriteString (p : fixingParserState) (s : string) : fixingParserState :=
  set_result p (result p +:+ s).

(** [p.runes[i]] *)
Definition rune_at (p : fixingParserState) (i : Z) : rune :=
  nth (Z.to_nat i) (fx_runes p) 0.
Definition nrunes (p : fixingParserState) : Z := Z.of_nat (length (fx_runes p)).

(** The runes the repairer names. *)
Definition r_dquote : rune := 34.
Definition r_squote : rune := 39.
Definition r_btick : rune := 96.
Definition r_bslash : rune := 92.
Definition r_lbrace : rune := 123.
Definition r_rbrace : rune := 125.
Definition r_lbrack : rune := 91.
Definition r_rbrack : rune := 93.
Definition r_colon : rune := 58.
Definition r_comma : rune := 44.
Definition r_slash : rune := 47.
Definition r_star : rune := 42.

Definition startsWithQuote (s : string) : bool :=
  match bytes s with
  | [] => false
  | c :: _ => (c =? r_dquote) || (c =? r_squote) || (c =? r_btick)
  end.

Definition isReservedWord (s : string) : bool :=
  let lower := strings_ToLower (strings.TrimSpace s) in
  if String.eqb lower "true" || String.eqb lower "false" || String.eqb lower "null"
  then true
  else match parseNumber s with Ok _ => true | _ => false end.

Definition ws_cutset : string :=
  of_bytes [32; 9; 10; 13].     (* " \t\n\r" *)

(** The index of the last byte of [p] satisfying [f], or [-1]:
    [for i := len(str) - 1; i >= 0; i-- { if f(str[i]) { ...; break } }]. *)
Definition last_index (f : Z -> bool) (p : list Z) : Z :=
  match strings.drop_while (fun b => negb (f b)) (rev p) with
  | [] => -1
  | q => Z.of_nat (length q) - 1
  end.

(** The rewrite shared by [quoteUnquotedKey] and [quoteUnquotedValue]: the
    text after the last structural byte is put between quotes unless
    [keep] holds of it. *)
Definition quote_after (structural : Z -> bool) (keep : string -> bool)
    (p : fixingParserState) : fixingParserState :=
  let str := strings.TrimRight (result p) ws_cutset in
  let lastStructuralChar := last_index structural (bytes str) in
  if (0 <=? lastStructuralChar) && (lastStructuralChar <? len str - 1) then
    let before := of_bytes (take (Z.to_nat (lastStructuralChar + 1)) (bytes str)) in
    let unquoted :=
      strings.TrimSpace (of_bytes (drop (Z.to_nat (lastStructuralChar + 1)) (bytes str))) in
    if (0 <? len unquoted) && negb (keep unquoted) then
      set_result p (before +:+ of_bytes [32; 34] +:+ unquoted +:+ of_bytes [34])
    else p
  else p.

Definition quoteUnquotedKey (p : fixingParserState) : fixingParserState :=
  quote_after (fun ch => (ch =? r_lbrace) || (ch =? r_comma)) startsWithQuote p.

Definition quoteUnquotedValue (p : fixingParserState) : fixingParserState :=
  quote_after (fun ch => (ch =? r_colon) || (ch =? r_lbrack) || (ch =? r_comma))
              (fun unquoted => startsWithQuote unquoted || isReservedWord unquoted) p.

Definition removeTrailingComma (p : fixingParserState) : fixingParserState :=
  let str := strings.TrimRight (result p) ws_cutset in
  if strings.HasSuffix str (of_bytes [r_comma]) then
    set_result p (of_bytes (take (length (bytes str) - 1) (bytes str)))
  else p.

Fixpoint closeUnclosedStructures_loop (stack : list rune) (p : fixingParserState)
    : fixingParserState :=
  match stack with
  | [] => p
  | lastOpen :: stack' =>
      let p := set_bracketStack p stack' in
      let p := if lastOpen =? r_rbrace then quoteUnquotedValue p else p in
      let p :=
        if lastOpen =? r_lbrace then WriteRune (removeTrailingComma p) r_rbrace
        else if lastOpen =? r_lbrack then WriteRune (removeTrailingComma p) r_rbrack
        else p in
      closeUnclosedStructures_loop stack' p
  end.

(** [bracketStack] keeps the innermost open bracket first. *)
Definition closeUnclosedStructures (p : fixingParserState) : fixingParserState :=
  closeUnclosedStructures_loop (bracketStack p) p.

Definition handleOpenBracket (p : fixingParserState) (ch : rune) : fixingParserState :=
  let p := WriteRune p ch in
  let p := set_bracketStack p (ch :: bracketStack p) in
  set_lastNonWhitespace p ch.

Definition handleCloseBracket (p : fixingParserState) (ch : rune) : fixingParserState :=
  match bracketStack p with
  | [] => p
  | lastOpen :: stack' =>
      let expectedClose :=
        if lastOpen =? r_lbrace then r_rbrace
        else if lastOpen =? r_lbrack then r_rbrack
        else 0 in
      if ch =? expectedClose then
        let p := if expectedClose =? r_rbrace then quoteUnquotedValue p else p in
        let p := set_bracketStack p stack' in
        let p := removeTrailingComma p in
        let p := WriteRune p ch in
        set_lastNonWhitespace p ch
      else p
  end.

Definition handleStringChar (p : fixingParserState) (ch : rune) : fixingParserState :=
  if stringEscaped p then set_stringEscaped (WriteRune p ch) false
  else if ch =? r_bslash then set_stringEscaped (WriteRune p ch) true
  else if ch =? stringQuoteChar p then
    set_lastNonWhitespace (set_inString (WriteRune p r_dquote) false) r_dquote
  else WriteRune p ch.

(** [for p.pos < len(p.runes) && p.runes[p.pos] != '\n' { p.pos++ }] *)
Fixpoint skip_line_comment (fuel : nat) (p : fixingParserState) : fixingParserState :=
  match fuel with
  | O => p
  | S fuel' =>
      if (pos p <? nrunes p) && negb (rune_at p (pos p) =? 10)
      then skip_line_comment fuel' (set_pos p (pos p + 1))
      else p
  end.

(** [for p.pos+1 < len(p.runes) { if "*/" at p.pos { p.pos++; break }; p.pos++ }] *)
Fixpoint skip_block_comment (fuel : nat) (p : fixingParserState) : fixingParserState :=
  match fuel with
  | O => p
  | S fuel' =>
      if pos p + 1 <? nrunes p then
        if (rune_at p (pos p) =? r_star) && (rune_at p (pos p + 1) =? r_slash)
        then set_pos p (pos p + 1)
        else skip_block_comment fuel' (set_pos p (pos p + 1))
      else p
  end.

Definition open_string (p : fixingParserState) (quote : rune) : fixingParserState :=
  let p := WriteRune p r_dquote in
  let p := set_inString p true in
  let p := set_stringQuoteChar p quote in
  set_lastNonWhitespace p r_dquote.

Definition handleNonStringChar (p : fixingParserState) (ch : rune) : fixingParserState :=
  let lnw := lastNonWhitespace p in
  if ch =? r_dquote then open_string p r_dquote
  else if ch =? r_squote then open_string p r_squote
  else if ch =? r_btick then open_string p r_btick
  else if (ch =? r_lbrace) || (ch =? r_lbrack) then handleOpenBracket p ch
  else if (ch =? r_rbrace) || (ch =? r_rbrack) then handleCloseBracket p ch
  else if ch =? r_colon then
    set_lastNonWhitespace (WriteRune (quoteUnquotedKey p) ch) ch
  else if ch =? r_comma then
    let p :=
      if negb (lnw =? r_lbrace) && negb (lnw =? r_lbrack) && negb (lnw =? r_comma)
         && negb (lnw =? r_dquote)
      then quoteUnquotedValue p else p in
    set_lastNonWhitespace (WriteRune p ch) ch
  else if (ch =? 32) || (ch =? 9) || (ch =? 10) || (ch =? 13) then
    let str := result p in
    if (0 <? len str)
       && negb (strings.HasSuffix (strings.TrimRight str ws_cutset) (of_bytes [32]))
    then
      if negb (lnw =? r_lbrace) && negb (lnw =? r_lbrack) && negb (lnw =? r_comma)
         && negb (lnw =? r_colon) && negb (unicode_IsSpace lnw)
      then WriteRune p 32 else p
    else p
  else if (ch =? r_slash) || (ch =? r_star) then
    if (ch =? r_slash) && (pos p + 1 <? nrunes p) && (rune_at p (pos p + 1) =? r_slash)
    then skip_line_comment (length (fx_runes p)) (set_pos p (pos p + 1))
    else if (ch =? r_slash) && (pos p + 1 <? nrunes p) && (rune_at p (pos p + 1) =? r_star)
    then skip_block_comment (length (fx_runes p)) (set_pos p (pos p + 1))
    else p
  else if unicode_IsLetter ch || unicode_IsDigit ch || (ch =? 45) || (ch =? 43)
          || (ch =? 46) || (ch =? 95)
  then
    let p := WriteRune p ch in
    if negb (unicode_IsSpace ch) then set_lastNonWhitespace p ch else p
  else if (ch =? 110) || (ch =? 116) || (ch =? 102) || (ch =? 101) || (ch =? 69)
  then set_lastNonWhitespace (WriteRune p ch) ch
  else p.

(** The loop of [parse]; every round moves [pos] forward, so [len(p.runes)]
    rounds are enough. *)
Fixpoint parse_loop (fuel : nat) (p : fixingParserState) : fixingParserState :=
  match fuel with
  | O => p
  | S fuel' =>
      if pos p <? nrunes p then
        let ch := rune_at p (pos p) in
        let p := if inString p then handleStringChar p ch else handleNonStringChar p ch in
        parse_loop fuel' (set_pos p (pos p + 1))
      else p
  end.

Definition parse (p : fixingParserState) : outcome string :=
  let p := parse_loop (length (fx_runes p)) p in
  let p := closeUnclosedStructures p in
  Ok (result p).

Definition FixJSON (input : string) : outcome string :=
  parse (mkFixState (runes input) 0 "" false 0 false 0 []).

(** ** Package encoding/json, decoding into an [interface{}]

    [json.Unmarshal(data, &v)] for [v interface{}]: a recursive-descent
    reading of RFC 8259 as package encoding/json implements it: the four
    white-space bytes, no byte below 0x20 inside a string, invalid UTF-8 and
    lone surrogates replaced by U+FFFD, numbers converted by
    [strconv.ParseFloat], a later duplicate of a key replacing the earlier
    entry, and at most 10000 levels of nesting. *)

End Package.

Notation "'let*' x := m 'in' k" := (bind m (fun x => k))
  (at level 10, x name, m at level 100, k at level 200, only parsing).
Notation "m ;; k" := (bind m (fun _ => k))
  (at level 100, k at level 200, only parsing).

Module json.
Section Decode.
Context `{RT : GoRuntime}.

Definition isSpace (c : Z) : bool :=
  (c =? 32) || (c =? 9) || (c =? 13) || (c =? 10).

Fixpoint skip_ws (p : list Z) : list Z :=
  match p with
  | c :: p' => if isSpace c then skip_ws p' else p
  | [] => []
  end.

Definition isDigit (c : Z) : bool := (48 <=? c) && (c <=? 57).

Definition hexval (c : Z) : option Z :=
  if (48 <=? c) && (c <=? 57) then Some (c - 48)
  else if (97 <=? c) && (c <=? 102) then Some (c - 97 + 10)
  else if (65 <=? c) && (c <=? 70) then Some (c - 65 + 10)
  else None.

(** [getu4]: the code unit of a [\uXXXX] escape ([p] starts after [\u]). *)
Definition getu4 (p : list Z) : option (Z * list Z) :=
  match p with
  | a :: b :: c :: d :: rest =>
      match hexval a, hexval b, hexval c, hexval d with
      | Some a, Some b, Some c, Some d => Some (((a * 16 + b) * 16 + c) * 16 + d, rest)
      | _, _, _, _ => None
      end
  | _ => None
  end.

Definition isSurrogate (r : Z) : bool := (0xD800 <=? r) && (r <? 0xE000).

(** [utf16.DecodeRune] *)
Definition utf16_DecodeRune (r1 r2 : Z) : Z :=
  if (0xD800 <=? r1) && (r1 <? 0xDC00) && (0xDC00 <=? r2) && (r2 <? 0xE000)
  then Z.lor (Z.shiftl (r1 - 0xD800) 10) (r2 - 0xDC00) + 0x10000
  else utf8.RuneError.

(** The body of a string literal ([p] starts after the opening quote): the
    bytes it denotes and what follows the closing quote. *)
Fixpoint scan_string (fuel : nat) (p : list Z) (acc : list Z) : option (list Z * list Z) :=
  match fuel with
  | O => None
  | S fuel' =>
    match p with
    | [] => None
    | c :: rest =>
      if c =? 34 then Some (acc, rest)
      else if c =? 92 then
        match rest with
        | [] => None
        | e :: rest' =>
          if e =? 117 then      (* \u *)
            match getu4 rest' with
            | None => None
            | Some (rr, rest'') =>
              if isSurrogate rr then
                match rest'' with
                | 92 :: 117 :: more =>
                    match getu4 more with
                    | Some (rr1, more') =>
                        let dec := utf16_DecodeRune rr rr1 in
                        if negb (dec =? utf8.RuneError)
                        then scan_string fuel' more' (acc ++ utf8.EncodeRune dec)
                        else scan_string fuel' rest'' (acc ++ utf8.EncodeRune utf8.RuneError)
                    | None => scan_string fuel' rest'' (acc ++ utf8.EncodeRune utf8.RuneError)
                    end
                | _ => scan_string fuel' rest'' (acc ++ utf8.EncodeRune utf8.RuneError)
                end
              else scan_string fuel' rest'' (acc ++ utf8.EncodeRune rr)
            end
          else
            let unescaped :=
              if (e =? 34) || (e =? 92) || (e =? 47) then Some e
              else if e =? 98 then Some 8
              else if e =? 102 then Some 12
              else if e =? 110 then Some 10
              else if e =? 114 then Some 13
              else if e =? 116 then Some 9
              else None in
            match unescaped with
            | Some b => scan_string fuel' rest' (acc ++ [b])
            | None => None
            end
        end
      else if c <? 32 then None
      else if c <? utf8.RuneSelf then scan_string fuel' rest (acc ++ [c])
      else
        let '(r, size) := utf8.DecodeRune p in
        scan_string fuel' (drop size p) (acc ++ utf8.EncodeRune r)
    end
  end.

Fixpoint take_digits (p : list Z) : list Z * list Z :=
  match p with
  | c :: p' => if isDigit c then let '(ds, rest) := take_digits p' in (c :: ds, rest)
               else ([], p)
  | [] => ([], [])
  end.

(** The parts of a number literal at the head of [p], each with what
    follows it: the integer part, the fraction and the exponent (the last two
    may be absent). *)
Definition scan_int (p : list Z) : option (list Z * list Z) :=
  match p with
  | [] => None
  | c :: p' =>
      if c =? 48 then Some ([48], p')
      else if isDigit c then let '(ds, rest) := take_digits p' in Some (c :: ds, rest)
      else None
  end.

Definition scan_frac (p : list Z) : option (list Z * list Z) :=
  match p with
  | 46 :: p' =>
      match take_digits p' with
      | ([], _) => None
      | (ds, rest) => Some (46 :: ds, rest)
      end
  | _ => Some ([], p)
  end.

Definition scan_exp (p : list Z) : option (list Z * list Z) :=
  match p with
  | e :: p' =>
      if (e =? 101) || (e =? 69) then
        let '(sg, p'') :=
          match p' with
          | s :: q => if (s =? 43) || (s =? 45) then ([s], q) else ([], p')
          | [] => ([], p')
          end in
        match take_digits p'' with
        | ([], _) => None
        | (ds, rest) => Some (e :: sg ++ ds, rest)
        end
      else Some ([], p)
  | [] => Some ([], p)
  end.

(** A number literal at the head of [p]: its text and what follows. *)
Definition scan_number (p : list Z) : option (list Z * list Z) :=
  let '(sign, p) := match p with 45 :: p' => ([45], p') | _ => ([], p) end in
  match scan_int p with
  | None => None
  | Some (ip, p) =>
    match scan_frac p with
    | None => None
    | Some (fp, p) =>
      match scan_exp p with
      | None => None
      | Some (ep, rest) => Some (sign ++ ip ++ fp ++ ep, rest)
      end
    end
  end.

(** [m[k] = v] on a decoded object. *)
Fixpoint set_key (m : list (string * Value)) (k : string) (v : Value)
    : list (string * Value) :=
  match m with
  | [] => [(k, v)]
  | (k', v') :: m' => if String.eqb k' k then (k, v) :: m' else (k', v') :: set_key m' k v
  end.

Definition maxNestingDepth : Z := 10000.

Definition is_value_start (c : Z) : bool :=
  (c =? 123) || (c =? 91) || (c =? 34) || (c =? 45) || isDigit c
  || (c =? 116) || (c =? 102) || (c =? 110).

(** One value at the head of [p] (white space skipped by the caller); the
    members of an object after its opening brace, read into [m]; the
    elements of an array after its opening bracket, read into [items].
    Of two nested calls the inner one is on a shorter input, except that
    [scan_elements] may pass its input on unchanged: [2 * length p + 2]
    units of [fuel] are enough for an input [p]. *)
Fixpoint scan_value (fuel : nat) (depth : Z) (p : list Z) {struct fuel}
    : option (Value * list Z) :=
  match fuel with
  | O => None
  | S fuel' =>
    match p with
    | [] => None
    | c :: rest =>
      if c =? 123 then                       (* an object *)
        if maxNestingDepth <? depth + 1 then None
        else
          match skip_ws rest with
          | 125 :: rest' => Some (VObject [], rest')
          | _ => scan_members fuel' (depth + 1) rest []
          end
      else if c =? 91 then                   (* an array *)
        if maxNestingDepth <? depth + 1 then None
        else
          match skip_ws rest with
          | 93 :: rest' => Some (VArray [], rest')
          | _ => scan_elements fuel' (depth + 1) rest []
          end
      else if c =? 34 then                   (* a string *)
        match scan_string (S (length rest)) rest [] with
        | Some (str, rest') => Some (VString (of_bytes str), rest')
        | None => None
        end
      else if (c =? 45) || isDigit c then    (* a number *)
        match scan_number p with
        | Some (lit, rest') =>
            match strconv_ParseFloat (of_bytes lit) with
            | Some f => Some (VNumber f, rest')
            | None => None
            end
        | None => None
        end
      else if c =? 116 then
        if strings.has_prefix [116; 114; 117; 101] p
        then Some (VBool true, drop 4 p) else None
      else if c =? 102 then
        if strings.has_prefix [102; 97; 108; 115; 101] p
        then Some (VBool false, drop 5 p) else None
      else if c =? 110 then
        if strings.has_prefix [110; 117; 108; 108] p
        then Some (VNull, drop 4 p) else None
      else None
    end
  end
with scan_members (fuel : nat) (depth : Z) (p : list Z) (m : list (string * Value))
    {struct fuel} : option (Value * list Z) :=
  match fuel with
  | O => None
  | S fuel' =>
    match skip_ws p with
    | 34 :: p1 =>
      match scan_string (S (length p1)) p1 [] with
      | None => None
      | Some (k, p2) =>
        match skip_ws p2 with
        | 58 :: p3 =>
          match scan_value fuel' depth (skip_ws p3) with
          | None => None
          | Some (v, p4) =>
            let m := set_key m (of_bytes k) v in
            match skip_ws p4 with
            | 44 :: p5 => scan_members fuel' depth p5 m
            | 125 :: p5 => Some (VObject m, p5)
            | _ => None
            end
          end
        | _ => None
        end
      end
    | _ => None
    end
  end
with scan_elements (fuel : nat) (depth : Z) (p : list Z) (items : list Value)
    {struct fuel} : option (Value * list Z) :=
  match fuel with
  | O => None
  | S fuel' =>
    match scan_value fuel' depth (skip_ws p) with
    | None => None
    | Some (v, p1) =>
      let items := items ++ [v] in
      match skip_ws p1 with
      | 44 :: p2 => scan_elements fuel' depth p2 items
      | 93 :: p2 => Some (VArray items, p2)
      | _ => None
      end
    end
  end.

Definition Unmarshal (data : string) : outcome Value :=
  let p := bytes data in
  match scan_value (2 * length p + 2) 0 (skip_ws p) with
  | Some (v, rest) =>
      match skip_ws rest with
      | [] => Ok v
      | _ => Err (ErrJSON "invalid character after top-level value")
      end
  | None => Err (ErrJSON "invalid JSON")
  end.

End Decode.
End json.

(** The regular expression of [extractMarkdownJSON],
    [```(?:json|JSON)?\s*\n([\s\S]*?)```], read with package regexp's
    leftmost-first rules. *)
Module fence.

Definition tick : Z := 96.
Definition fence3 : list Z := [tick; tick; tick].

(** [\s] of package regexp: [\t\n\f\r ]. *)
Definition is_s (c : Z) : bool :=
  (c =? 9) || (c =? 10) || (c =? 12) || (c =? 13) || (c =? 32).

(** The position after the last newline of the run of [\s] bytes [p] starts
    with (the greedy [\s*] followed by [\n]); [i] counts the bytes passed and
    [last] is the best position so far. *)
Fixpoint after_last_newline (p : list Z) (i : nat) (last : option nat) : option nat :=
  match p with
  | c :: p' =>
      if is_s c then after_last_newline p' (S i) (if c =? 10 then Some (S i) else last)
      else last
  | [] => last
  end.

(** The first position at or after [i] where the closing fence stands. *)
Fixpoint find_fence (p : list Z) (i : nat) : option nat :=
  if strings.has_prefix fence3 p then Some i
  else match p with
       | [] => None
       | _ :: p' => find_fence p' (S i)
       end.

(** A match starting at the head of [p], which stands at offset [off]: the
    bounds of group 1 and the end of the match. *)
Definition match_here (p : list Z) (off : nat) : option (nat * nat * nat) :=
  if strings.has_prefix fence3 p then
    let q := drop 3 p in
    let tagged :=
      strings.has_prefix [106; 115; 111; 110] q || strings.has_prefix [74; 83; 79; 78] q in
    let q' := if tagged then drop 4 q else q in
    let off' := (if tagged then off + 7 else off + 3)%nat in
    match after_last_newline q' 0 None with
    | None => None
    | Some k =>
        let g := (off' + k)%nat in
        match find_fence (drop k q') g with
        | Some e => Some (g, e, (e + 3)%nat)
        | None => None
        end
    end
  else None.

(** [re.FindAllStringSubmatchIndex(input, -1)], as pairs
    [(match[2], match[3])]: successive leftmost matches, each search
    resuming where the previous match ended. *)
Fixpoint find_all (fuel : nat) (p : list Z) (off : nat) : list (nat * nat) :=
  match fuel with
  | O => []
  | S fuel' =>
    match p with
    | [] => []
    | _ :: p' =>
      match match_here p off with
      | Some (g, e, stop) => (g, e) :: find_all fuel' (drop (stop - off) p) stop
      | None => find_all fuel' p' (S off)
      end
    end
  end.

Definition FindAllStringSubmatchIndex (input : string) : list (nat * nat) :=
  find_all (S (length (bytes input))) (bytes input) 0.

End fence.

(** ** extractor.go *)

Section Orchestrator.
Context `{RT : GoRuntime}.

Record JSONCandidate := mkCandidate {
  JSON : string;
  Index : Z
}.

Definition isValidJSON (input : string) : bool :=
  match json.Unmarshal input with
  | Ok _ => true
  | _ => false
  end.

Definition extractMarkdownJSON (input : string) : list JSONCandidate :=
  flat_map (fun m =>
    let json := of_bytes (take (snd m - fst m) (drop (fst m) (bytes input))) in
    let json := strings.TrimSpace json in
    if nonempty json then [mkCandidate json (Z.of_nat (fst m))] else [])
    (fence.FindAllStringSubmatchIndex input).

(** The inner loop of [findJSONBlocks]: from [j], with the scanner state
    [depth], [inString], [escaped]; returns the final [depth] and [j]. *)
Fixpoint scan_block (fuel : nat) (rs : list rune) (openChar closeChar : rune)
    (j : nat) (depth : Z) (inStr escaped : bool) : Z * nat :=
  match fuel with
  | O => (depth, j)
  | S fuel' =>
    if (j <? length rs)%nat && (0 <? depth) then
      let ch := nth j rs 0 in
      if escaped then scan_block fuel' rs openChar closeChar (S j) depth inStr false
      else if ch =? 92 then scan_block fuel' rs openChar closeChar (S j) depth inStr true
      else if (ch =? 34) && negb escaped then
        scan_block fuel' rs openChar closeChar (S j) depth (negb inStr) escaped
      else
        let depth :=
          if negb inStr then
            if ch =? openChar then GoInt.add depth 1
            else if ch =? closeChar then GoInt.add depth (-1)
            else depth
          else depth in
        scan_block fuel' rs openChar closeChar (S j) depth inStr escaped
    else (depth, j)
  end.

Definition findJSONBlocks (input : string) (openChar closeChar : rune)
    : list JSONCandidate :=
  let rs := runes input in
  flat_map (fun i =>
    if nth i rs 0 =? openChar then
      let '(depth, j) := scan_block (length rs) rs openChar closeChar (S i) 1 false false in
      if depth =? 0 then
        [mkCandidate (string_of_runes (take (j - i) (drop i rs))) (Z.of_nat i)]
      else []
    else [])
    (seq 0 (length rs)).

Definition findJSONInText (input : string) : list JSONCandidate :=
  findJSONBlocks input 123 125 ++ findJSONBlocks input 91 93.

Definition ExtractJSON (input : string) : outcome (list JSONCandidate) :=
  let trimmed := strings.TrimSpace input in
  if isValidJSON trimmed then
    Ok [mkCandidate trimmed (strings.Index input trimmed)]
  else
    let candidates := extractMarkdownJSON input ++ findJSONInText input in
    if (length candidates =? 0)%nat then Err ErrNoJSON
    else Ok candidates.

(** ** sap.go: the orchestrator *)

(** The variables of the loop of [ParseWithScore]. *)
Record best := mkBest {
  bestResult : GoValue;
  bestScore : option Score;     (* [None] for the nil [*Score] *)
  bestErr : option error
}.

(** One round of [for _, candidate := range candidates]; [None] when the
    coercer panics. *)
Definition try_candidate (strict : bool) (targetType : GoType)
    (candidate : JSONCandidate) (b : best) (sd : Seed) : option best * Seed :=
  let coerce (rawValue : Value) :=
    match Coerce rawValue targetType sd with
    | (Ok res, candScore, sd') =>
        if match bestScore b with
           | None => true
           | Some bs => Less candScore bs
           end
        then (Some (mkBest res (Some candScore) None), sd')
        else (Some b, sd')
    | (Err err, _, sd') => (Some (mkBest (bestResult b) (bestScore b) (Some err)), sd')
    | (Panic _, _, sd') => (None, sd')
    end in
  match json.Unmarshal (JSON candidate) with
  | Ok rawValue => coerce rawValue
  | _ =>
      if strict then (Some b, sd)
      else
        match FixJSON (JSON candidate) with
        | Ok fixed =>
            match json.Unmarshal fixed with
            | Ok rawValue => coerce rawValue
            | Err err => (Some (mkBest (bestResult b) (bestScore b) (Some err)), sd)
            | Panic _ => (None, sd)
            end
        | Err fixErr => (Some (mkBest (bestResult b) (bestScore b) (Some fixErr)), sd)
        | Panic _ => (None, sd)
        end
  end.

Fixpoint candidates_loop (strict : bool) (targetType : GoType)
    (candidates : list JSONCandidate) (b : best) (sd : Seed) : option best * Seed :=
  match candidates with
  | [] => (Some b, sd)
  | candidate :: candidates' =>
      match try_candidate strict targetType candidate b sd with
      | (Some b', sd') => candidates_loop strict targetType candidates' b' sd'
      | (None, sd') => (None, sd')
      end
  end.

(** [(p *sapParser) ParseWithScore]; [strict] is [p.options.Strict]. *)
Definition ParseWithScore (strict : bool) (input : string) (targetType : GoType)
    (sd : Seed) : outcome (GoValue * Score) * Seed :=
  match ExtractJSON input with
  | Err err => (Err (ErrExtract err), sd)
  | Panic msg => (Panic msg, sd)
  | Ok candidates =>
      if (length candidates =? 0)%nat then (Err ErrNoJSON, sd)
      else
        match candidates_loop strict targetType candidates (mkBest GNil None None) sd with
        | (None, sd') => (Panic "reflect", sd')
        | (Some b, sd') =>
            match bestErr b, bestScore b with
            | None, Some sc => (Ok (bestResult b, sc), sd')
            | _, _ => (Err (ErrParse (bestErr b)), sd')
            end
        end
  end.

End Orchestrator.

(** ** A reference runtime

    An instance of [GoRuntime] on which the package can be run.  Numbers are
    read and rounded exactly as binary64 prescribes; the Unicode tables stop at
    U+00FF (above it no rune counts as a letter or a digit and case mapping
    is the identity), hexadecimal literals and digit separators are not read
    by [ParseFloat], [FormatFloat] prints integral values only, and a map
    iteration starts at the entry the seed points at and wraps around, as
    the runtime does inside a bucket. *)

Module RefRuntime.

Fixpoint digits_value (p : list Z) (acc : Z) : Z :=
  match p with
  | [] => acc
  | c :: p' => digits_value p' (acc * 10 + (c - 48))
  end.

Definition lower_byte (c : Z) : Z := if (65 <=? c) && (c <=? 90) then c + 32 else c.

Definition eq_fold (p : list Z) (word : string) : bool :=
  if decide (map lower_byte p = bytes word) then true else false.

(** A decimal literal: sign, mantissa digits (integer and fraction) and
    decimal exponent. *)
Definition read_decimal (p : list Z) : option (bool * Z * Z) :=
  let '(neg, p) :=
    match p with
    | 45 :: p' => (true, p')
    | 43 :: p' => (false, p')
    | _ => (false, p)
    end in
  let '(ip, p) := json.take_digits p in
  let '(fp, p) :=
    match p with
    | 46 :: p' => json.take_digits p'
    | _ => ([], p)
    end in
  if (length ip + length fp =? 0)%nat then None
  else
    let mant := digits_value (ip ++ fp) 0 in
    match p with
    | [] => Some (neg, mant, - Z.of_nat (length fp))
    | e :: p' =>
      if (e =? 101) || (e =? 69) then
        let '(eneg, p'') :=
          match p' with
          | 45 :: q => (true, q)
          | 43 :: q => (false, q)
          | _ => (false, p')
          end in
        match json.take_digits p'' with
        | ([], _) => None
        | (ds, []) =>
            let ex := digits_value ds 0 in
            Some (neg, mant, (if eneg then - ex else ex) - Z.of_nat (length fp))
        | (_, _ :: _) => None
        end
      else None
    end.

(** [mant * 10 ^ ex], rounded to the nearest binary64, ties to even. *)
Definition round_decimal (neg : bool) (mant ex : Z) : SpecFloat.spec_float :=
  match mant with
  | Zpos m =>
      if 0 <=? ex then
        match mant * 10 ^ ex with
        | Zpos n => SpecFloat.binary_round FloatOps.prec FloatOps.emax neg n 0
        | _ => SpecFloat.S754_zero neg
        end
      else
        match 10 ^ (- ex) with
        | Zpos d =>
            let '(q, e, l) :=
              SpecFloat.SFdiv_core_binary FloatOps.prec FloatOps.emax (Zpos m) 0 (Zpos d) 0 in
            SpecFloat.binary_round_aux FloatOps.prec FloatOps.emax neg q e l
        | _ => SpecFloat.S754_zero neg
        end
  | _ => SpecFloat.S754_zero neg
  end.

Definition ParseFloat (s : string) : option float :=
  let p := bytes s in
  if eq_fold p "inf" || eq_fold p "+inf" || eq_fold p "infinity" || eq_fold p "+infinity"
  then Some infinity
  else if eq_fold p "-inf" || eq_fold p "-infinity" then Some neg_infinity
  else if eq_fold p "nan" then Some nan
  else
    match read_decimal p with
    | None => None
    | Some (neg, mant, ex) =>
        match round_decimal neg mant ex with
        | SpecFloat.S754_infinity _ => None      (* out of range *)
        | sf => Some (SF2Prim sf)
        end
    end.

(** [int64(v)]: truncation toward zero; the most negative integer when [v]
    is out of range or not a number (as on amd64). *)
Definition int64_of_float64 (v : float) : Z :=
  match Prim2SF v with
  | SpecFloat.S754_zero _ => 0
  | SpecFloat.S754_finite sg m e =>
      let a := if 0 <=? e then Zpos m * 2 ^ e else Zpos m / 2 ^ (- e) in
      let n := if sg then - a else a in
      if (GoInt.MinInt64 <=? n) && (n <=? GoInt.MaxInt64) then n else GoInt.MinInt64
  | _ => GoInt.MinInt64
  end.

(** [float32(v)]: rounding to binary32. *)
Definition float32_of_float64 (v : float) : float :=
  match Prim2SF v with
  | SpecFloat.S754_finite sg m e => SF2Prim (SpecFloat.binary_round 24 128 sg m e)
  | _ => v
  end.

Definition FormatFloat (v : float) : string :=
  if PrimFloat.eqb v (float64_of_int64 (int64_of_float64 v))
  then strconv_FormatInt (int64_of_float64 v)
  else "?".

Definition IsLetter (r : rune) : bool :=
  ((65 <=? r) && (r <=? 90)) || ((97 <=? r) && (r <=? 122))
  || (r =? 0xAA) || (r =? 0xB5) || (r =? 0xBA)
  || ((0xC0 <=? r) && (r <=? 0xD6)) || ((0xD8 <=? r) && (r <=? 0xF6))
  || ((0xF8 <=? r) && (r <=? 0xFF)).

Definition IsDigit (r : rune) : bool := (48 <=? r) && (r <=? 57).

Definition ToLower (r : rune) : rune :=
  if ((65 <=? r) && (r <=? 90))
     || ((0xC0 <=? r) && (r <=? 0xDE) && negb (r =? 0xD7))
  then r + 32 else r.

Definition EqualFold (s t : string) : bool :=
  if decide (map ToLower (runes s) = map ToLower (runes t)) then true else false.

Fixpoint Sprint (v : Value) : string :=
  match v with
  | VNull => "<nil>"
  | VBool b => if b then "true" else "false"
  | VNumber f => FormatFloat f
  | VString s => s
  | VArray items =>
      "[" +:+ String.concat " " (map Sprint items) +:+ "]"
  | VObject m =>
      "map[" +:+ String.concat " " (map (fun kv => fst kv +:+ ":" +:+ Sprint (snd kv)) m) +:+ "]"
  | VInt _ n => strconv_FormatInt n
  end.

Definition mapiter (sd : Seed) (m : list (string * Value))
    : list (string * Value) * Seed :=
  let k := Z.to_nat (sd mod Z.max 1 (Z.of_nat (length m))) in
  (drop k m ++ take k m, sd + 1).

Lemma mapiter_perm sd m : Permutation (fst (mapiter sd m)) m.
Proof.
  unfold mapiter; cbn [fst].
  rewrite Permutation_app_comm. by rewrite take_drop.
Qed.

#[global] Instance runtime : GoRuntime :=
  Build_GoRuntime ParseFloat FormatFloat int64_of_float64 float32_of_float64
                  IsLetter IsDigit ToLower EqualFold Sprint mapiter mapiter_perm.

End RefRuntime.

(** ** The enum coercer: CoerceToEnum *)

Section EnumCoercer.
Context `{RT : GoRuntime}.

(** [fmt.Sprintf("%f", v)] *)
Variable fmt_Sprintf_f : float -> string.

(** [coerceValueToString]; [fmt.Sprintf("%d", int64(v))] is the decimal form
    of the integer. *)
Definition coerceValueToString (value : Value) : outcome string :=
  match value with
  | VString v => Ok v
  | VNumber v =>
      if PrimFloat.eqb v (float64_of_int64 (int64_of_float64 v))
      then Ok (strconv_FormatInt (int64_of_float64 v))
      else Ok (fmt_Sprintf_f v)
  | VBool v => Ok (if v then "true" else "false")
  | _ => Err (ErrConvert (typeOf value) "string")
  end.

(** [getEnumValues]: the labels of an enum type; the source returns none. *)
Definition getEnumValues (enumType : GoType) : list string := [].

(** [CoerceToEnum(value, enumType, score)] *)
Definition CoerceToEnum (value : Value) (enumType : GoType) : M GoValue :=
  match coerceValueToString value with
  | Err err => fail err
  | Panic msg => panic msg
  | Ok stringVal =>
      let enumValues := getEnumValues enumType in
      match find (fun ev => String.eqb ev stringVal) enumValues with
      | Some _ => ret (GString stringVal)
      | None =>
          let lowerVal := strings_ToLower stringVal in
          match find (fun ev => String.eqb (strings_ToLower ev) lowerVal) enumValues with
          | Some ev => addFlag "EnumCaseInsensitive" 1 ;; ret (GString ev)
          | None =>
              let bestMatch := fuzzyMatchEnum stringVal enumValues in
              if nonempty bestMatch
              then addFlag "EnumFuzzyMatch" 2 ;; ret (GString bestMatch)
              else ret (GString stringVal)
          end
      end
  end.

End EnumCoercer.

(** * The vocabulary of the properties *)

Section Vocabulary.
Context `{RT : GoRuntime}.

(** The string [parseNumber] works on, and the standard parse of it. *)
Definition stripped (s : string) : string :=
  strings.RemoveByte (strings.RemoveByte (strings.TrimSpace s) 36) 44.

Definition standard_parse (t : string) : outcome float :=
  match strconv_ParseFloat t with
  | Some f => Ok f
  | None => Err (ErrNum t)
  end.

(** [t] reads as the fraction [num / denom]: it is [a/b] with no other [/],
    both sides parse once surrounding white space is trimmed, and the
    denominator is not zero. *)
Definition is_fraction (t : string) (num denom : float) : Prop :=
  exists a b : string,
    t = a +:+ "/" +:+ b /\
    strings.ContainsByte a 47 = false /\ strings.ContainsByte b 47 = false /\
    strconv_ParseFloat (strings.TrimSpace a) = Some num /\
    strconv_ParseFloat (strings.TrimSpace b) = Some denom /\
    PrimFloat.eqb denom 0%float = false.

(** The step of the loop [for _, r := range results]. *)
Definition closer (best r : string * Z) : string * Z :=
  if snd r <? snd best then r else best.

(** [b], at index [i] of [l], is the earliest entry of [l] with the least
    score. *)
Definition earliest_least (l : list (string * Z)) (i : nat) (b : string * Z) : Prop :=
  l !! i = Some b /\
  (forall j r, l !! j = Some r -> snd b <= snd r) /\
  (forall j r, (j < i)%nat -> l !! j = Some r -> snd b < snd r).

(** The items [coerceToSlice] and [coerceToArray] walk over. *)
Definition slice_items (value : Value) : list Value :=
  match value with VArray v => v | _ => [value] end.

(** What one round of the loop over the fields does to [result]. *)
Definition field_round (mapVal : list (string * Value)) (field : StructField GoType)
    (i : nat) (res : list GoValue) : M (list GoValue) :=
  let* found := resolve_field mapVal field in
  if nonempty (fst found) then
    let* r := attempt (coerceValue (snd found) (FieldType field)) in
    match r with
    | inl _ => ret res
    | inr GNil => set_field field i (zeroValue (FieldType field)) res
    | inr elem => set_field field i elem res
    end
  else ret res.

(** The number of nodes of a decoded value (an object counts its keys) and of
    a type descriptor (a record counts its fields). *)
Fixpoint size_v (v : Value) : Z :=
  match v with
  | VArray items =>
      1 + (fix sum (l : list Value) : Z :=
             match l with [] => 0 | x :: l' => size_v x + sum l' end) items
  | VObject m =>
      1 + (fix sum (l : list (string * Value)) : Z :=
             match l with [] => 0 | (_, x) :: l' => 1 + size_v x + sum l' end) m
  | _ => 1
  end.

Fixpoint size_t (t : GoType) : Z :=
  match t with
  | TPtr e | TSlice e | TArray _ e => 1 + size_t e
  | TMap k e => 1 + size_t k + size_t e
  | TStruct fields =>
      1 + (fix sum (l : list (StructField GoType)) : Z :=
             match l with [] => 0 | f :: l' => 1 + size_t (FieldType f) + sum l' end) fields
  | _ => 1
  end.

Definition sum_items (l : list Value) : Z :=
  fold_right (fun x acc => size_v x + acc) 0 l.
Definition sum_entries (m : list (string * Value)) : Z :=
  fold_right (fun kv acc => 1 + size_v (snd kv) + acc) 0 m.
Definition sum_fields (fs : list (StructField GoType)) : Z :=
  fold_right (fun f acc => 1 + size_t (FieldType f) + acc) 0 fs.

(** The running total of the score in a state. *)
Definition tot (st : CState) : Z := total (score st).

(** [costs m b Q]: from a state whose total is in range, [m] adds to the
    total (on Go's [int]) some [d] between [0] and [b], and a value it
    returns satisfies [Q]. *)
Definition costs {A} (m : M A) (b : Z) (Q : A -> Prop) : Prop :=
  forall st, GoInt.in_range (tot st) ->
    exists d, 0 <= d <= b /\
      tot (snd (m st)) = GoInt.wrap 64 (tot st + d) /\
      forall a, fst (m st) = Ok a -> Q a.

Definition any {A} : A -> Prop := fun _ => True.

(** The bytes of [p] with ASCII white space removed from both ends. *)
Definition ascii_trim_bytes (p : list Z) : list Z :=
  rev (strings.drop_while strings.asciiSpace
         (rev (strings.drop_while strings.asciiSpace p))).

Definition ascii_trim (s : string) : string := of_bytes (ascii_trim_bytes (bytes s)).

(** The last byte of a JSON value. *)
Definition is_value_end (c : Z) : bool :=
  (c =? 125) || (c =? 93) || (c =? 34) || json.isDigit c || (c =? 101) || (c =? 108).

(** [lit] ends with a digit. *)
Definition ends_digit (lit : list Z) : Prop :=
  exists l, last lit = Some l /\ json.isDigit l = true.

(** [out] is what is left of [p] after a piece that ends with the last byte
    of a JSON value. *)
Definition value_ends_before (p out : list Z) : Prop :=
  exists l, is_value_end l = true /\ (l :: out) `suffix_of` p.

End Vocabulary.

(** ** Edit scripts

    The yardstick for [levenshteinDistance]: [lev a b] is the textbook
    recursion on the two sequences, and [script a b n] says that [a] is
    turned into [b] by deletions, insertions and substitutions that cost
    [n] together, each costing 1 (a rune kept as it is costs nothing). *)

Definition subst_cost (x y : rune) : nat := if x =? y then 0%nat else 1%nat.

Fixpoint lev (a : list rune) : list rune -> nat :=
  match a with
  | [] => fun b => length b
  | x :: a' =>
      fix lev_a (b : list rune) : nat :=
        match b with
        | [] => S (length a')
        | y :: b' =>
            Nat.min (Nat.min (S (lev a' b)) (S (lev_a b')))
                    (subst_cost x y + lev a' b')
        end
  end.

Inductive script : list rune -> list rune -> nat -> Prop :=
| script_nil : script [] [] 0
| script_delete x a b n : script a b n -> script (x :: a) b (S n)
| script_insert y a b n : script a b n -> script a (y :: b) (S n)
| script_subst x y a b n : script a b n -> script (x :: a) (y :: b) (subst_cost x y + n).

(** The two lengths leave room for the table of [levenshteinDistance] on
    Go's [int]. *)
Definition lengths_fit (s1 s2 : string) : Prop :=
  Z.of_nat (length (runes s1)) < GoInt.MaxInt64 /\
  Z.of_nat (length (runes s2)) < GoInt.MaxInt64.

(** The table [dp] has [rows] rows of [cols] cells. *)
Definition table_shape (dp : list (list Z)) (rows cols : nat) : Prop :=
  length dp = rows /\ Forall (fun row => length row = cols) dp.

(** What the cell [dp[i][j]] is to hold: the distance between the first [i]
    runes of [r1] and the first [j] runes of [r2]. *)
Definition prefix_distance (r1 r2 : list rune) (i j : nat) : Z :=
  Z.of_nat (lev (rev (take i r1)) (rev (take j r2))).

(** The rune that closes an open bracket of the repairer's stack. *)
Definition closing_rune (c : rune) : rune := if c =? 123 then 125 else 93.

(** ** The type of a result *)

(** [reflect.TypeOf(x)] on a value the coercer returns; none for nil. *)
Definition dynamic_type (x : GoValue) : option GoType :=
  match x with
  | GNil => None
  | GBool _ => Some TBool
  | GString _ => Some TString
  | GInt k _ => Some (TInt k)
  | GUint k _ => Some (TUint k)
  | GFloat k _ => Some (TFloat k)
  | GPtr e _ => Some (TPtr e)
  | GSlice e _ => Some (TSlice e)
  | GArray e items => Some (TArray (length items) e)
  | GMap k e _ => Some (TMap k e)
  | GStruct t _ => Some t
  | GZero t => Some t
  end.

(** ** The key a field reads *)

(** The name in a field's [json] tag: what stands before the first comma. *)
Definition tag_name (field : StructField GoType) : string :=
  match JsonTag field with
  | Some tag => hd "" (strings.SplitByte tag 44)
  | None => ""
  end.

(** The value the tag leads to in an object: the tag is to name a key, and
    to be neither empty nor [-]. *)
Definition tag_value (mapVal : list (string * Value)) (field : StructField GoType)
    : option Value :=
  if nonempty (tag_name field) && negb (String.eqb (tag_name field) "-")
  then lookup_key mapVal (tag_name field)
  else None.

(** ** The orchestrator, one candidate at a time *)

Section OrchestratorVocabulary.
Context `{RT : GoRuntime}.

(** A candidate gives [raw] when it decodes to it as it stands or, outside
    strict mode, after the repairer went over it. *)
Definition decodes_to (strict : bool) (c : JSONCandidate) (raw : Value) : Prop :=
  json.Unmarshal (JSON c) = Ok raw \/
  (strict = false /\ (forall v, json.Unmarshal (JSON c) ≠ Ok v) /\
   exists fixed, FixJSON (JSON c) = Ok fixed /\ json.Unmarshal fixed = Ok raw).

(** The best result kept so far is the coercion of a candidate met so far. *)
Definition best_sound (strict : bool) (t : GoType) (cs : list JSONCandidate)
    (b : best) : Prop :=
  forall sc, bestScore b = Some sc ->
    exists c raw sd1 sd2,
      c ∈ cs /\ decodes_to strict c raw /\
      Coerce raw t sd1 = (Ok (bestResult b), sc, sd2).

(** What a round of the loop of [ParseWithScore] makes of its candidate,
    the best result so far left aside: a coerced value with its score, an
    error to record, nothing (strict mode passing over a text that does not
    decode), or a panic of the coercer. *)
Inductive attempt_result :=
| Coerced (res : GoValue) (sc : Score)
| Failed (err : error)
| Skipped
| Panicked.

Definition attempt_candidate (strict : bool) (targetType : GoType)
    (candidate : JSONCandidate) (sd : Seed) : attempt_result * Seed :=
  let coerce (rawValue : Value) :=
    match Coerce rawValue targetType sd with
    | (Ok res, candScore, sd') => (Coerced res candScore, sd')
    | (Err err, _, sd') => (Failed err, sd')
    | (Panic _, _, sd') => (Panicked, sd')
    end in
  match json.Unmarshal (JSON candidate) with
  | Ok rawValue => coerce rawValue
  | _ =>
      if strict then (Skipped, sd)
      else
        match FixJSON (JSON candidate) with
        | Ok fixed =>
            match json.Unmarshal fixed with
            | Ok rawValue => coerce rawValue
            | Err err => (Failed err, sd)
            | Panic _ => (Panicked, sd)
            end
        | Err fixErr => (Failed fixErr, sd)
        | Panic _ => (Panicked, sd)
        end
  end.

(** The candidates one after the other, each from the seed the one before
    left. *)
Fixpoint attempts (strict : bool) (targetType : GoType)
    (candidates : list JSONCandidate) (sd : Seed) : list attempt_result * Seed :=
  match candidates with
  | [] => ([], sd)
  | candidate :: candidates' =>
      let '(r, sd1) := attempt_candidate strict targetType candidate sd in
      let '(rs, sd2) := attempts strict targetType candidates' sd1 in
      (r :: rs, sd2)
  end.

(** [b] holds the earliest of the coerced results of [rs] that has the least
    total, and no error; it holds no score when [rs] has no coerced result. *)
Definition best_of (rs : list attempt_result) (b : best) : Prop :=
  bestErr b = None /\
  match bestScore b with
  | None => forall j res sc, rs !! j ≠ Some (Coerced res sc)
  | Some sc =>
      exists i,
        rs !! i = Some (Coerced (bestResult b) sc) /\
        (forall j res' sc', rs !! j = Some (Coerced res' sc') -> Total sc <= Total sc') /\
        (forall j res' sc', (j < i)%nat -> rs !! j = Some (Coerced res' sc') ->
           Total sc < Total sc')
  end.

End OrchestratorVocabulary.

(** ** Sample values *)

(** Test texts are written with ' for the double quote. *)
Definition requote (s : string) : string :=
  of_bytes (map (fun b => if b =? 39 then 34 else b) (bytes s)).

Definition nl : string := of_bytes [10].

(** Two spaces, the object with the one member a: [true, null], a space and
    a line feed. *)
Definition padded_object : string :=
  of_bytes [32; 32; 123; 34; 97; 34; 58; 91; 116; 114; 117; 101; 44; 110;
            117; 108; 108; 93; 125; 32; 10].

(** [type Project struct] of the package's tests. *)
Definition Project : GoType :=
  TStruct [mkField "Title" "" (Some "title") TString;
           mkField "Status" "" (Some "status") TString;
           mkField "Tasks" "" (Some "tasks") (TSlice TString);
           mkField "Priority" "" (Some "priority,omitempty") (TPtr (TInt KInt))].

(** The input of [TestFailedCandidateAfterSuccess]: a fenced block that
    holds one object with an array inside. *)
Definition fenced_project : string :=
  requote ("```json" +:+ nl +:+
           "{" +:+ nl +:+
           "  'title': 'Important Project'," +:+ nl +:+
           "  'status': 'in_progress'," +:+ nl +:+
           "  'tasks': ['task1', 'task2', 'task3']" +:+ nl +:+
           "}" +:+ nl +:+ "```").

Definition project_object : string :=
  requote ("{" +:+ nl +:+
           "  'title': 'Important Project'," +:+ nl +:+
           "  'status': 'in_progress'," +:+ nl +:+
           "  'tasks': ['task1', 'task2', 'task3']" +:+ nl +:+
           "}").

Definition project_value : GoValue :=
  GStruct Project
    [GString "Important Project"; GString "in_progress";
     GSlice TString (Some [GString "task1"; GString "task2"; GString "task3"]);
     GPtr (TInt KInt) None].

(** [type Named struct { Name string }] and [type Flagged struct { On bool }]:
    records whose one field carries no tag. *)
Definition Named : GoType := TStruct [mkField "Name" "" None TString].
Definition Flagged : GoType := TStruct [mkField "On" "" None TBool].

Definition two_spellings : string := requote "{'NAME':'a','nAME':'b'}".
Definition two_flags : string := requote "{'ON':true,'oN':'yes'}".

Definition open_object : string := requote "{'a':'x:y'".
Definition closed_object : string := requote "{'a':'x:y'}".
Definition requoted_object : string := requote "{'a':'x: 'y''}".

(** An object whose key stands without quotes. *)
Definition bare_key_object : string := "{a: true}".

(** A string between single quotes with double quotes inside: 'say "hi"'. *)
Definition quoted_greeting : string :=
  of_bytes [39; 115; 97; 121; 32; 34; 104; 105; 34; 39].

(** Two objects with some text between them. *)
Definition two_objects : string := requote "{'On':'yes'} x {'On':true}".

(** * Properties *)

(** ** Machine integers *)

Lemma wrap_id z : GoInt.in_range z -> GoInt.wrap 64 z = z.
Proof.
  unfold GoInt.in_range, GoInt.MinInt64, GoInt.MaxInt64, GoInt.wrap. intros Hz.
  rewrite Z.mod_small; lia.
Qed.

Lemma wrap_range z : GoInt.in_range (GoInt.wrap 64 z).
Proof.
  unfold GoInt.in_range, GoInt.MinInt64, GoInt.MaxInt64, GoInt.wrap.
  pose proof (Z.mod_pos_bound (z + 2 ^ (64 - 1)) (2 ^ 64) ltac:(lia)). lia.
Qed.

Lemma add_exact a b : GoInt.in_range (a + b) -> GoInt.add a b = a + b.
Proof. apply wrap_id. Qed.

(** ** Bytes and strings *)

Lemma ascii_of_byte_of c : ascii_of_byte (byte_of c) = c.
Proof. unfold ascii_of_byte, byte_of. rewrite N2Z.id. apply ascii_N_embedding. Qed.

Lemma of_bytes_bytes s : of_bytes (bytes s) = s.
Proof.
  unfold of_bytes, bytes. rewrite map_map.
  rewrite (map_ext _ (fun c => c)) by apply ascii_of_byte_of.
  rewrite map_id. apply string_of_list_ascii_of_string.
Qed.

Lemma bytes_app s t : bytes (s +:+ t) = bytes s ++ bytes t.
Proof.
  unfold bytes. induction s as [|c s IH]; simpl; [done|]. by rewrite IH.
Qed.

Lemma of_bytes_app p q : of_bytes (p ++ q) = of_bytes p +:+ of_bytes q.
Proof.
  unfold of_bytes. induction p as [|c p IH]; simpl; [done|]. by rewrite IH.
Qed.

Lemma byte_of_range c : 0 <= byte_of c < 256.
Proof.
  unfold byte_of. pose proof (N_ascii_bounded c) as H. lia.
Qed.

Lemma byte_of_ascii_of b : 0 <= b < 256 -> byte_of (ascii_of_byte b) = b.
Proof.
  intros Hb. unfold byte_of, ascii_of_byte.
  rewrite N_ascii_embedding by lia. lia.
Qed.

Lemma bytes_of_bytes p : Forall (fun b => 0 <= b < 256) p -> bytes (of_bytes p) = p.
Proof.
  unfold bytes, of_bytes. rewrite list_ascii_of_string_of_list_ascii.
  induction 1 as [|b p Hb _ IH]; simpl; [done|].
  by rewrite byte_of_ascii_of, IH.
Qed.

Lemma bytes_range s : Forall (fun b => 0 <= b < 256) (bytes s).
Proof.
  unfold bytes. induction (list_ascii_of_string s) as [|c l IH]; simpl.
  - constructor.
  - constructor; [apply byte_of_range | exact IH].
Qed.

Lemma bytes_inj s t : bytes s = bytes t -> s = t.
Proof. intros H. by rewrite <- (of_bytes_bytes s), <- (of_bytes_bytes t), H. Qed.

Lemma len_bytes s : len s = Z.of_nat (length (bytes s)).
Proof.
  unfold len, bytes. rewrite length_map. f_equal.
  induction s as [|c s IH]; simpl; [done|]. by rewrite IH.
Qed.

(** ** Score *)

Lemma AddFlag_flag s f d : flag_of (AddFlag s f d) f = Some d.
Proof. unfold flag_of, AddFlag; simpl. apply lookup_insert_eq. Qed.

Lemma AddFlag_other s f g d : f ≠ g -> flag_of (AddFlag s f d) g = flag_of s g.
Proof.
  intros Hne. unfold flag_of, AddFlag; simpl.
  rewrite lookup_insert_ne by done. destruct (flags s); [done | apply lookup_empty].
Qed.

Lemma AddFlag_total s f d : Total (AddFlag s f d) = GoInt.add (Total s) d.
Proof. reflexivity. Qed.

(** C10. [AddFlag f d] overwrites the per-flag entry of [f] with [d] (whatever
    was recorded before) and leaves the other entries alone, while the running
    total grows by [d] (on Go's 64-bit [int]).  Two calls [AddFlag f 1] on a
    fresh score therefore give [Total = 2] with only [1] recorded for [f]:
    the total exceeds the sum of the recorded per-flag values. *)
Theorem AddFlag_overwrites_flag_accumulates_total :
  (forall (s : Score) (f : string) (d : Z),
      flag_of (AddFlag s f d) f = Some d /\
      (forall g, f ≠ g -> flag_of (AddFlag s f d) g = flag_of s g) /\
      Total (AddFlag s f d) = GoInt.add (Total s) d) /\
  (forall (fl : option (gmap string Z)) (f : string),
      let s2 := AddFlag (AddFlag (mkScore fl 0) f 1) f 1 in
      Total s2 = 2 /\ flag_of s2 f = Some 1) /\
  (forall (f : string),
      let s2 := AddFlag (AddFlag (mkScore (Some ∅) 0) f 1) f 1 in
      flags s2 = Some {[ f := 1 ]} /\
      map_fold (fun _ v acc => v + acc) 0 (default ∅ (flags s2)) = 1 /\
      Total s2 = 2).
Proof.
  split; [|split].
  - intros s f d. split; [apply AddFlag_flag|]. split; [|apply AddFlag_total].
    intros g Hg. by apply AddFlag_other.
  - intros fl f. cbn zeta. split; [reflexivity | apply AddFlag_flag].
  - intros f. cbn zeta. unfold AddFlag; cbn [flags total Total].
    rewrite insert_insert_eq, insert_empty.
    split; [reflexivity|]. split; [|reflexivity].
    cbv [default from_option id]. by rewrite map_fold_singleton.
Qed.

(** ** coercer.go: parseNumber *)

Section ParseNumberProps.
Context `{RT : GoRuntime}.

Lemma split_bytes_nonempty c acc p : strings.split_bytes c acc p ≠ [].
Proof.
  revert acc. induction p as [|b p IH]; intros acc; simpl; [done|].
  destruct (b =? c); [done | apply IH].
Qed.

Lemma split_bytes_no_sep c acc p :
  c ∉ p -> strings.split_bytes c acc p = [acc ++ p].
Proof.
  revert acc. induction p as [|b p IH]; intros acc Hc; simpl.
  - by rewrite app_nil_r.
  - apply not_elem_of_cons in Hc as [Hne Hc].
    destruct (Z.eqb_spec b c) as [->|_]; [done|].
    rewrite IH by done. by rewrite <- app_assoc.
Qed.

Lemma split_bytes_sep c acc a b :
  c ∉ a ->
  strings.split_bytes c acc (a ++ c :: b) = (acc ++ a) :: strings.split_bytes c [] b.
Proof.
  revert acc. induction a as [|x a IH]; intros acc Hc; simpl.
  - rewrite Z.eqb_refl. by rewrite app_nil_r.
  - apply not_elem_of_cons in Hc as [Hne Hc].
    destruct (Z.eqb_spec x c) as [->|_]; [done|].
    rewrite IH by done. by rewrite <- app_assoc.
Qed.

Lemma split_bytes_one c acc p y :
  strings.split_bytes c acc p = [y] -> (c ∉ p) /\ y = (acc ++ p).
Proof.
  revert acc. induction p as [|b p IH]; intros acc; simpl.
  - intros [= <-]. split; [apply not_elem_of_nil | by rewrite app_nil_r].
  - destruct (Z.eqb_spec b c) as [->|Hne].
    + intros [= _ H]. by apply split_bytes_nonempty in H.
    + intros H. apply IH in H as [Hc ->]. split.
      * apply not_elem_of_cons. split; [congruence | done].
      * by rewrite <- app_assoc.
Qed.

Lemma split_bytes_two c acc p x y :
  strings.split_bytes c acc p = [x; y] ->
  exists a b, p = a ++ c :: b /\ x = (acc ++ a) /\ y = b /\ (c ∉ a) /\ (c ∉ b).
Proof.
  revert acc. induction p as [|b0 p IH]; intros acc; simpl; [done|].
  destruct (Z.eqb_spec b0 c) as [->|Hne].
  - intros [= <- H]. apply split_bytes_one in H as [Hc ->].
    exists [], p. rewrite app_nil_r. repeat split; [apply not_elem_of_nil | done].
  - intros H. apply IH in H as (a & b & -> & -> & -> & Ha & Hb).
    exists (b0 :: a), b. rewrite <- app_assoc. repeat split; [|done].
    apply not_elem_of_cons. split; [congruence | done].
Qed.

Lemma ContainsByte_false s c : strings.ContainsByte s c = false <-> c ∉ bytes s.
Proof.
  unfold strings.ContainsByte. induction (bytes s) as [|b p IH]; simpl.
  - split; [intros _; apply not_elem_of_nil | done].
  - rewrite orb_false_iff, IH, not_elem_of_cons, Z.eqb_neq. tauto.
Qed.

Lemma ContainsByte_true_sep s a b c :
  bytes s = a ++ c :: b -> strings.ContainsByte s c = true.
Proof.
  intros E. unfold strings.ContainsByte. rewrite E, existsb_app. simpl.
  rewrite Z.eqb_refl. by rewrite orb_true_r.
Qed.

(** C7 (amended). [parseNumber] first trims surrounding white space and then
    strips [$] and [,].  If what is left has exactly one [/] and both sides,
    trimmed of white space, parse as floats with a nonzero denominator, the
    result is numerator divided by denominator; in every other case the
    result is the standard floating-point parse of the trimmed and stripped
    string, an error exactly when that parse fails. *)
Theorem parseNumber_trims_then_fraction_or_float (s : string) :
  (forall num denom,
      is_fraction (stripped s) num denom -> parseNumber s = Ok (num / denom)%float) /\
  ((forall num denom, ~ is_fraction (stripped s) num denom) ->
      parseNumber s = standard_parse (stripped s)).
Proof.
  unfold parseNumber. fold (stripped s). fold (standard_parse (stripped s)).
  set (t := stripped s). split.
  - intros num denom (a & b & Ht & Ha & Hb & Hnum & Hden & Hnz).
    assert (Hbytes : bytes t = bytes a ++ 47 :: bytes b).
    { rewrite Ht, !bytes_app. reflexivity. }
    rewrite (ContainsByte_true_sep _ _ _ _ Hbytes).
    unfold strings.SplitByte. rewrite Hbytes.
    rewrite split_bytes_sep by (by apply ContainsByte_false).
    rewrite split_bytes_no_sep by (by apply ContainsByte_false).
    cbn [map app]. rewrite !of_bytes_bytes, Hnum, Hden, Hnz. reflexivity.
  - intros Hno.
    destruct (strings.ContainsByte t 47); [|reflexivity].
    unfold strings.SplitByte.
    destruct (strings.split_bytes 47 [] (bytes t)) as [|x [|y [|z l]]] eqn:E;
      cbn [map]; try reflexivity.
    apply split_bytes_two in E as (a & b & Hbytes & -> & -> & Ha & Hb).
    cbn [app].
    destruct (strconv_ParseFloat (strings.TrimSpace (of_bytes a))) as [num|] eqn:Hnum;
      [|reflexivity].
    destruct (strconv_ParseFloat (strings.TrimSpace (of_bytes b))) as [denom|] eqn:Hden;
      [|reflexivity].
    destruct (PrimFloat.eqb denom 0) eqn:Hnz; [reflexivity|].
    exfalso. apply (Hno num denom). exists (of_bytes a), (of_bytes b).
    pose proof (bytes_range t) as Hr. rewrite Hbytes in Hr.
    apply Forall_app in Hr as [Hra Hrb]. apply Forall_cons in Hrb as [_ Hrb].
    repeat split; try done.
    + apply bytes_inj. rewrite !bytes_app, !bytes_of_bytes by done. exact Hbytes.
    + apply ContainsByte_false. by rewrite bytes_of_bytes.
    + apply ContainsByte_false. by rewrite bytes_of_bytes.
Qed.

End ParseNumberProps.

(** C7, as stated, fails on the reference runtime: ["1 / 4"], which has no
    white space around it, parses to 0.25 although neither ["1 "] nor
    [" 4"] is a float for the standard parse; the code trims the two sides.
    It trims the whole string first as well. *)
Lemma parseNumber_as_specified_counterexample :
  ~ (forall s, parseNumber (RT := RefRuntime.runtime) s
               = parseNumber_as_specified (RT := RefRuntime.runtime) s).
Proof.
  intros H. specialize (H "1 / 4"). vm_compute in H. discriminate H.
Qed.

Example parseNumber_spaced_fraction :
  parseNumber (RT := RefRuntime.runtime) "1 / 4" = Ok 0.25%float /\
  parseNumber_as_specified (RT := RefRuntime.runtime) "1 / 4" = Err (ErrNum "1 / 4").
Proof. split; vm_compute; reflexivity. Qed.

Example parseNumber_leading_space :
  parseNumber (RT := RefRuntime.runtime) " 5" = Ok 5%float /\
  parseNumber_as_specified (RT := RefRuntime.runtime) " 5" = Err (ErrNum " 5").
Proof. split; vm_compute; reflexivity. Qed.

(** ** The enum coercer: fuzzyMatchEnum *)

Section EnumProps.
Context `{RT : GoRuntime}.

Lemma lookup_map {A B} (f : A -> B) (l : list A) (i : nat) :
  map f l !! i = f <$> (l !! i).
Proof.
  revert i. induction l as [|x l IH]; intros [|i]; simpl; done.
Qed.

Lemma fold_closer_earliest_least (l pre : list (string * Z)) (i : nat) (b : string * Z) :
  earliest_least pre i b ->
  exists i', earliest_least (pre ++ l) i' (fold_left closer l b).
Proof.
  revert pre i b. induction l as [|r l IH]; intros pre i b (Hi & Hmin & Hfirst).
  - exists i. rewrite app_nil_r. done.
  - cbn [fold_left]. replace (pre ++ r :: l) with ((pre ++ [r]) ++ l)
      by (by rewrite <- app_assoc).
    assert (Hlen : (i < length pre)%nat) by (by eapply lookup_lt_Some).
    unfold closer at 2. destruct (Z.ltb_spec (snd r) (snd b)) as [Hlt|Hge].
    + apply (IH _ (length pre)). repeat split.
      * rewrite lookup_app_r by lia. by rewrite Nat.sub_diag.
      * intros j r' Hj. destruct (decide (j < length pre)%nat) as [Hjl|Hjl].
        -- rewrite lookup_app_l in Hj by done. specialize (Hmin _ _ Hj). lia.
        -- rewrite lookup_app_r in Hj by lia.
           destruct (j - length pre)%nat; simpl in Hj; [|done].
           injection Hj as <-. lia.
      * intros j r' Hjl Hj. rewrite lookup_app_l in Hj by done.
        specialize (Hmin _ _ Hj). lia.
    + apply (IH _ i). repeat split.
      * by rewrite lookup_app_l.
      * intros j r' Hj. destruct (decide (j < length pre)%nat) as [Hjl|Hjl].
        -- rewrite lookup_app_l in Hj by done. by eapply Hmin.
        -- rewrite lookup_app_r in Hj by lia.
           destruct (j - length pre)%nat; simpl in Hj; [|done].
           injection Hj as <-. lia.
      * intros j r' Hjl Hj. rewrite lookup_app_l in Hj by lia. by eapply Hfirst.
Qed.

End EnumProps.

Example fuzzyMatchEnum_cancelled :
  fuzzyMatchEnum (RT := RefRuntime.runtime) "Cancelled" ["Active"; "Canceled"; "Pending"]
  = "Canceled" /\
  fuzzyMatchEnum (RT := RefRuntime.runtime) "zzzzzzzzzzzz" ["a"; "b"] = "".
Proof. split; vm_compute; reflexivity. Qed.

(** ** coercer.go: sequences and records *)

Section CoercerProps.
Context `{RT : GoRuntime}.

Lemma bind_Ok {A B} (m : M A) (k : A -> M B) st a st' :
  m st = (Ok a, st') -> bind m k st = k a st'.
Proof. intros H. unfold bind. by rewrite H. Qed.

Lemma bind_Err {A B} (m : M A) (k : A -> M B) st e st' :
  m st = (Err e, st') -> bind m k st = (Err e, st').
Proof. intros H. unfold bind. by rewrite H. Qed.

Lemma bind_Panic {A B} (m : M A) (k : A -> M B) st msg st' :
  m st = (Panic msg, st') -> bind m k st = (Panic msg, st').
Proof. intros H. unfold bind. by rewrite H. Qed.

Lemma bind_Ok_inv {A B} (m : M A) (k : A -> M B) st b st'' :
  bind m k st = (Ok b, st'') ->
  exists a st', m st = (Ok a, st') /\ k a st' = (Ok b, st'').
Proof.
  unfold bind. destruct (m st) as [[a|e|msg] st']; [eauto | done | done].
Qed.

Lemma reflect_Set_Ok_inv elem x st st' :
  reflect_Set elem st = (Ok x, st') -> x = elem /\ st' = st /\ elem ≠ GNil.
Proof.
  destruct elem; cbn; intros [= <- <-]; done.
Qed.

Lemma reflect_Set_Ok elem st : elem ≠ GNil -> reflect_Set elem st = (Ok elem, st).
Proof. destruct elem; done. Qed.

Lemma coerce_items_app f pre l i res st res1 st1 :
  coerce_items f pre i res st = (Ok res1, st1) ->
  coerce_items f (pre ++ l) i res st = coerce_items f l (i + length pre) res1 st1.
Proof.
  revert i res st. induction pre as [|x pre IH]; intros i res st H.
  - cbn in H. injection H as <- <-. cbn. by rewrite Nat.add_0_r.
  - cbn [app coerce_items] in *.
    apply bind_Ok_inv in H as (a & st2 & Hx & H).
    apply bind_Ok_inv in H as (a' & st3 & Hset & H).
    rewrite (bind_Ok _ _ _ _ _ Hx), (bind_Ok _ _ _ _ _ Hset).
    rewrite (IH _ _ _ H). f_equal. cbn [length]. lia.
Qed.

Lemma coerceValue_interface_Ok v st : coerceValue v TInterface st = (Ok (toGo v), st).
Proof. destruct v; reflexivity. Qed.

Lemma coerceValue_null t st : coerceValue VNull t st = (Ok GNil, st).
Proof. destruct t; reflexivity. Qed.

Lemma GoType_eqb_interface t : GoType_eqb TInterface t = true -> t = TInterface.
Proof. destruct t; cbn; done. Qed.

(** On a slice type, [coerceValue] is [coerceToSlice] unless it returns the
    value as it is (a nil value, or a [[]interface{}] for a
    [[]interface{}]). *)
Lemma coerceValue_slice value elemType st :
  coerceValue value (TSlice elemType) st =
    match value with
    | VNull => (Ok GNil, st)
    | _ =>
      if type_matches (typeOf value) (TSlice elemType) then (Ok (toGo value), st)
      else coerceToSlice (fun v => coerceValue v elemType) value elemType st
    end.
Proof.
  destruct value; cbn [coerceValue]; try reflexivity;
    destruct (type_matches _ _); reflexivity.
Qed.


Lemma coerce_items_Ok_inv f items i res st res' st' :
  coerce_items f items i res st = (Ok res', st') ->
  forall pre x post st1 res1,
    items = pre ++ x :: post ->
    coerce_items f pre i res st = (Ok res1, st1) ->
    exists a st2, f x st1 = (Ok a, st2) /\ a ≠ GNil.
Proof.
  intros H pre x post st1 res1 -> Hpre.
  rewrite (coerce_items_app _ _ _ _ _ _ _ _ Hpre) in H. cbn [coerce_items] in H.
  apply bind_Ok_inv in H as (a & st2 & Hx & H).
  apply bind_Ok_inv in H as (a' & st3 & Hset & _).
  apply reflect_Set_Ok_inv in Hset as (_ & _ & Hnil). eauto.
Qed.

(** ** Records *)

Lemma resolve_field_Ok mapVal field st :
  exists found st', resolve_field mapVal field st = (Ok found, st').
Proof.
  unfold resolve_field.
  match goal with |- context [String.eqb ?a ""] => destruct (String.eqb a "") end;
    [|unfold ret; eauto].
  unfold bind, range. destruct (mapiter (seed st) mapVal) as [es sd].
  destruct (find _ es) as [[k v]|]; cbn; eauto.
Qed.

Lemma set_field_inv field i x res st r st' :
  set_field field i x res st = (r, st') ->
  st' = st /\ (r = Ok (<[i := x]> res) \/ exists msg, r = Panic msg).
Proof.
  unfold set_field. destruct (nonempty (PkgPath field)); cbn; intros [= <- <-]; eauto.
Qed.

Lemma coerce_fields_cons mapVal field fields i res st :
  coerce_fields coerceValue mapVal (field :: fields) i res st =
    (let* res := field_round mapVal field i res in
     coerce_fields coerceValue mapVal fields (S i) res) st.
Proof.
  cbn [coerce_fields]. unfold field_round, bind.
  destruct (resolve_field mapVal field st) as [[found|e|msg] st1]; try reflexivity.
Qed.

Lemma field_round_inv mapVal field i res st r st' :
  field_round mapVal field i res st = (r, st') ->
  (r = Ok res \/ (exists x, r = Ok (<[i := x]> res)) \/ exists msg, r = Panic msg).
Proof.
  unfold field_round.
  destruct (resolve_field_Ok mapVal field st) as (found & st1 & Hres).
  rewrite (bind_Ok _ _ _ _ _ Hres).
  destruct (nonempty (fst found)); [|cbn; intros [= <- <-]; eauto].
  unfold bind at 1, attempt.
  destruct (coerceValue (snd found) (FieldType field) st1) as [[a|e|msg] st2].
  - destruct a; intros H; apply set_field_inv in H as [_ [-> | [msg ->]]]; eauto.
  - cbn. intros [= <- <-]; eauto.
  - intros [= <- <-]; eauto.
Qed.

Lemma coerce_fields_never_Err mapVal fields i res st e :
  fst (coerce_fields coerceValue mapVal fields i res st) ≠ Err e.
Proof.
  revert i res st. induction fields as [|f fs IH]; intros i res st; [done|].
  rewrite coerce_fields_cons. unfold bind.
  destruct (field_round mapVal f i res st) as [r st1] eqn:Hr.
  apply field_round_inv in Hr as [-> | [[x ->] | [msg ->]]]; [apply IH | apply IH | done].
Qed.

Lemma coerce_fields_app mapVal fs1 fs2 i res st res1 st1 :
  coerce_fields coerceValue mapVal fs1 i res st = (Ok res1, st1) ->
  coerce_fields coerceValue mapVal (fs1 ++ fs2) i res st
  = coerce_fields coerceValue mapVal fs2 (i + length fs1) res1 st1.
Proof.
  revert i res st. induction fs1 as [|f fs1 IH]; intros i res st H.
  - cbn in H. injection H as <- <-. cbn. by rewrite Nat.add_0_r.
  - cbn [app]. rewrite coerce_fields_cons in *.
    apply bind_Ok_inv in H as (r & st2 & Hf & H).
    rewrite (bind_Ok _ _ _ _ _ Hf), (IH _ _ _ H). f_equal. cbn [length]. lia.
Qed.

(** The loop over [fields], entered at index [i], leaves every other slot of
    [result] as it found it. *)
Lemma coerce_fields_frame mapVal fields i res st res' st' :
  coerce_fields coerceValue mapVal fields i res st = (Ok res', st') ->
  forall j, (j < i \/ i + length fields <= j)%nat -> res' !! j = res !! j.
Proof.
  revert i res st. induction fields as [|f fs IH]; intros i res st H j Hj.
  - cbn in H. by injection H as <- <-.
  - rewrite coerce_fields_cons in H.
    apply bind_Ok_inv in H as (r & st2 & Hf & H).
    rewrite (IH _ _ _ H) by (cbn [length] in Hj; lia).
    apply field_round_inv in Hf as [[= ->] | [[x [= ->]] | [msg [=]]]]; [done|].
    apply list_lookup_insert_ne. cbn [length] in Hj. lia.
Qed.

Lemma coerceValue_struct mapVal fields st :
  coerceValue (VObject mapVal) (TStruct fields) st =
    (let* result := coerce_fields coerceValue mapVal fields 0
                      (map (fun f => zeroValue (FieldType f)) fields) in
     ret (GStruct (TStruct fields) result)) st.
Proof. reflexivity. Qed.

(** C8. Coercing an object to a record type never returns an error.  When
    the value a field resolves to fails to coerce (the fields before it
    having been handled), the coercion goes on with the remaining fields
    from the state the failure left, the partial result untouched; in the
    record finally returned that field holds the zero value of its type. *)
Theorem coerceToStruct_skips_failing_field
    (mapVal : list (string * Value)) (fields : list (StructField GoType)) (st : CState) :
  (forall e, fst (coerceValue (VObject mapVal) (TStruct fields) st) ≠ Err e) /\
  (forall fs1 f fs2 res1 st1 k v st2 e st3,
     fields = fs1 ++ f :: fs2 ->
     coerce_fields coerceValue mapVal fs1 0
       (map (fun f => zeroValue (FieldType f)) fields) st = (Ok res1, st1) ->
     resolve_field mapVal f st1 = (Ok (k, v), st2) -> k ≠ "" ->
     coerceValue v (FieldType f) st2 = (Err e, st3) ->
     coerceValue (VObject mapVal) (TStruct fields) st =
       (let* result := coerce_fields coerceValue mapVal fs2 (S (length fs1)) res1 in
        ret (GStruct (TStruct fields) result)) st3 /\
     forall res st',
       coerceValue (VObject mapVal) (TStruct fields) st
         = (Ok (GStruct (TStruct fields) res), st') ->
       res !! length fs1 = Some (zeroValue (FieldType f))).
Proof.
  split.
  - intros e. rewrite coerceValue_struct. unfold bind.
    pose proof (coerce_fields_never_Err mapVal fields 0
                  (map (fun f => zeroValue (FieldType f)) fields) st) as Hne.
    destruct (coerce_fields _ _ _ _ _ _) as [[r|e'|msg] st']; cbn in *;
      [done | by destruct (Hne e') | done].
  - intros fs1 f fs2 res1 st1 k v st2 e st3 -> Hpre Hres Hk Hv.
    assert (Hrun :
      coerce_fields coerceValue mapVal (fs1 ++ f :: fs2) 0
        (map (fun f => zeroValue (FieldType f)) (fs1 ++ f :: fs2)) st
      = coerce_fields coerceValue mapVal fs2 (S (length fs1)) res1 st3).
    { rewrite (coerce_fields_app _ _ _ _ _ _ _ _ Hpre). cbn [Nat.add].
      rewrite coerce_fields_cons. unfold bind at 1, field_round.
      rewrite (bind_Ok _ _ _ _ _ Hres). cbn [fst snd].
      assert (nonempty k = true) as ->.
      { unfold nonempty. apply negb_true_iff. by apply String.eqb_neq. }
      unfold bind at 1, attempt. rewrite Hv. reflexivity. }
    split.
    + rewrite coerceValue_struct. unfold bind at 1. rewrite Hrun. reflexivity.
    + intros res st'. rewrite coerceValue_struct. intros H.
      apply bind_Ok_inv in H as (res' & st'' & Hall & [= <- <-]).
      rewrite Hrun in Hall.
      rewrite (coerce_fields_frame _ _ _ _ _ _ _ Hall) by lia.
      rewrite (coerce_fields_frame _ _ _ _ _ _ _ Hpre) by (cbn; lia).
      rewrite lookup_map, lookup_app_r by lia.
      rewrite Nat.sub_diag. reflexivity.
Qed.

End CoercerProps.



Example coerceToSlice_null_before_failing_element :
  let st := mkCState (mkScore (Some ∅) 0) 0 in
  coerceValue (RT := RefRuntime.runtime) (VString "x") (TInt KInt) st
  = (Err (ErrStringToInt (ErrNum "x")), st) /\
  coerceValue (RT := RefRuntime.runtime)
    (VArray [VNull; VString "x"]) (TSlice (TInt KInt)) st
  = (Panic "reflect: call of reflect.Value.Set on zero Value", st).
Proof. split; vm_compute; reflexivity. Qed.

Example coerceToStruct_failing_field_left_zero :
  let person := TStruct [mkField "Name" "" (Some "name") TString;
                         mkField "Age" "" (Some "age") (TInt KInt);
                         mkField "Admin" "" (Some "admin") TBool] in
  coerceValue (RT := RefRuntime.runtime)
    (VObject [("name", VString "Ann"); ("age", VArray []); ("admin", VString "yes")])
    person (mkCState (mkScore (Some ∅) 0) 0)
  = (Ok (GStruct person [GString "Ann"; GInt KInt 0; GBool true]),
     mkCState (mkScore (Some {[ "StringToBool" := 1 ]}) 1) 0).
Proof. vm_compute. reflexivity. Qed.

(** ** coercer.go: the score only grows *)

Lemma size_v_array items : size_v (VArray items) = 1 + sum_items items.
Proof. reflexivity. Qed.

Lemma size_v_object m : size_v (VObject m) = 1 + sum_entries m.
Proof.
  cbn [size_v]. f_equal. unfold sum_entries.
  induction m as [|[k x] l IH]; cbn [fold_right snd]; [done | by rewrite IH].
Qed.

Lemma size_t_struct fs : size_t (TStruct fs) = 1 + sum_fields fs.
Proof. reflexivity. Qed.

Lemma GoType_nested_ind (P : GoType -> Prop) :
  P TInterface -> P TString -> P TBool ->
  (forall k, P (TInt k)) -> (forall k, P (TUint k)) -> (forall k, P (TFloat k)) ->
  (forall e, P e -> P (TPtr e)) -> (forall e, P e -> P (TSlice e)) ->
  (forall n e, P e -> P (TArray n e)) ->
  (forall k e, P k -> P e -> P (TMap k e)) ->
  (forall fs, Forall (fun f => P (FieldType f)) fs -> P (TStruct fs)) ->
  (forall k, P (TOther k)) ->
  forall t, P t.
Proof.
  intros HI HS HB Hi Hu Hf Hp Hsl Ha Hm Hst Ho.
  fix IH 1. intros [ | | |k|k|k|e|e|n e|k e|fs|k].
  - exact HI.
  - exact HS.
  - exact HB.
  - apply Hi.
  - apply Hu.
  - apply Hf.
  - apply Hp, IH.
  - apply Hsl, IH.
  - apply Ha, IH.
  - apply Hm; apply IH.
  - apply Hst. induction fs as [|f fs IHfs]; constructor; [apply IH | exact IHfs].
  - apply Ho.
Qed.

Lemma Value_nested_ind (P : Value -> Prop) :
  P VNull -> (forall b, P (VBool b)) -> (forall f, P (VNumber f)) ->
  (forall s, P (VString s)) ->
  (forall items, Forall P items -> P (VArray items)) ->
  (forall m, Forall (fun kv => P (snd kv)) m -> P (VObject m)) ->
  (forall k n, P (VInt k n)) ->
  forall v, P v.
Proof.
  intros HN HB HF HS HA HO HI.
  fix IH 1. intros [ |b|f|s|items|m|k n].
  - exact HN.
  - apply HB.
  - apply HF.
  - apply HS.
  - apply HA. induction items as [|x l IHl]; constructor; [apply IH | exact IHl].
  - apply HO. induction m as [|[k x] l IHl]; constructor; [apply IH | exact IHl].
  - apply HI.
Qed.

Lemma sum_items_cons x l : sum_items (x :: l) = size_v x + sum_items l.
Proof. reflexivity. Qed.
Lemma sum_entries_cons kv m : sum_entries (kv :: m) = 1 + size_v (snd kv) + sum_entries m.
Proof. reflexivity. Qed.
Lemma sum_fields_cons f fs : sum_fields (f :: fs) = 1 + size_t (FieldType f) + sum_fields fs.
Proof. reflexivity. Qed.

Lemma size_v_pos v : 1 <= size_v v.
Proof.
  induction v as [ | | | |items H|m H| ] using Value_nested_ind; try (cbn; lia).
  - rewrite size_v_array. assert (0 <= sum_items items); [|lia].
    induction H as [|x l Hx _ IH]; [done|]. rewrite sum_items_cons. lia.
  - rewrite size_v_object. assert (0 <= sum_entries m); [|lia].
    induction H as [|x l Hx _ IH]; [done|]. rewrite sum_entries_cons. lia.
Qed.

Lemma size_t_pos t : 1 <= size_t t.
Proof.
  induction t as [ | | | | | |e IH|e IH|n e IH|k e IHk IHe|fs H| ]
    using GoType_nested_ind; try (cbn [size_t]; lia).
  rewrite size_t_struct. assert (0 <= sum_fields fs); [|lia].
  induction H as [|x l Hx _ IH]; [done|]. rewrite sum_fields_cons. lia.
Qed.

Lemma sum_items_nonneg l : 0 <= sum_items l.
Proof.
  induction l as [|x l IH]; [done|]. rewrite sum_items_cons.
  pose proof (size_v_pos x). lia.
Qed.

Lemma sum_entries_nonneg m : 0 <= sum_entries m.
Proof.
  induction m as [|x l IH]; [done|]. rewrite sum_entries_cons.
  pose proof (size_v_pos (snd x)). lia.
Qed.

Lemma sum_fields_nonneg fs : 0 <= sum_fields fs.
Proof.
  induction fs as [|x l IH]; [done|]. rewrite sum_fields_cons.
  pose proof (size_t_pos (FieldType x)). lia.
Qed.

Lemma sum_entries_perm m m' : Permutation m m' -> sum_entries m = sum_entries m'.
Proof. induction 1; rewrite ?sum_entries_cons; lia. Qed.

Lemma sum_items_take n l : sum_items (take n l) <= sum_items l.
Proof.
  revert n. induction l as [|x l IH]; intros [|n]; cbn [take];
    rewrite ?sum_items_cons; try done.
  - pose proof (sum_items_nonneg l). pose proof (size_v_pos x).
    change (sum_items []) with 0. lia.
  - specialize (IH n). lia.
Qed.

Lemma lookup_key_size m key v : lookup_key m key = Some v -> size_v v <= sum_entries m.
Proof.
  induction m as [|[k x] m IH]; cbn [lookup_key]; [done|].
  rewrite sum_entries_cons. cbn [snd].
  pose proof (sum_entries_nonneg m). pose proof (size_v_pos x).
  destruct (String.eqb k key); [intros [= ->]; lia | intros H'; apply IH in H'; lia].
Qed.

Lemma find_entry_size (f : string * Value -> bool) m k v :
  find f m = Some (k, v) -> size_v v <= sum_entries m.
Proof.
  induction m as [|[k' x] m IH]; cbn [find]; [done|].
  rewrite sum_entries_cons. cbn [snd].
  pose proof (sum_entries_nonneg m). pose proof (size_v_pos x).
  destruct (f (k', x)); [intros [= _ ->]; lia | intros H'; apply IH in H'; lia].
Qed.

Section ScoreProps.
Context `{RT : GoRuntime}.

Lemma wrap_wrap_add a b : GoInt.wrap 64 (GoInt.wrap 64 a + b) = GoInt.wrap 64 (a + b).
Proof.
  unfold GoInt.wrap.
  replace ((a + 2 ^ (64 - 1)) mod 2 ^ 64 - 2 ^ (64 - 1) + b + 2 ^ (64 - 1))
    with ((a + 2 ^ (64 - 1)) mod 2 ^ 64 + b) by lia.
  rewrite Zplus_mod_idemp_l. f_equal. f_equal. lia.
Qed.

Lemma costs_ret {A} (a : A) (Q : A -> Prop) : Q a -> costs (ret a) 0 Q.
Proof.
  intros HQ st Hst. exists 0. cbn. rewrite Z.add_0_r, wrap_id by done.
  split; [lia|]. split; [done|]. by intros ? [= <-].
Qed.

Lemma costs_fail {A} (e : error) (Q : A -> Prop) : costs (fail e) 0 Q.
Proof.
  intros st Hst. exists 0. cbn. rewrite Z.add_0_r, wrap_id by done.
  split; [lia|]. split; done.
Qed.

Lemma costs_panic {A} (msg : string) (Q : A -> Prop) : costs (panic msg) 0 Q.
Proof.
  intros st Hst. exists 0. cbn. rewrite Z.add_0_r, wrap_id by done.
  split; [lia|]. split; done.
Qed.

Lemma costs_weaken {A} (m : M A) b b' (Q Q' : A -> Prop) :
  costs m b Q -> b <= b' -> (forall a, Q a -> Q' a) -> costs m b' Q'.
Proof.
  intros Hm Hb HQ st Hst. destruct (Hm st Hst) as (d & Hd & Ht & Hq).
  exists d. split; [lia|]. split; [done | eauto].
Qed.

Lemma costs_bind {A B} (m : M A) (k : A -> M B) b1 b2 (Q1 : A -> Prop) (Q2 : B -> Prop) :
  costs m b1 Q1 -> 0 <= b2 -> (forall a, Q1 a -> costs (k a) b2 Q2) ->
  costs (bind m k) (b1 + b2) Q2.
Proof.
  intros Hm Hb2 Hk st Hst. destruct (Hm st Hst) as (d1 & Hd1 & Ht1 & Hq1).
  unfold bind. destruct (m st) as [[a|e|msg] st1]; cbn [fst snd] in *.
  - assert (Hst1 : GoInt.in_range (tot st1)) by (rewrite Ht1; apply wrap_range).
    destruct (Hk a (Hq1 a eq_refl) st1 Hst1) as (d2 & Hd2 & Ht2 & Hq2).
    exists (d1 + d2). split; [lia|]. split; [|done].
    rewrite Ht2, Ht1, wrap_wrap_add. f_equal. lia.
  - exists d1. split; [lia|]. split; done.
  - exists d1. split; [lia|]. split; done.
Qed.

Lemma costs_addFlag flag value : 0 <= value -> costs (addFlag flag value) value any.
Proof.
  intros Hv st Hst. exists value. cbn. split; [lia|]. split; done.
Qed.

Lemma costs_range m : costs (range m) 0 (fun es => Permutation es m).
Proof.
  intros st Hst. exists 0. unfold range.
  pose proof (mapiter_perm (seed st) m) as Hp.
  destruct (mapiter (seed st) m) as [es sd]. cbn in *.
  rewrite Z.add_0_r. unfold tot in *. cbn. rewrite wrap_id by done.
  split; [lia|]. split; [done|]. by intros ? [= <-].
Qed.

Lemma costs_attempt {A} (m : M A) b (Q : A -> Prop) :
  costs m b Q ->
  costs (attempt m) b (fun r => match r with inr a => Q a | inl _ => True end).
Proof.
  intros Hm st Hst. destruct (Hm st Hst) as (d & Hd & Ht & Hq).
  exists d. unfold attempt. destruct (m st) as [[a|e|msg] st1]; cbn [fst snd] in *;
    (split; [lia|]); (split; [done|]).
  - intros ? [= <-]. by apply Hq.
  - by intros ? [= <-].
  - done.
Qed.

Lemma costs_ret_any {A} (a : A) b : 0 <= b -> costs (ret a) b any.
Proof.
  intros Hb. eapply costs_weaken; [apply (costs_ret a any I) | lia | done].
Qed.

Lemma costs_ret_le {A} (a : A) b (Q : A -> Prop) : Q a -> 0 <= b -> costs (ret a) b Q.
Proof.
  intros HQ Hb. eapply costs_weaken; [apply (costs_ret a Q HQ) | lia | done].
Qed.

Lemma costs_fail_any {A} (e : error) b : 0 <= b -> costs (fail (A := A) e) b any.
Proof. intros Hb. eapply costs_weaken; [apply (costs_fail e any) | lia | done]. Qed.

Lemma costs_panic_any {A} (msg : string) b : 0 <= b -> costs (panic (A := A) msg) b any.
Proof. intros Hb. eapply costs_weaken; [apply (costs_panic msg any) | lia | done]. Qed.

Lemma costs_any {A} (m : M A) b (Q : A -> Prop) : costs m b Q -> costs m b any.
Proof. intros H. eapply costs_weaken; [exact H | lia | done]. Qed.

Lemma costs_reflect_Set elem : costs (reflect_Set elem) 0 any.
Proof.
  destruct elem; cbn [reflect_Set];
    first [by apply costs_panic_any | by apply costs_ret_any].
Qed.

Lemma costs_set_field field i x res : costs (set_field field i x res) 0 any.
Proof.
  unfold set_field.
  destruct (nonempty _); [by apply costs_panic_any | by apply costs_ret_any].
Qed.

Lemma costs_coerceToString value : costs (coerceToString value) 0 any.
Proof.
  destruct value; cbn [coerceToString]; try (by apply costs_ret_any).
  destruct (PrimFloat.eqb _ _); by apply costs_ret_any.
Qed.

(** A flag of weight [w], then a value. *)
Lemma costs_flag_ret {A} flag w (a : A) b :
  0 <= w <= b -> costs (addFlag flag w ;; ret a) b any.
Proof.
  intros Hw. eapply costs_weaken with (b := w + 0); [|lia|done].
  eapply costs_bind; [apply costs_addFlag; lia | lia |].
  intros _ _. by apply costs_ret_any.
Qed.

Lemma costs_coerceToInt value k : costs (coerceToInt value k) 2 any.
Proof.
  unfold coerceToInt.
  replace 2 with (2 + 0) by lia.
  eapply costs_bind with (Q1 := any); [|lia|intros; by apply costs_ret_any].
  destruct value; try (by apply costs_fail_any).
  - apply costs_flag_ret. lia.
  - destruct (negb _); [apply costs_flag_ret; lia | by apply costs_ret_any].
  - destruct (parseNumber s);
      [apply costs_flag_ret; lia | by apply costs_fail_any | by apply costs_panic_any].
Qed.

Lemma costs_coerceToUint value k : costs (coerceToUint value k) 2 any.
Proof.
  unfold coerceToUint. replace 2 with (2 + 0) by lia.
  eapply costs_bind; [apply costs_coerceToInt | lia |].
  intros [] _; first [by apply costs_panic_any | by apply costs_ret_any].
Qed.

Lemma costs_coerceToFloat value k : costs (coerceToFloat value k) 2 any.
Proof.
  unfold coerceToFloat.
  replace 2 with (2 + 0) by lia.
  eapply costs_bind with (Q1 := any); [|lia|intros; by apply costs_ret_any].
  destruct value; try (by apply costs_fail_any); try (by apply costs_ret_any).
  destruct (parseNumber s);
    [apply costs_flag_ret; lia | by apply costs_fail_any | by apply costs_panic_any].
Qed.

Lemma costs_coerceToBool value : costs (coerceToBool value) 2 any.
Proof.
  destruct value; cbn [coerceToBool]; try (by apply costs_fail_any).
  - by apply costs_ret_any.
  - apply costs_flag_ret. lia.
  - repeat match goal with
           | |- context [if ?c then _ else _] => destruct c
           end;
      first [apply costs_flag_ret; lia | by apply costs_fail_any].
Qed.

Lemma bound_ge_2 v t : 2 <= 2 * size_v v * size_t t.
Proof. pose proof (size_v_pos v). pose proof (size_t_pos t). nia. Qed.

Lemma costs_coerce_items (f : Value -> M GoValue) W items i res :
  0 <= W -> (forall x, costs (f x) (size_v x * W) any) ->
  costs (coerce_items f items i res) (sum_items items * W) any.
Proof.
  intros HW Hf. revert i res. induction items as [|x l IH]; intros i res.
  - cbn [coerce_items]. apply costs_ret_any. cbn. lia.
  - cbn [coerce_items]. rewrite sum_items_cons.
    pose proof (sum_items_nonneg l).
    eapply costs_weaken with (b := size_v x * W + (0 + sum_items l * W)); [|nia|done].
    eapply costs_bind; [apply Hf | nia |]. intros elem _.
    eapply costs_bind; [apply costs_reflect_Set | nia |]. intros elem' _. apply IH.
Qed.

Lemma costs_coerce_entries (fk fe : Value -> M GoValue) Wk We entries res :
  0 <= Wk -> 0 <= We ->
  (forall x, costs (fk x) (size_v x * Wk) any) ->
  (forall x, costs (fe x) (size_v x * We) any) ->
  costs (coerce_entries fk fe entries res) (sum_entries entries * (Wk + We)) any.
Proof.
  intros HWk HWe Hk He. revert res. induction entries as [|[k v] l IH]; intros res.
  - cbn [coerce_entries]. apply costs_ret_any. cbn. lia.
  - cbn [coerce_entries]. rewrite sum_entries_cons. cbn [snd].
    pose proof (sum_entries_nonneg l). pose proof (size_v_pos v).
    eapply costs_weaken
      with (b := size_v (VString k) * Wk + (size_v v * We + sum_entries l * (Wk + We)));
      [|cbn [size_v]; nia|done].
    eapply costs_bind; [apply Hk | nia |]. intros key _.
    eapply costs_bind; [apply He | nia |]. intros elem _. apply IH.
Qed.

Lemma costs_resolve_field mapVal field :
  costs (resolve_field mapVal field) 1
        (fun found => size_v (snd found) <= 1 + sum_entries mapVal).
Proof.
  unfold resolve_field.
  pose proof (sum_entries_nonneg mapVal) as Hn.
  set (found0 := ("", VNull)).
  set (found1 := match JsonTag field with Some _ => _ | None => _ end).
  assert (H1 : size_v (snd found1) <= 1 + sum_entries mapVal).
  { subst found1. destruct (JsonTag field) as [tag|]; [|cbn; lia].
    destruct (_ && _); [|cbn; lia].
    destruct (lookup_key mapVal _) as [v|] eqn:E; [|cbn; lia].
    apply lookup_key_size in E. cbn [snd]. lia. }
  clearbody found1.
  set (found2 := if String.eqb (fst found1) "" then _ else _).
  assert (H2 : size_v (snd found2) <= 1 + sum_entries mapVal).
  { subst found2. destruct (String.eqb (fst found1) ""); [|done].
    destruct (lookup_key mapVal _) as [v|] eqn:E; [|done].
    apply lookup_key_size in E. cbn [snd]. lia. }
  clearbody found2.
  destruct (String.eqb (fst found2) ""); [|apply costs_ret_le; [exact H2 | lia]].
  replace 1 with (0 + 1) by lia.
  eapply costs_bind; [apply costs_range | lia |]. intros es Hperm.
  destruct (find _ es) as [[k v]|] eqn:E.
  - apply find_entry_size in E. rewrite (sum_entries_perm _ _ Hperm) in E.
    replace 1 with (1 + 0) by lia.
    eapply costs_bind; [apply costs_addFlag; lia | lia |]. intros _ _.
    apply costs_ret. cbn [snd]. lia.
  - apply costs_ret_le; [exact H2 | lia].
Qed.

Lemma costs_coerce_fields mapVal fs i res :
  Forall (fun f => forall v,
            costs (coerceValue v (FieldType f)) (2 * size_v v * size_t (FieldType f)) any) fs ->
  costs (coerce_fields coerceValue mapVal fs i res)
        (2 * (1 + sum_entries mapVal) * sum_fields fs) any.
Proof.
  intros Hfs. revert i res. induction Hfs as [|f fs Hf _ IH]; intros i res.
  - cbn [coerce_fields]. apply costs_ret_any. cbn. lia.
  - cbn [coerce_fields]. rewrite sum_fields_cons.
    pose proof (sum_entries_nonneg mapVal) as Hn.
    pose proof (sum_fields_nonneg fs) as Hnf.
    pose proof (size_t_pos (FieldType f)) as Hpt.
    remember (1 + sum_entries mapVal) as S eqn:HS.
    eapply costs_weaken
      with (b := 1 + ((2 * S * size_t (FieldType f) + 0) + 2 * S * sum_fields fs));
      [|nia|done].
    eapply costs_bind; [apply costs_resolve_field | nia |]. intros found Hfound.
    cbn beta in Hfound.
    eapply costs_bind; [|nia|intros; apply IH].
    destruct (nonempty (fst found)); [|apply costs_ret_any; nia].
    eapply costs_bind; [apply costs_attempt|lia|].
    + eapply costs_weaken; [apply Hf | | intros a Ha; exact Ha].
      pose proof (size_v_pos (snd found)).
      apply Z.mul_le_mono_nonneg_r; lia.
    + intros [e|elem] _; [by apply costs_ret_any|].
      destruct elem; apply costs_set_field.
Qed.

Lemma costs_coerceValue t :
  forall v, costs (coerceValue v t) (2 * size_v v * size_t t) any.
Proof.
  induction t as [ | | | | | |e IH|e IH|n e IH|k e IHk IHe|fs IH| ]
    using GoType_nested_ind; intros v;
    pose proof (bound_ge_2 v) as Hb.
  all: try (destruct v; cbn [coerceValue typeOf type_matches GoType_eqb];
            repeat match goal with
                   | |- context [if ?c then _ else _] => destruct c
                   end;
            first [ apply costs_ret_any
                  | apply costs_fail_any
                  | eapply costs_weaken; [apply costs_coerceToString | | done]
                  | eapply costs_weaken; [apply costs_coerceToInt | | done]
                  | eapply costs_weaken; [apply costs_coerceToUint | | done]
                  | eapply costs_weaken; [apply costs_coerceToFloat | | done]
                  | eapply costs_weaken; [apply costs_coerceToBool | | done] ];
            match goal with |- _ <= 2 * size_v ?v * size_t ?t =>
              specialize (Hb t); lia end).
  - (* pointers *)
    assert (Hp : costs (let* elem := coerceValue v e in
                        match elem with
                        | GNil => ret (GPtr e None)
                        | _ => ret (GPtr e (Some elem))
                        end) (2 * size_v v * size_t (TPtr e)) any).
    { pose proof (size_v_pos v). pose proof (size_t_pos e).
      eapply costs_weaken with (b := 2 * size_v v * size_t e + 0);
        [|cbn [size_t]; nia|done].
      eapply costs_bind; [apply IH | lia |].
      intros elem _. destruct elem; by apply costs_ret_any. }
    destruct v; cbn [coerceValue typeOf type_matches GoType_eqb]; try exact Hp.
    apply costs_ret_any. specialize (Hb (TPtr e)). lia.
  - (* slices *)
    assert (Hs : costs (coerceToSlice (fun v => coerceValue v e) v e)
                       (2 * size_v v * size_t (TSlice e)) any).
    { unfold coerceToSlice. fold (slice_items v).
      pose proof (size_v_pos v). pose proof (size_t_pos e).
      pose proof (sum_items_nonneg (slice_items v)).
      assert (sum_items (slice_items v) <= size_v v).
      { destruct v; cbn [slice_items]; rewrite ?sum_items_cons;
          change (sum_items []) with 0; try lia.
        rewrite size_v_array. lia. }
      eapply costs_weaken with (b := sum_items (slice_items v) * (2 * size_t e) + 0);
        [|cbn [size_t]; nia|done].
      eapply costs_bind; [apply costs_coerce_items; [lia|] | lia |].
      - intros x. eapply costs_weaken; [apply IH | lia | done].
      - intros; by apply costs_ret_any. }
    destruct v; cbn [coerceValue typeOf type_matches GoType_eqb]; try exact Hs.
    + apply costs_ret_any. specialize (Hb (TSlice e)). lia.
    + destruct e; try exact Hs.
      apply costs_ret_any. specialize (Hb (TSlice TInterface)). lia.
  - (* arrays *)
    assert (Hs : costs (coerceToArray (fun v => coerceValue v e) v n e)
                       (2 * size_v v * size_t (TArray n e)) any).
    { unfold coerceToArray. fold (slice_items v).
      pose proof (size_v_pos v). pose proof (size_t_pos e).
      pose proof (sum_items_nonneg (take n (slice_items v))).
      assert (sum_items (take n (slice_items v)) <= size_v v).
      { pose proof (sum_items_take n (slice_items v)).
        assert (sum_items (slice_items v) <= size_v v); [|lia].
        destruct v; cbn [slice_items]; rewrite ?sum_items_cons;
          change (sum_items []) with 0; try lia.
        rewrite size_v_array. lia. }
      eapply costs_weaken
        with (b := sum_items (take n (slice_items v)) * (2 * size_t e) + 0);
        [|cbn [size_t]; nia|done].
      eapply costs_bind; [apply costs_coerce_items; [lia|] | lia |].
      - intros x. eapply costs_weaken; [apply IH | lia | done].
      - intros; by apply costs_ret_any. }
    destruct v; cbn [coerceValue typeOf type_matches GoType_eqb]; try exact Hs.
    apply costs_ret_any. specialize (Hb (TArray n e)). lia.
  - (* maps *)
    assert (Hs : costs (coerceToMap (fun v => coerceValue v k)
                          (fun v => coerceValue v e) v k e)
                       (2 * size_v v * size_t (TMap k e)) any).
    { pose proof (size_v_pos v). pose proof (size_t_pos e). pose proof (size_t_pos k).
      destruct v; cbn [coerceToMap]; try (apply costs_fail_any; cbn [size_t]; nia).
      rewrite size_v_object. pose proof (sum_entries_nonneg m).
      eapply costs_weaken
        with (b := 0 + (sum_entries m * (2 * size_t k + 2 * size_t e) + 0));
        [|cbn [size_t]; nia|done].
      eapply costs_bind; [apply costs_range | nia |]. intros es Hperm.
      rewrite <- (sum_entries_perm _ _ Hperm).
      eapply costs_bind; [apply costs_coerce_entries; [lia|lia| |] | lia |].
      - intros x. eapply costs_weaken; [apply IHk | lia | done].
      - intros x. eapply costs_weaken; [apply IHe | lia | done].
      - intros; by apply costs_ret_any. }
    destruct v; cbn [coerceValue typeOf type_matches GoType_eqb]; try exact Hs.
    + apply costs_ret_any. specialize (Hb (TMap k e)). lia.
    + destruct k; try exact Hs. destruct e; try exact Hs.
      apply costs_ret_any. specialize (Hb (TMap TString TInterface)). lia.
  - (* records *)
    assert (Hs : costs (coerceToStruct coerceValue v (TStruct fs) fs)
                       (2 * size_v v * size_t (TStruct fs)) any).
    { pose proof (size_v_pos v). pose proof (sum_fields_nonneg fs).
      rewrite size_t_struct.
      destruct v; cbn [coerceToStruct]; try (apply costs_fail_any; nia).
      rewrite size_v_object. pose proof (sum_entries_nonneg m).
      eapply costs_weaken
        with (b := 2 * (1 + sum_entries m) * sum_fields fs + 0); [|nia|done].
      eapply costs_bind; [by apply costs_coerce_fields | lia |].
      intros; by apply costs_ret_any. }
    destruct v; cbn [coerceValue typeOf type_matches GoType_eqb]; try exact Hs.
    apply costs_ret_any. specialize (Hb (TStruct fs)). lia.
Qed.

(** C4. Within one coercion the running total of the score never
    decreases: as long as the total stays within Go's [int] (no value that
    fits in memory comes near: the room needed is twice the number of nodes
    of the value times the number of nodes of the type), [coerceValue] leaves
    the total at its value on entry plus the sum [d] of the penalties it
    added, and that sum is not negative.  This holds of every call of
    [coerceValue], the recursive ones included, so the totals seen along a
    coercion are ordered as the calls are. *)
Theorem coerceValue_total_nondecreasing (v : Value) (t : GoType) (st : CState) :
  GoInt.in_range (tot st) ->
  tot st + 2 * size_v v * size_t t <= GoInt.MaxInt64 ->
  exists d, 0 <= d <= 2 * size_v v * size_t t /\
    tot (snd (coerceValue v t st)) = tot st + d /\
    tot st <= tot (snd (coerceValue v t st)).
Proof.
  intros Hst Hroom.
  destruct (costs_coerceValue t v st Hst) as (d & Hd & Ht & _).
  exists d. split; [done|].
  rewrite Ht, wrap_id; [lia|].
  unfold GoInt.in_range, GoInt.MinInt64, GoInt.MaxInt64 in *. lia.
Qed.

(** Each penalty on its own: [AddFlag] with a value that is not negative
    does not lower the total, short of overflow. *)
Lemma AddFlag_total_nondecreasing (s : Score) (flag : string) (value : Z) :
  0 <= value -> GoInt.in_range (total s + value) ->
  total s <= total (AddFlag s flag value).
Proof.
  intros Hv Hr. cbn [AddFlag total]. rewrite add_exact by done. lia.
Qed.

(** A whole coercion starts from an empty score: its total is the sum of
    the penalties. *)
Lemma Coerce_total_bounds (v : Value) (t : GoType) (sd : Seed) :
  2 * size_v v * size_t t <= GoInt.MaxInt64 ->
  0 <= total (snd (fst (Coerce v t sd))) <= 2 * size_v v * size_t t.
Proof.
  intros Hroom. unfold Coerce.
  pose proof (bound_ge_2 v t) as Hb.
  set (st0 := mkCState (mkScore (Some ∅) 0) sd).
  assert (H0 : 0 <= tot (snd (coerceValue v t st0)) <= 2 * size_v v * size_t t).
  { assert (Hst : GoInt.in_range (tot st0))
      by (cbn; unfold GoInt.in_range, GoInt.MinInt64, GoInt.MaxInt64; lia).
    destruct (costs_coerceValue t v st0 Hst) as (d & Hd & Ht & _).
    rewrite Ht. cbn [tot st0 score total].
    rewrite wrap_id; [lia|].
    unfold GoInt.in_range, GoInt.MinInt64, GoInt.MaxInt64 in *. lia. }
  destruct v; cbn [snd fst total]; try lia;
    destruct (coerceValue _ t st0) as [r st']; exact H0.
Qed.

End ScoreProps.

Lemma coerceValue_total_nondecreasing_witness :
  let v := VArray [VString "3"; VBool true; VNumber 2.5] in
  let t := TSlice (TInt KInt) in
  let st := mkCState (mkScore (Some ∅) 0) 0 in
  GoInt.in_range (tot st) /\
  tot st + 2 * size_v v * size_t t <= GoInt.MaxInt64 /\
  exists d, 0 <= d <= 2 * size_v v * size_t t /\
    tot (snd (coerceValue (RT := RefRuntime.runtime) v t st)) = tot st + d /\
    tot st <= tot (snd (coerceValue (RT := RefRuntime.runtime) v t st)).
Proof.
  cbv zeta.
  assert (H1 : GoInt.in_range (tot (mkCState (mkScore (Some ∅) 0) 0)))
    by (vm_compute; split; discriminate).
  assert (H2 : tot (mkCState (mkScore (Some ∅) 0) 0)
               + 2 * size_v (VArray [VString "3"; VBool true; VNumber 2.5])
                 * size_t (TSlice (TInt KInt)) <= GoInt.MaxInt64)
    by (vm_compute; discriminate).
  split; [exact H1|]. split; [exact H2|].
  exact (coerceValue_total_nondecreasing (RT := RefRuntime.runtime) _ _ _ H1 H2).
Defined.

Example coerceValue_total_example :
  tot (snd (coerceValue (RT := RefRuntime.runtime)
              (VArray [VString "3"; VBool true; VNumber 2.5]) (TSlice (TInt KInt))
              (mkCState (mkScore (Some ∅) 0) 0))) = 5.
Proof. vm_compute. reflexivity. Qed.

(** ** extractor.go: the whole-input probe *)

Section JsonShape.
Context `{RT : GoRuntime}.

Lemma skip_ws_suffix p : json.skip_ws p `suffix_of` p.
Proof.
  induction p as [|c p IH]; cbn; [done|].
  destruct (json.isSpace c); [by apply suffix_cons_r | done].
Qed.

Lemma skip_ws_split p :
  exists ws, p = ws ++ json.skip_ws p /\ Forall (fun b => json.isSpace b = true) ws.
Proof.
  induction p as [|c p (ws & Hp & Hws)]; cbn; [by exists []|].
  destruct (json.isSpace c) eqn:E; [|by exists []].
  exists (c :: ws). split; [cbn; congruence | by constructor].
Qed.

Lemma skip_ws_nil p : json.skip_ws p = [] -> Forall (fun b => json.isSpace b = true) p.
Proof.
  intros H. destruct (skip_ws_split p) as (ws & Hp & Hws).
  rewrite H, app_nil_r in Hp. by subst.
Qed.

Lemma take_digits_split p ds rest :
  json.take_digits p = (ds, rest) ->
  p = ds ++ rest /\ Forall (fun b => json.isDigit b = true) ds.
Proof.
  revert ds rest. induction p as [|c p IH]; intros ds rest; cbn.
  - intros [= <- <-]. done.
  - destruct (json.isDigit c) eqn:E; [|intros [= <- <-]; done].
    destruct (json.take_digits p) as [ds' rest'] eqn:E'. intros [= <- <-].
    destruct (IH _ _ eq_refl) as [-> Hds]. split; [done | by constructor].
Qed.

Lemma getu4_suffix p r rest : json.getu4 p = Some (r, rest) -> rest `suffix_of` p.
Proof.
  unfold json.getu4. intros H. repeat case_match; simplify_eq.
  by do 4 apply suffix_cons_r.
Qed.

Ltac suffix_step :=
  first [ reflexivity
        | assumption
        | apply suffix_drop
        | match goal with
          | H : json.getu4 ?q = Some (_, _) |- _ `suffix_of` ?q =>
              etrans; [|exact (getu4_suffix _ _ _ H)]
          end
        | apply suffix_cons_r ].

Lemma scan_string_closes fuel p acc s out :
  json.scan_string fuel p acc = Some (s, out) -> (34 :: out) `suffix_of` p.
Proof.
  revert p acc. induction fuel as [|fuel IH]; intros p acc H; [done|].
  cbn [json.scan_string] in H.
  repeat case_match; simplify_eq;
    try (match goal with
         | H : json.scan_string fuel _ _ = Some _ |- _ => apply IH in H
         end);
    try (match goal with
         | H : (?c =? 34) = true |- _ => apply Z.eqb_eq in H; subst
         end);
    try done.
  all: etrans; [eassumption|]; repeat suffix_step.
Qed.

Lemma last_app_some {A} (l1 l2 : list A) x : last l2 = Some x -> last (l1 ++ l2) = Some x.
Proof.
  intros H. apply last_Some in H as [l2' ->].
  rewrite app_assoc. apply last_snoc.
Qed.

Lemma last_suffix {A} (lit out : list A) l :
  last lit = Some l -> (l :: out) `suffix_of` (lit ++ out).
Proof.
  intros H. apply last_Some in H as [lit' ->].
  exists lit'. by rewrite <- app_assoc.
Qed.

Lemma ends_digit_app l1 l2 : ends_digit l2 -> ends_digit (l1 ++ l2).
Proof. intros (l & Hl & Hd). exists l. split; [by apply last_app_some | done]. Qed.

Lemma ends_digit_digits c ds :
  json.isDigit c = true -> Forall (fun b => json.isDigit b = true) ds ->
  ends_digit (c :: ds).
Proof.
  intros Hc Hds. revert c Hc. induction Hds as [|b ds Hb _ IH]; intros c Hc.
  - by exists c.
  - change (c :: b :: ds) with ([c] ++ b :: ds). apply ends_digit_app. by apply IH.
Qed.

Lemma scan_int_ends p ip rest :
  json.scan_int p = Some (ip, rest) -> p = ip ++ rest /\ ends_digit ip.
Proof.
  unfold json.scan_int. destruct p as [|c p']; [done|].
  destruct (Z.eqb_spec c 48) as [->|_].
  - intros [= <- <-]. split; [done | by exists 48].
  - destruct (json.isDigit c) eqn:Hc; [|done].
    destruct (json.take_digits p') as [ds r] eqn:E. intros [= <- <-].
    apply take_digits_split in E as [-> Hds].
    split; [done | by apply ends_digit_digits].
Qed.

Lemma scan_frac_ends p fp rest :
  json.scan_frac p = Some (fp, rest) -> p = fp ++ rest /\ (fp = [] \/ ends_digit fp).
Proof.
  unfold json.scan_frac. intros H.
  assert (Hdef : Some ([], p) = Some (fp, rest) -> p = fp ++ rest /\ (fp = [] \/ ends_digit fp)).
  { intros [= <- <-]. auto. }
  destruct p as [|c p']; [by apply Hdef|].
  destruct (Z.eqb_spec c 46) as [->|Hne].
  - destruct (json.take_digits p') as [[|d ds] r] eqn:E; [done|].
    injection H as <- <-. apply take_digits_split in E as [-> Hds].
    split; [done|]. right. change (46 :: d :: ds) with ([46] ++ d :: ds).
    apply ends_digit_app. apply Forall_cons in Hds as [Hd Hds].
    by apply ends_digit_digits.
  - apply Hdef. rewrite <- H. clear -Hne.
    repeat (match goal with
            | |- context [match ?c with _ => _ end] => destruct c; try done
            end).
Qed.

Lemma scan_exp_ends p ep rest :
  json.scan_exp p = Some (ep, rest) -> p = ep ++ rest /\ (ep = [] \/ ends_digit ep).
Proof.
  unfold json.scan_exp. destruct p as [|e p']; [intros [= <- <-]; auto|].
  destruct ((e =? 101) || (e =? 69)); [|intros [= <- <-]; auto].
  set (sp := match p' with [] => _ | s :: q => _ end).
  assert (Hsp : p' = fst sp ++ snd sp).
  { subst sp. destruct p' as [|s q]; [done|]. by destruct (_ || _). }
  destruct sp as [sg p'']. cbn [fst snd] in Hsp.
  destruct (json.take_digits p'') as [[|d ds] r] eqn:E; [done|].
  intros [= <- <-]. apply take_digits_split in E as [-> Hds].
  split; [rewrite Hsp; cbn [app]; by rewrite <- app_assoc|]. right.
  change (e :: sg ++ d :: ds) with ((e :: sg) ++ d :: ds).
  apply ends_digit_app. apply Forall_cons in Hds as [Hd Hds].
  by apply ends_digit_digits.
Qed.

(** A number literal ends with a digit. *)
Lemma scan_number_ends p lit rest :
  json.scan_number p = Some (lit, rest) -> p = lit ++ rest /\ ends_digit lit.
Proof.
  unfold json.scan_number.
  set (sp := match p with 45 :: p' => _ | _ => _ end).
  assert (Hsp : p = fst sp ++ snd sp).
  { subst sp. destruct p as [|c p']; [done|].
    repeat (match goal with
            | |- context [match ?c with _ => _ end] => destruct c; try done
            end). }
  destruct sp as [sign q]. cbn [fst snd] in Hsp.
  destruct (json.scan_int q) as [[ip q1]|] eqn:Ei; [|done].
  destruct (json.scan_frac q1) as [[fp q2]|] eqn:Ef; [|done].
  destruct (json.scan_exp q2) as [[ep q3]|] eqn:Ee; [|done].
  intros [= <- <-].
  apply scan_int_ends in Ei as [-> Hi].
  apply scan_frac_ends in Ef as [-> Hf].
  apply scan_exp_ends in Ee as [-> He].
  split; [by rewrite Hsp, <- !app_assoc|].
  apply ends_digit_app.
  destruct He as [->|He]; [|by do 2 apply ends_digit_app].
  rewrite app_nil_r.
  destruct Hf as [->|Hf]; [by rewrite app_nil_r | by apply ends_digit_app].
Qed.

Lemma has_prefix_split pre p :
  strings.has_prefix pre p = true -> p = pre ++ drop (length pre) p.
Proof.
  revert p. induction pre as [|a pre IH]; intros p; [done|].
  destruct p as [|b p]; cbn; [done|].
  intros H. apply andb_true_iff in H as [Hab H].
  apply Z.eqb_eq in Hab as ->. f_equal. by apply IH.
Qed.

Lemma has_prefix_app pre post : strings.has_prefix pre (pre ++ post) = true.
Proof. induction pre as [|a pre IH]; cbn; [done|]. by rewrite Z.eqb_refl. Qed.

(** Walks a chain of suffix facts down from the right-hand side. *)
Ltac suffix_chain :=
  repeat first
    [ reflexivity
    | assumption
    | match goal with
      | H : ?a `suffix_of` ?y |- _ `suffix_of` ?y => etrans; [|exact H]
      | H : json.skip_ws ?y = ?a |- _ `suffix_of` ?y =>
          etrans; [|exact (skip_ws_suffix y)]; rewrite H
      | |- _ `suffix_of` json.skip_ws ?y => fail 1
      end
    | apply suffix_cons_r ].

Lemma scan_shape fuel :
  (forall depth p v out,
     json.scan_value fuel depth p = Some (v, out) -> value_ends_before p out) /\
  (forall depth p m v out,
     json.scan_members fuel depth p m = Some (v, out) -> (125 :: out) `suffix_of` p) /\
  (forall depth p items v out,
     json.scan_elements fuel depth p items = Some (v, out) -> (93 :: out) `suffix_of` p).
Proof.
  induction fuel as [|fuel (IHv & IHm & IHe)]; [by repeat split|].
  split; [|split].
  - intros depth p v out H. cbn [json.scan_value] in H.
    destruct p as [|c rest]; [done|].
    destruct (Z.eqb_spec c 123) as [->|_].
    { destruct (_ <? _); [done|]. exists 125. split; [done|].
      destruct (json.skip_ws rest) as [|c' rest'] eqn:Ews;
        [apply IHm in H; suffix_chain|].
      destruct (Z.eqb_spec c' 125) as [->|Hne].
      - injection H as _ <-. suffix_chain.
      - assert (Hm : json.scan_members fuel (depth + 1) rest [] = Some (v, out)).
        { revert H. clear -Hne.
          repeat (match goal with
                  | |- context [match ?c with _ => _ end] => destruct c; try done
                  end). }
        apply IHm in Hm. suffix_chain. }
    destruct (Z.eqb_spec c 91) as [->|_].
    { destruct (_ <? _); [done|]. exists 93. split; [done|].
      destruct (json.skip_ws rest) as [|c' rest'] eqn:Ews;
        [apply IHe in H; suffix_chain|].
      destruct (Z.eqb_spec c' 93) as [->|Hne].
      - injection H as _ <-. suffix_chain.
      - assert (Hm : json.scan_elements fuel (depth + 1) rest [] = Some (v, out)).
        { revert H. clear -Hne.
          repeat (match goal with
                  | |- context [match ?c with _ => _ end] => destruct c; try done
                  end). }
        apply IHe in Hm. suffix_chain. }
    destruct (Z.eqb_spec c 34) as [->|_].
    { destruct (json.scan_string _ rest []) as [[str rest']|] eqn:Es; [|done].
      injection H as _ <-. apply scan_string_closes in Es.
      exists 34. split; [done|]. suffix_chain. }
    destruct ((c =? 45) || json.isDigit c).
    { destruct (json.scan_number (c :: rest)) as [[lit rest']|] eqn:En; [|done].
      destruct (strconv_ParseFloat _); [|done]. injection H as _ <-.
      apply scan_number_ends in En as [Hp (l & Hl & Hd)].
      exists l. split.
      - unfold is_value_end. rewrite Hd. by rewrite !orb_true_r.
      - rewrite Hp. by apply last_suffix. }
    destruct (c =? 116).
    { destruct (strings.has_prefix _ _) eqn:Ep; [|done]. injection H as _ <-.
      apply has_prefix_split in Ep. exists 101. split; [done|].
      exists [116; 114; 117]. exact Ep. }
    destruct (c =? 102).
    { destruct (strings.has_prefix _ _) eqn:Ep; [|done]. injection H as _ <-.
      apply has_prefix_split in Ep. exists 101. split; [done|].
      exists [102; 97; 108; 115]. exact Ep. }
    destruct (c =? 110); [|done].
    destruct (strings.has_prefix _ _) eqn:Ep; [|done]. injection H as _ <-.
    apply has_prefix_split in Ep. exists 108. split; [done|].
    exists [110; 117; 108]. exact Ep.
  - intros depth p m v out H. cbn [json.scan_members] in H.
    destruct (json.skip_ws p) as [|c p1] eqn:E0; [done|].
    destruct (Z.eqb_spec c 34) as [->|Hne];
      [|revert H; clear -Hne;
        repeat (match goal with
                | |- context [match ?c with _ => _ end] => destruct c; try done
                end)].
    destruct (json.scan_string _ p1 []) as [[k p2]|] eqn:Es; [|done].
    apply scan_string_closes in Es.
    destruct (json.skip_ws p2) as [|c2 p3] eqn:E2; [done|].
    destruct (Z.eqb_spec c2 58) as [->|Hne];
      [|revert H; clear -Hne;
        repeat (match goal with
                | |- context [match ?c with _ => _ end] => destruct c; try done
                end)].
    destruct (json.scan_value fuel depth (json.skip_ws p3)) as [[v' p4]|] eqn:Ev; [|done].
    apply IHv in Ev as (l & _ & Hl).
    pose proof (skip_ws_suffix p3) as Hs3.
    destruct (json.skip_ws p4) as [|c4 p5] eqn:E4; [done|].
    destruct (Z.eqb_spec c4 44) as [->|Hne44].
    + apply IHm in H. suffix_chain.
    + destruct (Z.eqb_spec c4 125) as [->|Hne125].
      * injection H as _ <-. suffix_chain.
      * revert H. clear -Hne44 Hne125.
        repeat (match goal with
                | |- context [match ?c with _ => _ end] => destruct c; try done
                end).
  - intros depth p items v out H. cbn [json.scan_elements] in H.
    destruct (json.scan_value fuel depth (json.skip_ws p)) as [[v' p1]|] eqn:Ev; [|done].
    apply IHv in Ev as (l & _ & Hl).
    pose proof (skip_ws_suffix p) as Hs.
    destruct (json.skip_ws p1) as [|c1 p2] eqn:E1; [done|].
    destruct (Z.eqb_spec c1 44) as [->|Hne44].
    + apply IHe in H. suffix_chain.
    + destruct (Z.eqb_spec c1 93) as [->|Hne93].
      * injection H as _ <-. suffix_chain.
      * revert H. clear -Hne44 Hne93.
        repeat (match goal with
                | |- context [match ?c with _ => _ end] => destruct c; try done
                end).
Qed.

Lemma scan_value_starts fuel depth p v out :
  json.scan_value fuel depth p = Some (v, out) ->
  exists c rest, p = c :: rest /\ json.is_value_start c = true.
Proof.
  destruct fuel as [|fuel]; [done|]. cbn [json.scan_value].
  destruct p as [|c rest]; [done|]. intros H. exists c, rest. split; [done|].
  unfold json.is_value_start.
  destruct (c =? 123); [done|]. destruct (c =? 91); [done|].
  destruct (c =? 34); [done|]. cbn [orb].
  destruct ((c =? 45) || json.isDigit c); [done|]. cbn [orb].
  destruct (c =? 116); [done|]. destruct (c =? 102); [done|].
  destruct (c =? 110); done.
Qed.

End JsonShape.

Section ExtractorProps.
Context `{RT : GoRuntime}.

Lemma asciiSpace_lt b : strings.asciiSpace b = true -> b < utf8.RuneSelf.
Proof.
  unfold strings.asciiSpace, utf8.RuneSelf. intros H.
  repeat (apply orb_true_iff in H as [H|H]); apply Z.eqb_eq in H; lia.
Qed.

Lemma json_space_ascii b : json.isSpace b = true -> strings.asciiSpace b = true.
Proof.
  unfold json.isSpace, strings.asciiSpace. intros H.
  repeat (apply orb_true_iff in H as [H|H]); apply Z.eqb_eq in H; subst; done.
Qed.

Lemma digit_not_space c :
  json.isDigit c = true -> c < utf8.RuneSelf /\ strings.asciiSpace c = false.
Proof.
  unfold json.isDigit, strings.asciiSpace, utf8.RuneSelf. intros H.
  apply andb_true_iff in H as [H1 H2]. apply Z.leb_le in H1, H2.
  split; [lia|]. repeat (apply orb_false_iff; split); apply Z.eqb_neq; lia.
Qed.

Lemma value_start_not_space c :
  json.is_value_start c = true -> c < utf8.RuneSelf /\ strings.asciiSpace c = false.
Proof.
  unfold json.is_value_start. intros H.
  repeat (apply orb_true_iff in H as [H|H]);
    first [ by apply digit_not_space
          | apply Z.eqb_eq in H; subst; done ].
Qed.

Lemma value_end_not_space c :
  is_value_end c = true -> c < utf8.RuneSelf /\ strings.asciiSpace c = false.
Proof.
  unfold is_value_end. intros H.
  repeat (apply orb_true_iff in H as [H|H]);
    first [ by apply digit_not_space
          | apply Z.eqb_eq in H; subst; done ].
Qed.

Lemma drop_while_split f p :
  exists pre, p = pre ++ strings.drop_while f p /\ Forall (fun b => f b = true) pre.
Proof.
  induction p as [|b p (pre & Hp & Hpre)]; cbn; [by exists []|].
  destruct (f b) eqn:E; [|by exists []].
  exists (b :: pre). split; [cbn; congruence | by constructor].
Qed.

Lemma drop_while_head f p c t : strings.drop_while f p = c :: t -> f c = false.
Proof.
  induction p as [|b p IH]; cbn; [done|].
  destruct (f b) eqn:E; [done|]. by intros [= -> _].
Qed.

(** Shape of the ASCII trim: white space, the kept bytes, white space; the
    kept bytes neither start nor end with white space. *)
Lemma ascii_trim_split p :
  exists pre post,
    p = pre ++ ascii_trim_bytes p ++ post /\
    Forall (fun b => strings.asciiSpace b = true) pre /\
    Forall (fun b => strings.asciiSpace b = true) post /\
    (forall c t, ascii_trim_bytes p = c :: t -> strings.asciiSpace c = false) /\
    (forall t l, ascii_trim_bytes p = t ++ [l] -> strings.asciiSpace l = false).
Proof.
  unfold ascii_trim_bytes.
  destruct (drop_while_split strings.asciiSpace p) as (pre & Hp & Hpre).
  set (q := strings.drop_while strings.asciiSpace p) in *.
  destruct (drop_while_split strings.asciiSpace (rev q)) as (post_r & Hq & Hpost).
  set (t_r := strings.drop_while strings.asciiSpace (rev q)) in *.
  assert (Hq' : q = rev t_r ++ rev post_r).
  { rewrite <- rev_app_distr, <- Hq. by rewrite rev_involutive. }
  exists pre, (rev post_r). repeat split.
  - by rewrite <- Hq'.
  - done.
  - clear -Hpost. induction Hpost; cbn; [constructor|].
    apply Forall_app. split; [done | by repeat constructor].
  - intros c t Ht. rewrite Ht in Hq'. cbn in Hq'.
    by apply (drop_while_head strings.asciiSpace p c (t ++ rev post_r)).
  - intros t l Ht.
    assert (t_r = l :: rev t).
    { rewrite <- (rev_involutive t_r), Ht, rev_app_distr. done. }
    by apply (drop_while_head strings.asciiSpace (rev q) l (rev t)).
Qed.

Lemma trim_stop_spaces sp q :
  Forall (fun b => strings.asciiSpace b = true) sp ->
  strings.trim_stop (sp ++ q) = strings.trim_stop q.
Proof.
  induction 1 as [|b sp Hb _ IH]; [done|]. cbn [app strings.trim_stop].
  pose proof (asciiSpace_lt _ Hb) as Hlt.
  destruct (Z.leb_spec utf8.RuneSelf b); [lia|]. by rewrite Hb.
Qed.

(** On white space, bytes that start and end with ASCII bytes other than
    white space, and white space, [strings.TrimSpace] keeps the middle. *)
Lemma trim_space_ascii pre post c t l t' :
  Forall (fun b => strings.asciiSpace b = true) pre ->
  Forall (fun b => strings.asciiSpace b = true) post ->
  c :: t = t' ++ [l] ->
  c < utf8.RuneSelf -> strings.asciiSpace c = false ->
  l < utf8.RuneSelf -> strings.asciiSpace l = false ->
  strings.trim_space (pre ++ (c :: t) ++ post) = c :: t.
Proof.
  intros Hpre Hpost Hl Hc Hcs Hl' Hls.
  induction Hpre as [|b pre Hb _ IH].
  - cbn [app strings.trim_space].
    destruct (Z.leb_spec utf8.RuneSelf c); [lia|]. rewrite Hcs.
    change (c :: t ++ post) with ((c :: t) ++ post).
    rewrite rev_app_distr, trim_stop_spaces.
    + rewrite Hl, rev_app_distr. cbn [rev app strings.trim_stop].
      destruct (Z.leb_spec utf8.RuneSelf l); [lia|]. rewrite Hls.
      cbn [rev]. by rewrite rev_involutive.
    + clear -Hpost. induction Hpost; cbn; [constructor|].
      apply Forall_app. split; [done | by repeat constructor].
  - cbn [app strings.trim_space].
    pose proof (asciiSpace_lt _ Hb).
    destruct (Z.leb_spec utf8.RuneSelf b); [lia|]. by rewrite Hb.
Qed.

Lemma index_from_skips pre T post i c t :
  T = c :: t -> c ∉ pre ->
  strings.index_from (pre ++ T ++ post) T i = i + Z.of_nat (length pre).
Proof.
  intros -> Hc. revert i. induction pre as [|b pre IH]; intros i.
  - cbn [app length].
    pose proof (has_prefix_app (c :: t) post) as Hp. cbn [app] in Hp.
    cbn [strings.index_from]. rewrite Hp. lia.
  - apply not_elem_of_cons in Hc as [Hne Hc].
    cbn [app strings.index_from strings.has_prefix].
    destruct (Z.eqb_spec c b) as [->|_]; [done|]. cbn [andb].
    rewrite IH by done. cbn [length]. lia.
Qed.

(** A valid JSON text that neither starts nor ends with white space starts
    with the first byte of a value and ends with the last byte of one. *)
Lemma valid_trimmed_shape T :
  Forall (fun b => 0 <= b < 256) T ->
  (forall c t, T = c :: t -> strings.asciiSpace c = false) ->
  (forall t l, T = t ++ [l] -> strings.asciiSpace l = false) ->
  isValidJSON (of_bytes T) = true ->
  exists c t l t',
    T = c :: t /\ T = t' ++ [l] /\
    json.is_value_start c = true /\ is_value_end l = true.
Proof.
  intros Hr Hhead Hlast Hv.
  unfold isValidJSON, json.Unmarshal in Hv. rewrite bytes_of_bytes in Hv by done.
  destruct (json.scan_value _ 0 (json.skip_ws T)) as [[v rest]|] eqn:Es; [|done].
  destruct (json.skip_ws rest) eqn:Er; [|done].
  assert (Hskip : json.skip_ws T = T).
  { destruct T as [|c t]; [done|]. cbn.
    destruct (json.isSpace c) eqn:E; [|done].
    apply json_space_ascii in E. by rewrite (Hhead c t) in E. }
  rewrite Hskip in Es.
  destruct (scan_value_starts _ _ _ _ _ Es) as (c & t & HT & Hc).
  destruct (proj1 (scan_shape _) _ _ _ _ Es) as (l & Hl & [k Hk]).
  apply skip_ws_nil in Er.
  destruct (rev rest) as [|z r] eqn:Erev.
  - apply (f_equal (@rev Z)) in Erev. rewrite rev_involutive in Erev. cbn in Erev.
    subst rest. exists c, t, l, k. done.
  - apply (f_equal (@rev Z)) in Erev. rewrite rev_involutive in Erev. cbn in Erev.
    exfalso. subst rest.
    apply Forall_app in Er as [_ Hz]. apply Forall_cons in Hz as [Hz _].
    apply json_space_ascii in Hz.
    rewrite (Hlast (k ++ l :: rev r) z) in Hz; [done|].
    rewrite Hk. by rewrite <- app_assoc.
Qed.


End ExtractorProps.


Example ExtractJSON_padded_object :
  ExtractJSON (RT := RefRuntime.runtime) padded_object
  = Ok [mkCandidate (of_bytes [123; 34; 97; 34; 58; 91; 116; 114; 117; 101; 44;
                               110; 117; 108; 108; 93; 125]) 2].
Proof. vm_compute. reflexivity. Qed.

(** ** The orchestrator on several candidates *)

Section OrchestratorProps.
Context `{RT : GoRuntime}.

Lemma candidates_loop_app strict t cs1 cs2 b sd :
  candidates_loop strict t (cs1 ++ cs2) b sd =
  match candidates_loop strict t cs1 b sd with
  | (Some b', sd') => candidates_loop strict t cs2 b' sd'
  | (None, sd') => (None, sd')
  end.
Proof.
  revert b sd. induction cs1 as [|c cs1 IH]; intros b sd; cbn; [done|].
  destruct (try_candidate strict t c b sd) as [[b'|] sd']; [apply IH | done].
Qed.

(** A candidate that parses and then fails to coerce records its error and
    leaves the best result and score as they were. *)
Lemma try_candidate_coerce_error strict t c b sd raw e sc sd' :
  json.Unmarshal (JSON c) = Ok raw ->
  Coerce raw t sd = (Err e, sc, sd') ->
  try_candidate strict t c b sd
  = (Some (mkBest (bestResult b) (bestScore b) (Some e)), sd').
Proof. intros Hu Hc. unfold try_candidate. by rewrite Hu, Hc. Qed.

(** When the last candidate parses and fails to coerce, [ParseWithScore]
    returns that error, whatever the earlier candidates gave. *)
Lemma ParseWithScore_last_candidate_error strict input t sd cs c b sd1 raw e sc sd2 :
  ExtractJSON input = Ok (cs ++ [c]) ->
  candidates_loop strict t cs (mkBest GNil None None) sd = (Some b, sd1) ->
  json.Unmarshal (JSON c) = Ok raw ->
  Coerce raw t sd1 = (Err e, sc, sd2) ->
  ParseWithScore strict input t sd = (Err (ErrParse (Some e)), sd2).
Proof.
  intros He Hl Hu Hc. unfold ParseWithScore. rewrite He.
  rewrite length_app, candidates_loop_app, Hl. cbn [length candidates_loop].
  rewrite (try_candidate_coerce_error _ _ _ _ _ _ _ _ _ Hu Hc).
  replace (length cs + 1 =? 0)%nat with false
    by (symmetry; apply Nat.eqb_neq; lia).
  done.
Qed.

End OrchestratorProps.

(** C1. On the input of the package's own test
    [TestFailedCandidateAfterSuccess] the extractor yields the fenced
    object, the same object found by its braces, and the inner array.  The
    object strict-parses and coerces to [Project] with no error, and yet
    [ParseWithScore] fails, in strict mode and otherwise: the array
    candidate, tried last, fails to coerce, its error is stored in
    [bestErr], and the final test [bestErr != nil] discards the result kept
    so far.  A failure of one candidate is thus not swallowed. *)
Theorem ParseWithScore_fails_after_successful_candidate :
  let failure := ErrParse (Some (ErrConvert (Some (TSlice TInterface)) "struct")) in
  ExtractJSON (RT := RefRuntime.runtime) fenced_project
  = Ok [mkCandidate project_object 8; mkCandidate project_object 8;
        mkCandidate (requote "['task1', 'task2', 'task3']") 80] /\
  (exists raw,
     json.Unmarshal (RT := RefRuntime.runtime) project_object = Ok raw /\
     Coerce (RT := RefRuntime.runtime) raw Project 0
     = (Ok project_value, mkScore (Some ∅) 0, 1)) /\
  fst (ParseWithScore (RT := RefRuntime.runtime) false fenced_project Project 0)
  = Err failure /\
  fst (ParseWithScore (RT := RefRuntime.runtime) true fenced_project Project 0)
  = Err failure.
Proof.
  cbv zeta. split; [vm_compute; reflexivity|]. split.
  - destruct (json.Unmarshal (RT := RefRuntime.runtime) project_object)
      as [raw| |] eqn:E; [|vm_compute in E; discriminate..].
    exists raw. split; [done|].
    vm_compute in E. injection E as <-. vm_compute. reflexivity.
  - split; vm_compute; reflexivity.
Qed.

(** C2. The seed stands for the state of the Go runtime's randomised map
    iteration, which is no input of the package.  On the same text and the
    same target two such states give different results: with the keys NAME
    and nAME, both of which match the field Name without regard to case,
    the field receives a or b, whichever key the [range] over the object
    meets first; with the keys ON and oN the value is the same and the
    score total is 1 or 2. *)
Theorem ParseWithScore_depends_on_map_order :
  (exists sc,
     fst (ParseWithScore (RT := RefRuntime.runtime) false two_spellings Named 0)
     = Ok (GStruct Named [GString "a"], sc) /\
     fst (ParseWithScore (RT := RefRuntime.runtime) false two_spellings Named 1)
     = Ok (GStruct Named [GString "b"], sc)) /\
  (exists sc1 sc2,
     fst (ParseWithScore (RT := RefRuntime.runtime) false two_flags Flagged 0)
     = Ok (GStruct Flagged [GBool true], sc1) /\
     fst (ParseWithScore (RT := RefRuntime.runtime) false two_flags Flagged 1)
     = Ok (GStruct Flagged [GBool true], sc2) /\
     Total sc1 = 1 /\ Total sc2 = 2).
Proof.
  split.
  - eexists. split; vm_compute; reflexivity.
  - do 2 eexists. repeat split; vm_compute; reflexivity.
Qed.

(** C3. The repairer closes the object left open in [open_object], and the
    result strict-parses.  Run again on that result it looks, at the closing
    brace, for a value without quotes: the scan back stops at the colon
    inside the string x:y, and the text after it is wrapped in quotes.
    The second result does not strict-parse. *)
Theorem FixJSON_breaks_its_own_output :
  FixJSON (RT := RefRuntime.runtime) open_object = Ok closed_object /\
  FixJSON (RT := RefRuntime.runtime) closed_object = Ok requoted_object /\
  isValidJSON (RT := RefRuntime.runtime) closed_object = true /\
  isValidJSON (RT := RefRuntime.runtime) requoted_object = false.
Proof. repeat split; vm_compute; reflexivity. Qed.

(** * Further properties of the package *)

(** ** sap.go: what [ParseWithScore] returns *)

Section ParseProps.
Context `{RT : GoRuntime}.

Lemma ExtractJSON_Ok_nonempty input cs : ExtractJSON input = Ok cs -> cs ≠ [].
Proof.
  unfold ExtractJSON. destruct (isValidJSON _); [by intros [= <-]|].
  destruct (length _ =? 0)%nat eqn:E; [done|]. intros [= <-].
  apply Nat.eqb_neq in E. by destruct (_ ++ _).
Qed.

Lemma ExtractJSON_Err input e : ExtractJSON input = Err e -> e = ErrNoJSON.
Proof.
  unfold ExtractJSON. destruct (isValidJSON _); [done|].
  destruct (length _ =? 0)%nat; [by intros [= <-] | done].
Qed.

Lemma ExtractJSON_never_panics input msg : ExtractJSON input ≠ Panic msg.
Proof.
  unfold ExtractJSON. destruct (isValidJSON _); [done|].
  by destruct (length _ =? 0)%nat.
Qed.

(** X1. [ExtractJSON] never succeeds with an empty list of candidates and
    fails only for want of a candidate.  [ParseWithScore] therefore never
    answers with its own no JSON found in input: when the text holds no
    candidate, the error is the extractor's, wrapped as failed to extract
    JSON, and that is the only extraction failure there is. *)
Theorem ParseWithScore_no_json_is_extract_error
    (strict : bool) (input : string) (targetType : GoType) (sd : Seed) :
  (forall cs, ExtractJSON input = Ok cs -> cs ≠ []) /\
  fst (ParseWithScore strict input targetType sd) ≠ Err ErrNoJSON /\
  (forall e, fst (ParseWithScore strict input targetType sd) = Err (ErrExtract e) <->
             e = ErrNoJSON /\ ExtractJSON input = Err ErrNoJSON).
Proof.
  split; [apply ExtractJSON_Ok_nonempty|].
  unfold ParseWithScore.
  destruct (ExtractJSON input) as [cs|e0|msg] eqn:E.
  - pose proof (ExtractJSON_Ok_nonempty _ _ E) as Hne.
    destruct cs as [|c cs]; [done|]. cbn [length Nat.eqb].
    destruct (candidates_loop _ _ _ _ _) as [[b|] sd'].
    + destruct (bestErr b) as [be|], (bestScore b) as [bs|]; cbn; split; try done;
        intros x; split; try done; by intros [_ ?].
    + cbn. split; [done|]. intros x; split; [done | by intros [_ ?]].
  - apply ExtractJSON_Err in E as ->. cbn. split; [done|].
    intros x. split; [by intros [= <-] | by intros [-> _]].
  - by destruct (ExtractJSON_never_panics input msg).
Qed.

(** X2. When the input, trimmed, is valid JSON, [ParseWithScore] returns the
    coercion of the decoded input and nothing else: the strict option makes
    no difference, no repair is tried, a coercion error comes back wrapped
    as a parse failure. *)
Theorem ParseWithScore_valid_input
    (strict : bool) (input : string) (targetType : GoType) (sd : Seed) (raw : Value) :
  json.Unmarshal (strings.TrimSpace input) = Ok raw ->
  ParseWithScore strict input targetType sd =
    match Coerce raw targetType sd with
    | (Ok res, sc, sd') => (Ok (res, sc), sd')
    | (Err e, _, sd') => (Err (ErrParse (Some e)), sd')
    | (Panic _, _, sd') => (Panic "reflect", sd')
    end.
Proof.
  intros Hu. unfold ParseWithScore, ExtractJSON, isValidJSON. rewrite Hu.
  cbn [length Nat.eqb candidates_loop]. unfold try_candidate.
  cbn [JSON]. rewrite Hu. cbn [bestScore].
  by destruct (Coerce raw targetType sd) as [[[res|e|msg] sc] sd'].
Qed.

Lemma try_candidate_sound strict t c cs b sd b' sd' :
  best_sound strict t cs b ->
  try_candidate strict t c b sd = (Some b', sd') ->
  best_sound strict t (cs ++ [c]) b'.
Proof.
  intros Hb Ht.
  assert (Hold : best_sound strict t (cs ++ [c]) b).
  { intros sc Hsc. destruct (Hb sc Hsc) as (c0 & raw & sd1 & sd2 & Hin & Hd & Hc).
    exists c0, raw, sd1, sd2. split; [|done]. apply elem_of_app. by left. }
  assert (Hkeep : forall e, best_sound strict t (cs ++ [c])
                              (mkBest (bestResult b) (bestScore b) e)).
  { intros e sc Hsc. exact (Hold sc Hsc). }
  assert (Hco : forall raw, decodes_to strict c raw ->
            match Coerce raw t sd with
            | (Ok res, candScore, sd') =>
                if match bestScore b with
                   | None => true
                   | Some bs => Less candScore bs
                   end
                then (Some (mkBest res (Some candScore) None), sd')
                else (Some b, sd')
            | (Err err, _, sd') =>
                (Some (mkBest (bestResult b) (bestScore b) (Some err)), sd')
            | (Panic _, _, sd') => (None, sd')
            end = (Some b', sd') -> best_sound strict t (cs ++ [c]) b').
  { intros raw Hd. destruct (Coerce raw t sd) as [[[res|e|msg] sc] sd1] eqn:Ec.
    - destruct (match bestScore b with None => true | Some bs => Less sc bs end).
      + intros [= <- <-]. intros sc' [= <-]. exists c, raw, sd, sd1.
        split; [|done]. apply elem_of_app. right. by apply list_elem_of_singleton.
      + by intros [= <- <-].
    - intros [= <- <-]. apply Hkeep.
    - done. }
  unfold try_candidate in Ht.
  destruct (json.Unmarshal (JSON c)) as [raw|e|msg] eqn:Eu.
  - apply (Hco raw); [by left | done].
  - destruct strict; [by injection Ht as <- <-|].
    destruct (FixJSON (JSON c)) as [fixed|e1|m1] eqn:Ef.
    + destruct (json.Unmarshal fixed) as [raw|e2|m2] eqn:Eu2.
      * apply (Hco raw); [|done]. right. split; [done|]. split; [by rewrite Eu|].
        by exists fixed.
      * injection Ht as <- <-. apply Hkeep.
      * done.
    + injection Ht as <- <-. apply Hkeep.
    + done.
  - destruct strict; [by injection Ht as <- <-|].
    destruct (FixJSON (JSON c)) as [fixed|e1|m1] eqn:Ef.
    + destruct (json.Unmarshal fixed) as [raw|e2|m2] eqn:Eu2.
      * apply (Hco raw); [|done]. right. split; [done|]. split; [by rewrite Eu|].
        by exists fixed.
      * injection Ht as <- <-. apply Hkeep.
      * done.
    + injection Ht as <- <-. apply Hkeep.
    + done.
Qed.

Lemma candidates_loop_sound strict t cs done_ b sd b' sd' :
  best_sound strict t done_ b ->
  candidates_loop strict t cs b sd = (Some b', sd') ->
  best_sound strict t (done_ ++ cs) b'.
Proof.
  revert done_ b sd. induction cs as [|c cs IH]; intros done_ b sd Hb Hl.
  - cbn in Hl. injection Hl as <- <-. by rewrite app_nil_r.
  - cbn [candidates_loop] in Hl.
    destruct (try_candidate strict t c b sd) as [[b1|] sd1] eqn:Et; [|done].
    replace (done_ ++ c :: cs) with ((done_ ++ [c]) ++ cs)
      by (by rewrite <- app_assoc).
    eapply IH; [|exact Hl]. by eapply try_candidate_sound.
Qed.

(** X3. Whatever [ParseWithScore] returns without error is the coercion, with
    its score, of one of the candidates the extractor found, decoded as it
    stands or (outside strict mode) after repair: it makes up no value of its
    own and mixes no two candidates. *)
Theorem ParseWithScore_result_is_a_candidate
    (strict : bool) (input : string) (targetType : GoType) (sd sd' : Seed)
    (res : GoValue) (sc : Score) :
  ParseWithScore strict input targetType sd = (Ok (res, sc), sd') ->
  exists cs c raw sd1 sd2,
    ExtractJSON input = Ok cs /\ c ∈ cs /\ decodes_to strict c raw /\
    Coerce raw targetType sd1 = (Ok res, sc, sd2).
Proof.
  unfold ParseWithScore. destruct (ExtractJSON input) as [cs|e|msg]; [|done..].
  destruct (length cs =? 0)%nat; [done|].
  destruct (candidates_loop _ _ _ _ _) as [[b|] sd1] eqn:El; [|done].
  destruct (bestErr b); [done|]. destruct (bestScore b) as [sc0|] eqn:Es; [|done].
  intros [= <- <- <-].
  assert (H0 : best_sound strict targetType [] (mkBest GNil None None)) by done.
  destruct (candidates_loop_sound _ _ _ _ _ _ _ _ H0 El sc0 Es)
    as (c & raw & s1 & s2 & Hin & Hd & Hc).
  by exists cs, c, raw, s1, s2.
Qed.

Lemma candidates_loop_strict_unparsable t cs b sd :
  Forall (fun c => forall v, json.Unmarshal (JSON c) ≠ Ok v) cs ->
  candidates_loop true t cs b sd = (Some b, sd).
Proof.
  induction 1 as [|c cs Hc _ IH]; [done|]. cbn [candidates_loop].
  unfold try_candidate.
  destruct (json.Unmarshal (JSON c)) as [v|e|msg] eqn:E; [by destruct (Hc v)|..];
    exact IH.
Qed.

(** X4. In strict mode a candidate that does not decode is passed over
    without a trace.  When none of the candidates decodes, [ParseWithScore]
    fails with a parse error that wraps no cause (a nil error). *)
Theorem ParseWithScore_strict_nothing_decodes
    (input : string) (targetType : GoType) (sd : Seed) (cs : list JSONCandidate) :
  ExtractJSON input = Ok cs ->
  Forall (fun c => forall v, json.Unmarshal (JSON c) ≠ Ok v) cs ->
  ParseWithScore true input targetType sd = (Err (ErrParse None), sd).
Proof.
  intros He Hcs. unfold ParseWithScore. rewrite He.
  pose proof (ExtractJSON_Ok_nonempty _ _ He).
  destruct cs as [|c cs]; [done|]. cbn [length Nat.eqb].
  by rewrite candidates_loop_strict_unparsable.
Qed.

End ParseProps.

Lemma ParseWithScore_valid_input_witness :
  json.Unmarshal (RT := RefRuntime.runtime) (strings.TrimSpace padded_object)
  = Ok (VObject [("a", VArray [VBool true; VNull])]) /\
  ParseWithScore (RT := RefRuntime.runtime) true padded_object
    (TMap TString (TPtr TBool)) 0 =
    match Coerce (RT := RefRuntime.runtime)
            (VObject [("a", VArray [VBool true; VNull])]) (TMap TString (TPtr TBool)) 0 with
    | (Ok res, sc, sd') => (Ok (res, sc), sd')
    | (Err e, _, sd') => (Err (ErrParse (Some e)), sd')
    | (Panic _, _, sd') => (Panic "reflect", sd')
    end.
Proof.
  assert (H : json.Unmarshal (RT := RefRuntime.runtime) (strings.TrimSpace padded_object)
              = Ok (VObject [("a", VArray [VBool true; VNull])]))
    by (vm_compute; reflexivity).
  split; [exact H|].
  exact (ParseWithScore_valid_input (RT := RefRuntime.runtime) true padded_object
           (TMap TString (TPtr TBool)) 0 _ H).
Defined.

Lemma ParseWithScore_result_is_a_candidate_witness :
  ParseWithScore (RT := RefRuntime.runtime) false two_spellings Named 0
  = (Ok (GStruct Named [GString "a"], mkScore (Some {[ "FuzzyFieldMatch" := 1 ]}) 1), 1) /\
  exists cs c raw sd1 sd2,
    ExtractJSON (RT := RefRuntime.runtime) two_spellings = Ok cs /\ c ∈ cs /\
    decodes_to (RT := RefRuntime.runtime) false c raw /\
    Coerce (RT := RefRuntime.runtime) raw Named sd1
    = (Ok (GStruct Named [GString "a"]),
       mkScore (Some {[ "FuzzyFieldMatch" := 1 ]}) 1, sd2).
Proof.
  assert (H : ParseWithScore (RT := RefRuntime.runtime) false two_spellings Named 0
              = (Ok (GStruct Named [GString "a"],
                     mkScore (Some {[ "FuzzyFieldMatch" := 1 ]}) 1), 1))
    by (vm_compute; reflexivity).
  split; [exact H|].
  exact (ParseWithScore_result_is_a_candidate (RT := RefRuntime.runtime)
           false two_spellings Named 0 1 _ _ H).
Defined.

Lemma ParseWithScore_strict_nothing_decodes_witness :
  ExtractJSON (RT := RefRuntime.runtime) bare_key_object
  = Ok [mkCandidate bare_key_object 0] /\
  Forall (fun c => forall v, json.Unmarshal (RT := RefRuntime.runtime) (JSON c) ≠ Ok v)
    [mkCandidate bare_key_object 0] /\
  ParseWithScore (RT := RefRuntime.runtime) true bare_key_object (TMap TString TBool) 0
  = (Err (ErrParse None), 0).
Proof.
  assert (H1 : ExtractJSON (RT := RefRuntime.runtime) bare_key_object
               = Ok [mkCandidate bare_key_object 0]) by (vm_compute; reflexivity).
  assert (H2 : Forall (fun c => forall v,
                 json.Unmarshal (RT := RefRuntime.runtime) (JSON c) ≠ Ok v)
                 [mkCandidate bare_key_object 0]).
  { constructor; [|constructor]. intros v Hv. vm_compute in Hv. discriminate Hv. }
  split; [exact H1|]. split; [exact H2|].
  exact (ParseWithScore_strict_nothing_decodes (RT := RefRuntime.runtime)
           bare_key_object (TMap TString TBool) 0 _ H1 H2).
Defined.

(** ** coercer.go: sequences, arrays and records at their edges *)

Section CoercerEdges.
Context `{RT : GoRuntime}.

(** The loop over the items, entered at index [i], keeps the length of
    [result] and every slot it does not walk over. *)
Lemma coerce_items_frame f items i res st res' st' :
  coerce_items f items i res st = (Ok res', st') ->
  length res' = length res /\
  forall j, (j < i \/ i + length items <= j)%nat -> res' !! j = res !! j.
Proof.
  revert i res st. induction items as [|x items IH]; intros i res st H.
  - cbn in H. by injection H as <- <-.
  - cbn [coerce_items] in H.
    apply bind_Ok_inv in H as (a & st1 & _ & H).
    apply bind_Ok_inv in H as (a' & st2 & _ & H).
    apply IH in H as [Hlen Hframe]. split.
    + by rewrite Hlen, length_insert.
    + intros j Hj. cbn [length] in Hj. rewrite Hframe by lia.
      apply list_lookup_insert_ne. lia.
Qed.

Lemma lookup_repeat_lt {A} (x : A) (n j : nat) :
  (j < n)%nat -> repeat x n !! j = Some x.
Proof.
  revert j. induction n as [|n IH]; intros [|j] Hj; cbn; try lia; [done|].
  apply IH. lia.
Qed.

Lemma slice_type_differs elemType :
  elemType ≠ TInterface ->
  type_matches (typeOf (VArray [])) (TSlice elemType) = false.
Proof.
  intros Hne. cbn. destruct (GoType_eqb TInterface elemType) eqn:E; [|done].
  by apply GoType_eqb_interface in E.
Qed.

(** X5. A null among the elements makes the coercion to a slice panic: the
    coerced element is nil, and [reflect.ValueOf(nil)] cannot be stored with
    [Set].  This holds for every element type but [interface{}] (for which
    the array is returned as it is), once the elements before the null have
    been coerced; nothing recovers from the panic. *)
Theorem coerceToSlice_null_element_panics
    (elemType : GoType) (pre post : list Value) (st st1 : CState) (res1 : list GoValue) :
  elemType ≠ TInterface ->
  coerce_items (fun v => coerceValue v elemType) pre 0
    (repeat (zeroValue elemType) (length (pre ++ VNull :: post))) st = (Ok res1, st1) ->
  exists msg,
    coerceValue (VArray (pre ++ VNull :: post)) (TSlice elemType) st = (Panic msg, st1).
Proof.
  intros Hne Hpre. rewrite coerceValue_slice.
  change (typeOf (VArray (pre ++ VNull :: post))) with (typeOf (VArray [])).
  rewrite (slice_type_differs _ Hne). unfold coerceToSlice.
  eexists. apply bind_Panic.
  rewrite (coerce_items_app _ _ _ _ _ _ _ _ Hpre). cbn [coerce_items].
  rewrite (bind_Ok _ _ _ _ _ (coerceValue_null elemType st1)).
  apply bind_Panic. reflexivity.
Qed.

(** X6. Coercion to an array type [[n]T] looks at the first [n] items only:
    the items beyond, even ones that could not be coerced, change nothing.
    What it returns is an array of exactly [n] elements, and the slots for
    which the value has no item hold the zero value of [T]. *)
Theorem coerceToArray_bounds
    (items : list Value) (n : nat) (elemType : GoType) (st : CState) :
  coerceValue (VArray items) (TArray n elemType) st
  = coerceValue (VArray (take n items)) (TArray n elemType) st /\
  forall g st',
    coerceValue (VArray items) (TArray n elemType) st = (Ok g, st') ->
    exists res, g = GArray elemType res /\ length res = n /\
      forall j, (length items <= j < n)%nat -> res !! j = Some (zeroValue elemType).
Proof.
  split.
  - cbn [coerceValue typeOf type_matches GoType_eqb]. unfold coerceToArray.
    by rewrite take_take, Nat.min_id.
  - intros g st'. cbn [coerceValue typeOf type_matches GoType_eqb].
    unfold coerceToArray. intros H.
    apply bind_Ok_inv in H as (res & st1 & Hitems & Hret).
    injection Hret as <- <-.
    apply coerce_items_frame in Hitems as [Hlen Hframe].
    exists res. split; [done|]. rewrite Hlen, repeat_length. split; [done|].
    intros j Hj. rewrite Hframe.
    + apply lookup_repeat_lt. lia.
    + right. rewrite length_take. lia.
Qed.

(** X7. A field that is not exported cannot be set through package reflect.
    When an object holds a key that resolves to such a field and the value
    coerces (a null included), the coercion to the record panics, the fields
    before it having been handled. *)
Theorem coerceToStruct_unexported_field_panics
    (mapVal : list (string * Value)) (fields fs1 fs2 : list (StructField GoType))
    (f : StructField GoType) (st st1 st2 st3 : CState) (res1 : list GoValue)
    (k : string) (v : Value) (elem : GoValue) :
  fields = fs1 ++ f :: fs2 ->
  PkgPath f ≠ "" ->
  coerce_fields coerceValue mapVal fs1 0
    (map (fun f => zeroValue (FieldType f)) fields) st = (Ok res1, st1) ->
  resolve_field mapVal f st1 = (Ok (k, v), st2) -> k ≠ "" ->
  coerceValue v (FieldType f) st2 = (Ok elem, st3) ->
  exists msg, coerceValue (VObject mapVal) (TStruct fields) st = (Panic msg, st3).
Proof.
  intros Hf Hpkg Hpre Hres Hk Hv. rewrite coerceValue_struct.
  eexists. apply bind_Panic. rewrite Hf at 1.
  rewrite (coerce_fields_app _ _ _ _ _ _ _ _ Hpre), coerce_fields_cons.
  apply bind_Panic. unfold field_round.
  rewrite (bind_Ok _ _ _ _ _ Hres). cbn [fst snd].
  assert (Hne : nonempty k = true).
  { unfold nonempty. destruct (String.eqb_spec k ""); done. }
  rewrite Hne.
  assert (Ha : attempt (coerceValue v (FieldType f)) st2 = (Ok (inr elem), st3)).
  { unfold attempt. by rewrite Hv. }
  rewrite (bind_Ok _ _ _ _ _ Ha).
  assert (Hp : nonempty (PkgPath f) = true).
  { unfold nonempty. destruct (String.eqb_spec (PkgPath f) ""); done. }
  destruct elem; unfold set_field; rewrite Hp; reflexivity.
Qed.

End CoercerEdges.

Lemma coerceToSlice_null_element_panics_witness :
  let st := mkCState (mkScore (Some ∅) 0) 0 in
  TInt KInt ≠ TInterface /\
  coerce_items (fun v => coerceValue (RT := RefRuntime.runtime) v (TInt KInt))
    [VNumber 1] 0
    (repeat (zeroValue (TInt KInt)) (length ([VNumber 1] ++ VNull :: [VNumber 3]))) st
  = (Ok [GInt KInt 1; GInt KInt 0; GInt KInt 0], st) /\
  exists msg,
    coerceValue (RT := RefRuntime.runtime)
      (VArray ([VNumber 1] ++ VNull :: [VNumber 3])) (TSlice (TInt KInt)) st
    = (Panic msg, st).
Proof.
  cbv zeta.
  assert (H1 : TInt KInt ≠ TInterface) by discriminate.
  assert (H2 : coerce_items
                 (fun v => coerceValue (RT := RefRuntime.runtime) v (TInt KInt))
                 [VNumber 1] 0
                 (repeat (zeroValue (TInt KInt))
                    (length ([VNumber 1] ++ VNull :: [VNumber 3])))
                 (mkCState (mkScore (Some ∅) 0) 0)
               = (Ok [GInt KInt 1; GInt KInt 0; GInt KInt 0],
                  mkCState (mkScore (Some ∅) 0) 0))
    by (vm_compute; reflexivity).
  split; [exact H1|]. split; [exact H2|].
  exact (coerceToSlice_null_element_panics (RT := RefRuntime.runtime)
           (TInt KInt) [VNumber 1] [VNumber 3] _ _ _ H1 H2).
Defined.

Example coerceToArray_surplus_and_missing :
  let st := mkCState (mkScore (Some ∅) 0) 0 in
  coerceValue (RT := RefRuntime.runtime)
    (VArray [VNumber 1; VNumber 2; VString "x"]) (TArray 2 (TInt KInt)) st
  = (Ok (GArray (TInt KInt) [GInt KInt 1; GInt KInt 2]), st) /\
  coerceValue (RT := RefRuntime.runtime)
    (VArray [VNumber 1]) (TArray 3 (TInt KInt)) st
  = (Ok (GArray (TInt KInt) [GInt KInt 1; GInt KInt 0; GInt KInt 0]), st).
Proof. split; vm_compute; reflexivity. Qed.

Lemma coerceToStruct_unexported_field_panics_witness :
  let st := mkCState (mkScore (Some ∅) 0) 0 in
  let f := mkField "name" "main" None TString in
  let mapVal := [("name", VString "Ann")] in
  [f] = [] ++ f :: [] /\
  PkgPath f ≠ "" /\
  coerce_fields (coerceValue (RT := RefRuntime.runtime)) mapVal [] 0
    (map (fun f => zeroValue (FieldType f)) [f]) st = (Ok [GString ""], st) /\
  resolve_field (RT := RefRuntime.runtime) mapVal f st = (Ok ("name", VString "Ann"), st) /\
  "name" ≠ "" /\
  coerceValue (RT := RefRuntime.runtime) (VString "Ann") (FieldType f) st
  = (Ok (GString "Ann"), st) /\
  exists msg,
    coerceValue (RT := RefRuntime.runtime) (VObject mapVal) (TStruct [f]) st
    = (Panic msg, st).
Proof.
  cbv zeta.
  set (st := mkCState (mkScore (Some ∅) 0) 0).
  set (f := mkField "name" "main" None TString).
  set (mapVal := [("name", VString "Ann")]).
  assert (H1 : [f] = [] ++ f :: []) by reflexivity.
  assert (H2 : PkgPath f ≠ "") by discriminate.
  assert (H3 : coerce_fields (coerceValue (RT := RefRuntime.runtime)) mapVal [] 0
                 (map (fun f => zeroValue (FieldType f)) [f]) st = (Ok [GString ""], st))
    by reflexivity.
  assert (H4 : resolve_field (RT := RefRuntime.runtime) mapVal f st
               = (Ok ("name", VString "Ann"), st)) by (vm_compute; reflexivity).
  assert (H5 : "name" ≠ "") by discriminate.
  assert (H6 : coerceValue (RT := RefRuntime.runtime) (VString "Ann") (FieldType f) st
               = (Ok (GString "Ann"), st)) by reflexivity.
  repeat (split; [assumption|]).
  exact (coerceToStruct_unexported_field_panics (RT := RefRuntime.runtime)
           mapVal [f] [] [] f st st st st _ _ _ _ H1 H2 H3 H4 H5 H6).
Defined.

(** ** The enum coercer: the distance *)

(** *** Edit scripts and the recursion [lev] *)

Lemma lev_nil_r a : lev a [] = length a.
Proof. by destruct a. Qed.

Lemma lev_cons_cons x a y b :
  lev (x :: a) (y :: b) =
  Nat.min (Nat.min (S (lev a (y :: b))) (S (lev (x :: a) b)))
          (subst_cost x y + lev a b).
Proof. reflexivity. Qed.

Lemma subst_cost_le x y : (subst_cost x y <= 1)%nat.
Proof. unfold subst_cost. destruct (x =? y); lia. Qed.

Lemma subst_cost_refl x : subst_cost x x = 0%nat.
Proof. unfold subst_cost. by rewrite Z.eqb_refl. Qed.

Lemma subst_cost_0 x y : subst_cost x y = 0%nat -> x = y.
Proof. unfold subst_cost. destruct (Z.eqb_spec x y); [done | discriminate]. Qed.

Lemma subst_cost_sym x y : subst_cost x y = subst_cost y x.
Proof. unfold subst_cost. by rewrite Z.eqb_sym. Qed.

Lemma subst_cost_triangle x y z :
  (subst_cost x z <= subst_cost x y + subst_cost y z)%nat.
Proof.
  unfold subst_cost.
  destruct (Z.eqb_spec x z), (Z.eqb_spec x y), (Z.eqb_spec y z); lia.
Qed.

Lemma script_only_insert b : script [] b (length b).
Proof. induction b; cbn; by constructor. Qed.

Lemma script_only_delete a : script a [] (length a).
Proof. induction a; cbn; by constructor. Qed.

(** [lev a b] is the cost of a script. *)
Lemma lev_script a b : script a b (lev a b).
Proof.
  revert b. induction a as [|x a IHa]; intros b; [apply script_only_insert|].
  induction b as [|y b IHb]; [apply (script_only_delete (x :: a))|].
  rewrite lev_cons_cons.
  destruct (Nat.min_spec (Nat.min (S (lev a (y :: b))) (S (lev (x :: a) b)))
              (subst_cost x y + lev a b)) as [[_ ->] | [_ ->]].
  - destruct (Nat.min_spec (S (lev a (y :: b))) (S (lev (x :: a) b)))
      as [[_ ->] | [_ ->]]; by constructor.
  - by constructor.
Qed.

(** No script is cheaper. *)
Lemma script_lev_le a b n : script a b n -> (lev a b <= n)%nat.
Proof.
  induction 1 as [|x a b n _ IH|y a b n _ IH|x y a b n _ IH].
  - done.
  - destruct b as [|y b]; [rewrite !lev_nil_r in *; cbn; lia|].
    rewrite lev_cons_cons. lia.
  - destruct a as [|x a]; [cbn in *; lia|].
    rewrite lev_cons_cons. lia.
  - rewrite lev_cons_cons. lia.
Qed.

Lemma script_snoc_delete a b n x : script a b n -> script (a ++ [x]) b (S n).
Proof.
  induction 1 as [|x' a b n _ IH|y a b n _ IH|x' y a b n _ IH]; cbn [app].
  - apply (script_delete x [] [] 0). constructor.
  - by apply script_delete.
  - by apply script_insert.
  - replace (S (subst_cost x' y + n)) with (subst_cost x' y + S n)%nat by lia.
    by apply script_subst.
Qed.

Lemma script_snoc_insert a b n y : script a b n -> script a (b ++ [y]) (S n).
Proof.
  induction 1 as [|x a b n _ IH|y' a b n _ IH|x y' a b n _ IH]; cbn [app].
  - apply (script_insert y [] [] 0). constructor.
  - by apply script_delete.
  - by apply script_insert.
  - replace (S (subst_cost x y' + n)) with (subst_cost x y' + S n)%nat by lia.
    by apply script_subst.
Qed.

Lemma script_snoc_subst a b n x y :
  script a b n -> script (a ++ [x]) (b ++ [y]) (subst_cost x y + n).
Proof.
  induction 1 as [|x' a b n _ IH|y' a b n _ IH|x' y' a b n _ IH]; cbn [app].
  - replace (subst_cost x y + 0)%nat with (subst_cost x y + 0)%nat by done.
    apply (script_subst x y [] [] 0). constructor.
  - replace (subst_cost x y + S n)%nat with (S (subst_cost x y + n)) by lia.
    by apply script_delete.
  - replace (subst_cost x y + S n)%nat with (S (subst_cost x y + n)) by lia.
    by apply script_insert.
  - replace (subst_cost x y + (subst_cost x' y' + n))%nat
      with (subst_cost x' y' + (subst_cost x y + n))%nat by lia.
    by apply script_subst.
Qed.

Lemma script_rev a b n : script a b n -> script (rev a) (rev b) n.
Proof.
  induction 1 as [|x a b n _ IH|y a b n _ IH|x y a b n _ IH]; cbn [rev].
  - constructor.
  - by apply script_snoc_delete.
  - by apply script_snoc_insert.
  - by apply script_snoc_subst.
Qed.

Lemma script_sym a b n : script a b n -> script b a n.
Proof.
  induction 1 as [|x a b n _ IH|y a b n _ IH|x y a b n _ IH].
  - constructor.
  - by apply script_insert.
  - by apply script_delete.
  - rewrite subst_cost_sym. by apply script_subst.
Qed.

Lemma lev_rev a b : lev (rev a) (rev b) = lev a b.
Proof.
  apply Nat.le_antisymm.
  - apply script_lev_le, script_rev, lev_script.
  - pose proof (script_rev _ _ _ (lev_script (rev a) (rev b))) as H.
    rewrite !rev_involutive in H. by apply script_lev_le.
Qed.

Lemma lev_sym a b : lev a b = lev b a.
Proof.
  apply Nat.le_antisymm; apply script_lev_le, script_sym, lev_script.
Qed.

Lemma lev_refl a : lev a a = 0%nat.
Proof.
  induction a as [|x a IH]; [done|]. rewrite lev_cons_cons, subst_cost_refl, IH. lia.
Qed.

Lemma script_lengths a b n :
  script a b n -> (length a <= length b + n /\ length b <= length a + n)%nat.
Proof.
  induction 1 as [|x a b n _ IH|y a b n _ IH|x y a b n _ IH]; cbn [length]; lia.
Qed.

Lemma script_0 a b : script a b 0 -> a = b.
Proof.
  remember 0%nat as n eqn:Hn. induction 1 as [|x a b n _ IH|y a b n _ IH|x y a b n _ IH];
    try done.
  assert (subst_cost x y = 0%nat) by lia.
  rewrite (subst_cost_0 x y) by done. f_equal. apply IH. lia.
Qed.

Lemma lev_0 a b : lev a b = 0%nat -> a = b.
Proof. intros H. apply script_0. rewrite <- H. apply lev_script. Qed.

Lemma lev_lower a b :
  (length a <= length b + lev a b /\ length b <= length a + lev a b)%nat.
Proof. apply script_lengths, lev_script. Qed.

Lemma lev_upper a b : (lev a b <= Nat.max (length a) (length b))%nat.
Proof.
  revert b. induction a as [|x a IHa]; intros b; [cbn; lia|].
  destruct b as [|y b]; [rewrite lev_nil_r; lia|].
  rewrite lev_cons_cons. specialize (IHa b). pose proof (subst_cost_le x y).
  cbn [length]. lia.
Qed.

(** Two scripts, run one after the other, are matched by one script that
    costs no more than the two together. *)
Lemma script_trans a b n :
  script a b n ->
  forall c m, script b c m -> exists k, (k <= n + m)%nat /\ script a c k.
Proof.
  induction 1 as [|x a b n _ IH|y a b n Hab IH|x y a b n Hab IH]; intros c m Hbc.
  - exists m. split; [lia | done].
  - destruct (IH c m Hbc) as (k & Hk & Hs).
    exists (S k). split; [lia | by constructor].
  - remember (y :: b) as yb eqn:Eyb.
    induction Hbc as [|y' b' c m Hbc _|z b' c m Hbc IHin|y' z b' c m Hbc _].
    + done.
    + injection Eyb as -> ->.
      destruct (IH c m Hbc) as (k & Hk & Hs). exists k. split; [lia | done].
    + destruct (IHin Eyb) as (k & Hk & Hs).
      exists (S k). split; [lia | by constructor].
    + injection Eyb as -> ->.
      destruct (IH c m Hbc) as (k & Hk & Hs).
      exists (S k). split; [lia | by constructor].
  - remember (y :: b) as yb eqn:Eyb.
    induction Hbc as [|y' b' c m Hbc _|z b' c m Hbc IHin|y' z b' c m Hbc _].
    + done.
    + injection Eyb as -> ->.
      destruct (IH c m Hbc) as (k & Hk & Hs).
      exists (S k). split; [lia | by constructor].
    + destruct (IHin Eyb) as (k & Hk & Hs).
      exists (S k). split; [lia | by constructor].
    + injection Eyb as -> ->.
      destruct (IH c m Hbc) as (k & Hk & Hs).
      exists (subst_cost x z + k)%nat. split; [|by constructor].
      pose proof (subst_cost_triangle x y z). lia.
Qed.

Lemma lev_triangle a b c : (lev a c <= lev a b + lev b c)%nat.
Proof.
  destruct (script_trans _ _ _ (lev_script a b) _ _ (lev_script b c)) as (k & Hk & Hs).
  apply script_lev_le in Hs. lia.
Qed.

(** *** The variadic [min] *)

Lemma fold_min_le (l : list Z) (m : Z) :
  fold_left (fun m v => if v <? m then v else m) l m <= m /\
  (forall v, v ∈ l -> fold_left (fun m v => if v <? m then v else m) l m <= v) /\
  (fold_left (fun m v => if v <? m then v else m) l m = m \/
   fold_left (fun m v => if v <? m then v else m) l m ∈ l).
Proof.
  revert m. induction l as [|x l IH]; intros m; cbn [fold_left].
  - split; [lia|]. split; [|by left]. intros v Hv. by apply elem_of_nil in Hv.
  - destruct (IH (if x <? m then x else m)) as (H1 & H2 & H3).
    destruct (Z.ltb_spec x m).
    + split; [lia|]. split.
      * intros v Hv. apply elem_of_cons in Hv as [->|Hv]; [done | by apply H2].
      * right. destruct H3 as [-> | H3]; [by left | by right].
    + split; [lia|]. split.
      * intros v Hv. apply elem_of_cons in Hv as [->|Hv]; [lia | by apply H2].
      * destruct H3 as [-> | H3]; [by left | right; by right].
Qed.

(** X8. [min] returns the least of its arguments: a member of the list at
    most equal to every member.  With no argument it returns 0. *)
Theorem min_is_least :
  min [] = 0 /\
  forall values : list Z, values ≠ [] ->
    min values ∈ values /\ forall v, v ∈ values -> min values <= v.
Proof.
  split; [done|]. intros [|m l] Hne; [done|]. unfold min.
  destruct (fold_min_le (m :: l) m) as (H1 & H2 & H3). split; [|done].
  destruct H3 as [-> | H3]; [by left | done].
Qed.

Lemma min3 a b c : min [a; b; c] = Z.min (Z.min a b) c.
Proof.
  unfold min. cbn [fold_left]. rewrite Z.ltb_irrefl.
  destruct (Z.ltb_spec b a); [destruct (Z.ltb_spec c b) | destruct (Z.ltb_spec c a)];
    lia.
Qed.

(** *** The table of [levenshteinDistance] *)

Lemma fold_left_seq_inv {S : Type} (f : S -> nat -> S) (Inv : nat -> S -> Prop)
    (n start : nat) (s : S) :
  Inv start s ->
  (forall k s, (start <= k < start + n)%nat -> Inv k s -> Inv (Datatypes.S k) (f s k)) ->
  Inv (start + n)%nat (fold_left f (seq start n) s).
Proof.
  revert start s. induction n as [|n IH]; intros start s H0 Hstep; cbn [seq fold_left].
  - by rewrite Nat.add_0_r.
  - replace (start + Datatypes.S n)%nat with (Datatypes.S start + n)%nat by lia.
    apply IH.
    + apply Hstep; [lia | done].
    + intros k s' Hk. apply Hstep. lia.
Qed.

Lemma dp_set_shape dp i j v rows cols :
  table_shape dp rows cols -> table_shape (dp_set dp i j v) rows cols.
Proof.
  intros [Hl Hf]. unfold dp_set.
  destruct (decide (i < length dp)%nat) as [Hi|Hi].
  - split; [by rewrite length_insert|].
    apply Forall_insert; [done|]. rewrite length_insert.
    apply lookup_lt_is_Some_2 in Hi as [row Hrow].
    rewrite (nth_lookup_Some _ _ _ _ Hrow).
    by eapply (Forall_lookup_1 _ _ _ _ Hf).
  - by rewrite list_insert_ge by lia.
Qed.

Lemma dp_get_set_eq dp i j v rows cols :
  table_shape dp rows cols -> (i < rows)%nat -> (j < cols)%nat ->
  dp_get (dp_set dp i j v) i j = v.
Proof.
  intros [Hl Hf] Hi Hj. unfold dp_get, dp_set.
  assert (Hi' : (i < length dp)%nat) by lia.
  apply lookup_lt_is_Some_2 in Hi' as [row Hrow].
  rewrite (nth_lookup_Some _ _ _ _ Hrow).
  pose proof (Forall_lookup_1 _ _ _ _ Hf Hrow) as Hlen. cbn beta in Hlen.
  rewrite (nth_lookup_Some _ i [] (<[j := v]> row)).
  - apply nth_lookup_Some. apply list_lookup_insert_eq. lia.
  - apply list_lookup_insert_eq. apply lookup_lt_Some in Hrow. lia.
Qed.

Lemma dp_get_set_ne dp i j v i' j' :
  (i' ≠ i \/ j' ≠ j) -> dp_get (dp_set dp i j v) i' j' = dp_get dp i' j'.
Proof.
  intros Hne. unfold dp_get, dp_set.
  destruct (decide (i < length dp)%nat) as [Hi|Hi];
    [|by rewrite list_insert_ge by lia].
  destruct (decide (i' = i)) as [->|Hii].
  - apply lookup_lt_is_Some_2 in Hi as [row Hrow].
    rewrite (nth_lookup_Some _ _ _ _ Hrow).
    rewrite (nth_lookup_Some _ i [] (<[j := v]> row))
      by (apply list_lookup_insert_eq; by apply lookup_lt_Some in Hrow).
    rewrite !(nth_lookup _ j'). rewrite list_lookup_insert_ne by (destruct Hne; congruence).
    done.
  - rewrite !(nth_lookup _ i'). by rewrite list_lookup_insert_ne.
Qed.

Section Table.
Variables r1 r2 : list rune.
Hypothesis Hfit1 : Z.of_nat (length r1) < GoInt.MaxInt64.
Hypothesis Hfit2 : Z.of_nat (length r2) < GoInt.MaxInt64.

Lemma prefix_distance_0_l j :
  (j <= length r2)%nat -> prefix_distance r1 r2 0 j = Z.of_nat j.
Proof.
  intros Hj. unfold prefix_distance. change (take 0 r1) with (@nil rune).
  cbn [rev lev]. by rewrite length_rev, length_take, Nat.min_l.
Qed.

Lemma prefix_distance_0_r i :
  (i <= length r1)%nat -> prefix_distance r1 r2 i 0 = Z.of_nat i.
Proof.
  intros Hi. unfold prefix_distance. change (take 0 r2) with (@nil rune).
  cbn [rev]. by rewrite lev_nil_r, length_rev, length_take, Nat.min_l.
Qed.

Lemma rev_take_S (r : list rune) (i : nat) :
  (i < length r)%nat -> rev (take (S i) r) = nth i r 0 :: rev (take i r).
Proof.
  intros Hi. apply lookup_lt_is_Some_2 in Hi as [x Hx].
  rewrite (take_S_r _ _ _ Hx), rev_unit. by rewrite (nth_lookup_Some _ _ _ _ Hx).
Qed.

Lemma prefix_distance_S i j :
  (i < length r1)%nat -> (j < length r2)%nat ->
  prefix_distance r1 r2 (S i) (S j) =
  Z.min (Z.min (prefix_distance r1 r2 i (S j) + 1) (prefix_distance r1 r2 (S i) j + 1))
        (prefix_distance r1 r2 i j
         + (if negb (nth i r1 0 =? nth j r2 0) then 1 else 0)).
Proof.
  intros Hi Hj. unfold prefix_distance.
  rewrite !(rev_take_S r1 i), !(rev_take_S r2 j) by done.
  rewrite lev_cons_cons. rewrite <- !(rev_take_S r1 i), <- !(rev_take_S r2 j) by done.
  unfold subst_cost. destruct (nth i r1 0 =? nth j r2 0); cbn [negb]; lia.
Qed.

Lemma prefix_distance_bounds i j :
  (i <= length r1)%nat -> (j <= length r2)%nat ->
  0 <= prefix_distance r1 r2 i j < GoInt.MaxInt64.
Proof.
  intros Hi Hj. unfold prefix_distance.
  pose proof (lev_upper (rev (take i r1)) (rev (take j r2))) as Hu.
  rewrite !length_rev, !length_take in Hu. lia.
Qed.

Lemma add_small a b :
  0 <= a < GoInt.MaxInt64 -> 0 <= b <= 1 -> GoInt.add a b = a + b.
Proof.
  intros Ha Hb. apply add_exact.
  unfold GoInt.in_range, GoInt.MinInt64, GoInt.MaxInt64 in *. lia.
Qed.

Lemma repeat_shape rows cols : table_shape (repeat (repeat 0 cols) rows) rows cols.
Proof.
  split; [apply repeat_length|].
  induction rows; cbn; constructor; [apply repeat_length | done].
Qed.

(** The loop [for i := 0; i <= len1; i++ { dp[i][0] = i }]. *)
Lemma init_column dp rows cols :
  table_shape dp rows cols -> (0 < cols)%nat ->
  table_shape (fold_left (fun dp i => dp_set dp i 0 (Z.of_nat i)) (seq 0 rows) dp)
    rows cols /\
  forall i, (i < rows)%nat ->
    dp_get (fold_left (fun dp i => dp_set dp i 0 (Z.of_nat i)) (seq 0 rows) dp) i 0
    = Z.of_nat i.
Proof.
  intros Hs Hc.
  assert (H : (fun k dp' =>
             table_shape dp' rows cols /\
             forall i, (i < k)%nat -> (i < rows)%nat -> dp_get dp' i 0 = Z.of_nat i)
            (0 + rows)%nat
            (fold_left (fun dp i => dp_set dp i 0 (Z.of_nat i)) (seq 0 rows) dp)).
  { apply fold_left_seq_inv.
    - split; [done|]. intros i Hi. lia.
    - intros k dp' Hk [Hshape Hcells]. split; [by apply dp_set_shape|].
      intros i Hi Hr. destruct (decide (i = k)) as [->|Hne].
      + by apply (dp_get_set_eq _ _ _ _ rows cols).
      + rewrite dp_get_set_ne by (by left). apply Hcells; lia. }
  destruct H as [H1 H2]. split; [done|]. intros i Hi. apply H2; [cbn; lia | done].
Qed.

(** The loop [for j := 0; j <= len2; j++ { dp[0][j] = j }]. *)
Lemma init_row dp rows cols :
  table_shape dp rows cols -> (0 < rows)%nat ->
  (forall i, (i < rows)%nat -> dp_get dp i 0 = Z.of_nat i) ->
  let dp' := fold_left (fun dp j => dp_set dp 0 j (Z.of_nat j)) (seq 0 cols) dp in
  table_shape dp' rows cols /\
  (forall i, (i < rows)%nat -> dp_get dp' i 0 = Z.of_nat i) /\
  (forall j, (j < cols)%nat -> dp_get dp' 0 j = Z.of_nat j).
Proof.
  intros Hs Hr Hcol. cbv zeta.
  assert (H : (fun k dp' =>
             table_shape dp' rows cols /\
             (forall i, (i < rows)%nat -> dp_get dp' i 0 = Z.of_nat i) /\
             (forall j, (j < k)%nat -> (j < cols)%nat -> dp_get dp' 0 j = Z.of_nat j))
            (0 + cols)%nat
            (fold_left (fun dp j => dp_set dp 0 j (Z.of_nat j)) (seq 0 cols) dp)).
  { apply fold_left_seq_inv.
    - split; [done|]. split; [done|]. intros j Hj. lia.
    - intros k dp' Hk (Hshape & Hc & Hrow). split; [by apply dp_set_shape|]. split.
      + intros i Hi. destruct (decide (i = 0 /\ k = 0)%nat) as [[-> ->]|Hne].
        * apply (dp_get_set_eq _ _ _ _ rows cols); [done | lia | lia].
        * rewrite dp_get_set_ne by lia. by apply Hc.
      + intros j Hj Hjc. destruct (decide (j = k)) as [->|Hne].
        * by apply (dp_get_set_eq _ _ _ _ rows cols).
        * rewrite dp_get_set_ne by (by right). apply Hrow; lia. }
  destruct H as (H1 & H2 & H3). split; [done|]. split; [done|].
  intros j Hj. apply H3; [cbn; lia | done].
Qed.

Local Notation "'fill_cell' i" :=
  (fun dp j =>
     let cost := if negb (nth (i - 1) r1 0 =? nth (j - 1) r2 0) then 1 else 0 in
     dp_set dp i j
       (min [GoInt.add (dp_get dp (i - 1) j) 1;
             GoInt.add (dp_get dp i (j - 1)) 1;
             GoInt.add (dp_get dp (i - 1) (j - 1)) cost]))
  (at level 10, i at level 9, only parsing).

(** The inner loop [for j := 1; j <= len2; j++] on row [i]: the rows above
    and the first column being right, it fills row [i]. *)
Lemma fill_row dp i :
  (1 <= i <= length r1)%nat ->
  table_shape dp (length r1 + 1) (length r2 + 1) ->
  (forall i' j', (i' < i)%nat -> (j' <= length r2)%nat ->
     dp_get dp i' j' = prefix_distance r1 r2 i' j') ->
  (forall i', (i' <= length r1)%nat -> dp_get dp i' 0 = prefix_distance r1 r2 i' 0) ->
  table_shape (fold_left (fill_cell i) (seq 1 (length r2)) dp)
    (length r1 + 1) (length r2 + 1) /\
  (forall i' j', (i' < S i)%nat -> (j' <= length r2)%nat ->
     dp_get (fold_left (fill_cell i) (seq 1 (length r2)) dp) i' j'
     = prefix_distance r1 r2 i' j') /\
  (forall i', (i' <= length r1)%nat ->
     dp_get (fold_left (fill_cell i) (seq 1 (length r2)) dp) i' 0
     = prefix_distance r1 r2 i' 0).
Proof.
  intros Hi Hs Hrows Hcol.
  assert (H : (fun k dp' =>
             table_shape dp' (length r1 + 1) (length r2 + 1) /\
             (forall i' j', (i' < i)%nat -> (j' <= length r2)%nat ->
                dp_get dp' i' j' = prefix_distance r1 r2 i' j') /\
             (forall i', (i' <= length r1)%nat ->
                dp_get dp' i' 0 = prefix_distance r1 r2 i' 0) /\
             (forall j', (j' < k)%nat -> (j' <= length r2)%nat ->
                dp_get dp' i j' = prefix_distance r1 r2 i j'))
            (1 + length r2)%nat
            (fold_left (fill_cell i) (seq 1 (length r2)) dp)).
  { apply fold_left_seq_inv.
    - split; [done|]. split; [done|]. split; [done|].
      intros j' Hj' _. replace j' with 0%nat by lia. apply Hcol. lia.
    - intros k dp' Hk (Hshape & Hr & Hc & Hrow). cbv zeta.
      split; [by apply dp_set_shape|]. split; [|split].
      + intros i' j' Hi' Hj'. rewrite dp_get_set_ne by lia. by apply Hr.
      + intros i' Hi'. rewrite dp_get_set_ne by lia. by apply Hc.
      + intros j' Hj' Hjl. destruct (decide (j' = k)) as [->|Hne];
          [|rewrite dp_get_set_ne by lia; apply Hrow; lia].
        rewrite (dp_get_set_eq _ _ _ _ (length r1 + 1) (length r2 + 1)) by (done || lia).
        destruct i as [|i0]; [lia|]. destruct k as [|k0]; [lia|].
        replace (S i0 - 1)%nat with i0 by lia. replace (S k0 - 1)%nat with k0 by lia.
        rewrite (Hr i0 (S k0)), (Hrow k0), (Hr i0 k0) by lia.
        pose proof (prefix_distance_bounds i0 (S k0) ltac:(lia) ltac:(lia)) as B1.
        pose proof (prefix_distance_bounds (S i0) k0 ltac:(lia) ltac:(lia)) as B2.
        pose proof (prefix_distance_bounds i0 k0 ltac:(lia) ltac:(lia)) as B3.
        rewrite (add_small _ 1 B1), (add_small _ 1 B2) by lia.
        rewrite (add_small _ _ B3) by (destruct (negb _); lia).
        rewrite min3. symmetry. apply prefix_distance_S; lia. }
  destruct H as (H1 & H2 & H3 & H4). split; [done|]. split; [|done].
  intros i' j' Hi' Hj'. destruct (decide (i' = i)) as [->|Hne].
  - apply H4; lia.
  - apply H2; lia.
Qed.

(** The three loops of [levenshteinDistance] leave the distance between
    [r1] and [r2] in the last cell of the table. *)
Lemma table_result :
  (0 < length r1)%nat ->
  dp_get
    (fold_left (fun dp i => fold_left (fill_cell i) (seq 1 (length r2)) dp)
       (seq 1 (length r1))
       (fold_left (fun dp j => dp_set dp 0 j (Z.of_nat j)) (seq 0 (length r2 + 1))
          (fold_left (fun dp i => dp_set dp i 0 (Z.of_nat i)) (seq 0 (length r1 + 1))
             (repeat (repeat 0 (length r2 + 1)) (length r1 + 1)))))
    (length r1) (length r2)
  = Z.of_nat (lev r1 r2).
Proof.
  intros Hpos.
  destruct (init_column _ _ _ (repeat_shape (length r1 + 1) (length r2 + 1)))
    as [Hs1 Hc1]; [lia|].
  destruct (init_row _ _ _ Hs1) as (Hs2 & Hc2 & Hr2); [lia | done |].
  match goal with
  | |- dp_get (fold_left ?f _ ?dp0) _ _ = _ =>
      assert (H : (fun i dp' =>
                table_shape dp' (length r1 + 1) (length r2 + 1) /\
                (forall i' j', (i' < i)%nat -> (j' <= length r2)%nat ->
                   dp_get dp' i' j' = prefix_distance r1 r2 i' j') /\
                (forall i', (i' <= length r1)%nat ->
                   dp_get dp' i' 0 = prefix_distance r1 r2 i' 0))
               (1 + length r1)%nat (fold_left f (seq 1 (length r1)) dp0))
  end.
  { apply fold_left_seq_inv.
    - split; [done|]. split.
      + intros i' j' Hi' Hj'. replace i' with 0%nat by lia.
        rewrite prefix_distance_0_l by done. apply Hr2. lia.
      + intros i' Hi'. rewrite prefix_distance_0_r by done. apply Hc2. lia.
    - intros k dp' Hk (Hshape & Hr & Hc). apply fill_row; [lia | done..]. }
  destruct H as (_ & H & _). rewrite H by lia.
  unfold prefix_distance. by rewrite !firstn_all, lev_rev.
Qed.

End Table.

Lemma levenshteinDistance_lev s1 s2 :
  lengths_fit s1 s2 -> levenshteinDistance s1 s2 = Z.of_nat (lev (runes s1) (runes s2)).
Proof.
  intros [H1 H2]. unfold levenshteinDistance.
  destruct (length (runes s1) =? 0)%nat eqn:E1.
  - apply Nat.eqb_eq in E1. destruct (runes s1); [done | discriminate].
  - destruct (length (runes s2) =? 0)%nat eqn:E2.
    + apply Nat.eqb_eq in E2. destruct (runes s2); [|discriminate].
      by rewrite lev_nil_r.
    + apply Nat.eqb_neq in E1. apply (table_result _ _ H1 H2). lia.
Qed.

(** X9. [levenshteinDistance] is the edit distance between the two strings
    read as sequences of runes: the cost of a cheapest script of deletions,
    insertions and substitutions (one each) that turns the first into the
    second.  (The lengths are to leave room for one more on Go's [int].) *)
Theorem levenshteinDistance_least_script (s1 s2 : string) :
  lengths_fit s1 s2 ->
  exists n : nat,
    levenshteinDistance s1 s2 = Z.of_nat n /\
    script (runes s1) (runes s2) n /\
    forall m, script (runes s1) (runes s2) m -> (n <= m)%nat.
Proof.
  intros Hfit. exists (lev (runes s1) (runes s2)).
  split; [by apply levenshteinDistance_lev|]. split; [apply lev_script|].
  apply script_lev_le.
Qed.

(** X10. The distance is 0 exactly when the two strings hold the same
    runes. *)
Theorem levenshteinDistance_zero_iff (s1 s2 : string) :
  lengths_fit s1 s2 ->
  (levenshteinDistance s1 s2 = 0 <-> runes s1 = runes s2).
Proof.
  intros Hfit. rewrite levenshteinDistance_lev by done. split.
  - intros H. apply lev_0. lia.
  - intros ->. by rewrite lev_refl.
Qed.

(** X11. The distance does not depend on the order of its two arguments. *)
Theorem levenshteinDistance_symmetric (s1 s2 : string) :
  lengths_fit s1 s2 ->
  levenshteinDistance s1 s2 = levenshteinDistance s2 s1.
Proof.
  intros Hfit. rewrite !levenshteinDistance_lev; [by rewrite lev_sym | | done].
  destruct Hfit. by split.
Qed.

(** X12. The distance obeys the triangle inequality: going through a third
    string is never shorter. *)
Theorem levenshteinDistance_triangle (s1 s2 s3 : string) :
  lengths_fit s1 s2 -> lengths_fit s2 s3 ->
  levenshteinDistance s1 s3 <= levenshteinDistance s1 s2 + levenshteinDistance s2 s3.
Proof.
  intros [H1 H2] [_ H3]. rewrite !levenshteinDistance_lev by (by split).
  pose proof (lev_triangle (runes s1) (runes s2) (runes s3)). lia.
Qed.

(** X13. The distance lies between the difference of the two lengths (in
    runes) and the greater of them. *)
Theorem levenshteinDistance_bounds (s1 s2 : string) :
  lengths_fit s1 s2 ->
  Z.abs (Z.of_nat (length (runes s1)) - Z.of_nat (length (runes s2)))
  <= levenshteinDistance s1 s2
  <= Z.max (Z.of_nat (length (runes s1))) (Z.of_nat (length (runes s2))).
Proof.
  intros Hfit. rewrite levenshteinDistance_lev by done.
  pose proof (lev_lower (runes s1) (runes s2)).
  pose proof (lev_upper (runes s1) (runes s2)). lia.
Qed.

Lemma kitten_sitting_fit : lengths_fit "kitten" "sitting".
Proof. split; vm_compute; reflexivity. Qed.

Lemma levenshteinDistance_least_script_witness :
  lengths_fit "kitten" "sitting" /\
  exists n : nat,
    levenshteinDistance "kitten" "sitting" = Z.of_nat n /\
    script (runes "kitten") (runes "sitting") n /\
    forall m, script (runes "kitten") (runes "sitting") m -> (n <= m)%nat.
Proof.
  assert (H : lengths_fit "kitten" "sitting") by (split; vm_compute; reflexivity).
  split; [exact H|]. exact (levenshteinDistance_least_script "kitten" "sitting" H).
Defined.

Lemma levenshteinDistance_zero_iff_witness :
  lengths_fit "kitten" "kitten" /\
  (levenshteinDistance "kitten" "kitten" = 0 <-> runes "kitten" = runes "kitten").
Proof.
  assert (H : lengths_fit "kitten" "kitten") by (split; vm_compute; reflexivity).
  split; [exact H|]. exact (levenshteinDistance_zero_iff "kitten" "kitten" H).
Defined.

Lemma levenshteinDistance_symmetric_witness :
  lengths_fit "kitten" "sitting" /\
  levenshteinDistance "kitten" "sitting" = levenshteinDistance "sitting" "kitten".
Proof.
  assert (H : lengths_fit "kitten" "sitting") by (split; vm_compute; reflexivity).
  split; [exact H|]. exact (levenshteinDistance_symmetric "kitten" "sitting" H).
Defined.

Lemma levenshteinDistance_triangle_witness :
  lengths_fit "kitten" "mitten" /\ lengths_fit "mitten" "sitting" /\
  levenshteinDistance "kitten" "sitting"
  <= levenshteinDistance "kitten" "mitten" + levenshteinDistance "mitten" "sitting".
Proof.
  assert (H1 : lengths_fit "kitten" "mitten") by (split; vm_compute; reflexivity).
  assert (H2 : lengths_fit "mitten" "sitting") by (split; vm_compute; reflexivity).
  split; [exact H1|]. split; [exact H2|].
  exact (levenshteinDistance_triangle "kitten" "mitten" "sitting" H1 H2).
Defined.

Lemma levenshteinDistance_bounds_witness :
  lengths_fit "kitten" "sitting" /\
  Z.abs (Z.of_nat (length (runes "kitten")) - Z.of_nat (length (runes "sitting")))
  <= levenshteinDistance "kitten" "sitting"
  <= Z.max (Z.of_nat (length (runes "kitten"))) (Z.of_nat (length (runes "sitting"))).
Proof.
  assert (H : lengths_fit "kitten" "sitting") by (split; vm_compute; reflexivity).
  split; [exact H|]. exact (levenshteinDistance_bounds "kitten" "sitting" H).
Defined.

Example levenshteinDistance_kitten_sitting : levenshteinDistance "kitten" "sitting" = 3.
Proof. vm_compute. reflexivity. Qed.

(** *** The fuzzy matcher, once more *)

Section EnumMore.
Context `{RT : GoRuntime}.

(** What [fuzzyMatchEnum] picks on a list that is not empty. *)
Lemma fuzzyMatchEnum_pick (input : string) (enumValues : list string) :
  enumValues ≠ [] ->
  exists (i : nat) (best : string),
    enumValues !! i = Some best /\
    (forall j v, enumValues !! j = Some v ->
       stringDistance input best <= stringDistance input v) /\
    (forall j v, (j < i)%nat -> enumValues !! j = Some v ->
       stringDistance input best < stringDistance input v) /\
    fuzzyMatchEnum input enumValues =
      if stringDistance input best <=? Z.quot (GoInt.add (len input) (len best)) 2
      then best else "".
Proof.
  intros Hne. unfold fuzzyMatchEnum.
  set (score_of := fun enumValue : string => (enumValue, stringDistance input enumValue)).
  destruct enumValues as [|v0 vs]; [done|]. cbn [map fold_left].
  unfold closer. rewrite Z.ltb_irrefl. fold closer.
  destruct (fold_closer_earliest_least (map score_of vs) [score_of v0] 0 (score_of v0))
    as (i & Hi & Hmin & Hfirst).
  { repeat split; [|intros j r Hj; lia].
    intros [|j] r Hj; simpl in Hj; [|done]. injection Hj as <-. lia. }
  change ([score_of v0] ++ map score_of vs) with (map score_of (v0 :: vs)) in *.
  set (b := fold_left closer (map score_of vs) (score_of v0)) in *.
  rewrite lookup_map in Hi.
  destruct ((v0 :: vs) !! i) as [best|] eqn:Hbest; [|done].
  injection Hi as Hb. exists i, best.
  assert (Hfst : fst b = best) by (by rewrite <- Hb).
  assert (Hsnd : snd b = stringDistance input best) by (by rewrite <- Hb).
  split; [done|]. split; [|split].
  - intros j v Hj. rewrite <- Hsnd.
    apply (Hmin j (score_of v)). rewrite lookup_map, Hj. done.
  - intros j v Hlt Hj. rewrite <- Hsnd.
    apply (Hfirst j (score_of v) Hlt). rewrite lookup_map, Hj. done.
  - by rewrite Hfst, Hsnd.
Qed.

Lemma stringDistance_lev input w :
  lengths_fit (normalizeString input) (normalizeString w) ->
  stringDistance input w
  = Z.of_nat (lev (runes (normalizeString input)) (runes (normalizeString w))).
Proof. intros H. unfold stringDistance. by apply levenshteinDistance_lev. Qed.


(** X14. A label that reads like the query once case and accents are
    folded is always found: [fuzzyMatchEnum] returns the first label whose
    folded form holds the same runes as the folded query, whatever the other
    labels are.  (All lengths are to fit Go's [int].) *)
Theorem fuzzyMatchEnum_same_folded_label
    (input : string) (enumValues : list string) (i : nat) (v : string) :
  (forall w, w ∈ enumValues ->
     lengths_fit (normalizeString input) (normalizeString w)) ->
  GoInt.in_range (len input + len v) ->
  enumValues !! i = Some v ->
  runes (normalizeString v) = runes (normalizeString input) ->
  (forall j w, (j < i)%nat -> enumValues !! j = Some w ->
     runes (normalizeString w) ≠ runes (normalizeString input)) ->
  fuzzyMatchEnum input enumValues = v.
Proof.
  intros Hfit Hlen Hi Hv Hfirst.
  assert (Hne : enumValues ≠ []) by (by destruct enumValues).
  destruct (fuzzyMatchEnum_pick input enumValues Hne)
    as (i' & best & Hi' & Hmin & Hearly & ->).
  assert (Hd : forall k w, enumValues !! k = Some w ->
             stringDistance input w
             = Z.of_nat (lev (runes (normalizeString input)) (runes (normalizeString w)))).
  { intros k w Hk. apply stringDistance_lev, Hfit. by eapply list_elem_of_lookup_2. }
  assert (Hv0 : stringDistance input v = 0).
  { rewrite (Hd _ _ Hi), Hv, lev_refl. done. }
  assert (Hb0 : stringDistance input best = 0).
  { pose proof (Hmin _ _ Hi) as Hle. rewrite Hv0 in Hle. rewrite (Hd _ _ Hi') in *. lia. }
  assert (Hbest : runes (normalizeString best) = runes (normalizeString input)).
  { rewrite (Hd _ _ Hi') in Hb0. symmetry. apply lev_0. lia. }
  assert (i' = i) as ->.
  { destruct (Nat.lt_trichotomy i' i) as [Hlt | [-> | Hgt]]; [|done|].
    - by destruct (Hfirst _ _ Hlt Hi').
    - pose proof (Hearly _ _ Hgt Hi). lia. }
  assert (best = v) as -> by congruence.
  rewrite Hv0, add_exact by done.
  assert (0 <= Z.quot (len input + len v) 2).
  { apply Z.quot_pos; [unfold len; lia | lia]. }
  destruct (Z.leb_spec 0 (Z.quot (len input + len v) 2)); [done | lia].
Qed.

(** X15. [getEnumValues] returns no label, whatever the type.  [CoerceToEnum]
    therefore never matches anything: it returns the value turned into a
    string, as it is, and adds no flag to the score; it fails only on a value
    that is no string, number or boolean. *)
Theorem CoerceToEnum_returns_the_string
    (fmt_Sprintf_f : float -> string) (value : Value) (enumType : GoType) (st : CState) :
  CoerceToEnum fmt_Sprintf_f value enumType st =
    match coerceValueToString fmt_Sprintf_f value with
    | Ok stringVal => (Ok (GString stringVal), st)
    | Err err => (Err err, st)
    | Panic msg => (Panic msg, st)
    end.
Proof.
  unfold CoerceToEnum. by destruct (coerceValueToString fmt_Sprintf_f value).
Qed.

End EnumMore.


(** The upper-case query is one edit away from [Canceled] once both are
    folded, and eight edits away when they are compared as they stand. *)
Example fuzzyMatchEnum_folds_before_measuring :
  let norm := normalizeString (RT := RefRuntime.runtime) in
  lev (runes (norm "CANCELLED")) (runes (norm "Canceled")) = 1%nat /\
  lev (runes "CANCELLED") (runes "Canceled") = 8%nat /\
  fuzzyMatchEnum (RT := RefRuntime.runtime) "CANCELLED" ["Active"; "Canceled"; "Pending"]
  = "Canceled".
Proof. cbv zeta. repeat split; vm_compute; reflexivity. Qed.

Lemma fuzzyMatchEnum_same_folded_label_witness :
  let labels := ["Pending"; "active"; "Active"] in
  let norm := normalizeString (RT := RefRuntime.runtime) in
  (forall w, w ∈ labels -> lengths_fit (norm "ACTIVE") (norm w)) /\
  GoInt.in_range (len "ACTIVE" + len "active") /\
  labels !! 1%nat = Some "active" /\
  runes (norm "active") = runes (norm "ACTIVE") /\
  (forall j w, (j < 1)%nat -> labels !! j = Some w ->
     runes (norm w) ≠ runes (norm "ACTIVE")) /\
  fuzzyMatchEnum (RT := RefRuntime.runtime) "ACTIVE" labels = "active".
Proof.
  cbv zeta.
  assert (H1 : forall w, w ∈ ["Pending"; "active"; "Active"] ->
             lengths_fit (normalizeString (RT := RefRuntime.runtime) "ACTIVE")
                         (normalizeString (RT := RefRuntime.runtime) w)).
  { intros w Hw. repeat (apply elem_of_cons in Hw as [->|Hw]);
      [split; vm_compute; reflexivity.. | by apply elem_of_nil in Hw]. }
  assert (H2 : GoInt.in_range (len "ACTIVE" + len "active"))
    by (vm_compute; split; discriminate).
  assert (H3 : ["Pending"; "active"; "Active"] !! 1%nat = Some "active") by reflexivity.
  assert (H4 : runes (normalizeString (RT := RefRuntime.runtime) "active")
               = runes (normalizeString (RT := RefRuntime.runtime) "ACTIVE"))
    by (vm_compute; reflexivity).
  assert (H5 : forall j w, (j < 1)%nat -> ["Pending"; "active"; "Active"] !! j = Some w ->
             runes (normalizeString (RT := RefRuntime.runtime) w)
             ≠ runes (normalizeString (RT := RefRuntime.runtime) "ACTIVE")).
  { intros j w Hj Hw. destruct j as [|j]; [|lia]. injection Hw as <-.
    intros E. vm_compute in E. discriminate E. }
  repeat (split; [assumption|]).
  exact (fuzzyMatchEnum_same_folded_label (RT := RefRuntime.runtime)
           "ACTIVE" ["Pending"; "active"; "Active"] 1 "active" H1 H2 H3 H4 H5).
Defined.

(** ** extractor.go: the bracket scan and the empty harvest *)

Section ExtractorMore.
Context `{RT : GoRuntime}.

(** When the scan stops at depth 0 it has just read the closing rune. *)
Lemma scan_block_closes fuel rs openChar closeChar j depth inStr escaped d' j' :
  openChar ≠ closeChar -> 0 < depth -> GoInt.in_range depth ->
  scan_block fuel rs openChar closeChar j depth inStr escaped = (d', j') ->
  d' = 0 ->
  (j < j' <= length rs)%nat /\ nth (j' - 1) rs 0 = closeChar.
Proof.
  intros Hoc. revert j depth inStr escaped.
  induction fuel as [|fuel IH]; intros j depth inStr escaped Hd Hr H H0.
  - cbn in H. injection H as <- <-. lia.
  - cbn [scan_block] in H.
    destruct (Nat.ltb_spec j (length rs)) as [Hj|Hj]; cbn [andb] in H;
      [|injection H as <- <-; lia].
    destruct (Z.ltb_spec 0 depth); [|lia].
    assert (Hnext : forall depth' inStr' escaped',
              0 < depth' -> GoInt.in_range depth' ->
              scan_block fuel rs openChar closeChar (S j) depth' inStr' escaped'
              = (d', j') ->
              (j < j' <= length rs)%nat /\ nth (j' - 1) rs 0 = closeChar).
    { intros depth' inStr' escaped' Hd' Hr' H'.
      destruct (IH _ _ _ _ Hd' Hr' H' H0) as [Hlt Hc]. split; [lia | done]. }
    destruct escaped; [by eapply Hnext|].
    destruct (nth j rs 0 =? 92); [by eapply Hnext|].
    destruct (nth j rs 0 =? 34); cbn [andb negb] in H; [by eapply Hnext|].
    destruct inStr; cbn [negb] in H; [by eapply Hnext|].
    destruct (Z.eqb_spec (nth j rs 0) openChar) as [Ho|Ho].
    + (* one level deeper: still positive, or wrapped below zero *)
      pose proof (wrap_range (depth + 1)) as Hw. fold (GoInt.add depth 1) in Hw.
      destruct (Z.ltb_spec 0 (GoInt.add depth 1)) as [Hpos|Hneg];
        [by eapply Hnext|].
      exfalso.
      assert (Hres : (d', j') = (GoInt.add depth 1, S j)).
      { rewrite <- H. destruct fuel; cbn [scan_block]; [done|].
        destruct (Z.ltb_spec 0 (GoInt.add depth 1)); [lia|].
        by rewrite andb_false_r. }
      injection Hres as -> ->.
      unfold GoInt.add, GoInt.wrap, GoInt.in_range, GoInt.MinInt64, GoInt.MaxInt64 in *.
      destruct (Z.eq_dec depth (2 ^ 63 - 1)) as [->|Hne].
      * vm_compute in H0. discriminate H0.
      * rewrite Z.mod_small in H0 by lia. lia.
    + destruct (Z.eqb_spec (nth j rs 0) closeChar) as [Hc|Hc]; [|by eapply Hnext].
      assert (Hadd : GoInt.add depth (-1) = depth - 1).
      { apply add_exact.
        unfold GoInt.in_range, GoInt.MinInt64, GoInt.MaxInt64 in *. lia. }
      rewrite Hadd in H.
      destruct (Z.ltb_spec 0 (depth - 1)) as [Hpos|Hneg].
      * eapply Hnext; [exact Hpos | | exact H].
        unfold GoInt.in_range, GoInt.MinInt64, GoInt.MaxInt64 in *. lia.
      * assert (Hres : (d', j') = (depth - 1, S j)).
        { rewrite <- H. destruct fuel; cbn [scan_block]; [done|].
          destruct (Z.ltb_spec 0 (depth - 1)); [lia|].
          by rewrite andb_false_r. }
        injection Hres as -> ->. split; [lia|].
        by replace (S j - 1)%nat with j by lia.
Qed.

(** The candidates found from the positions [start], [start + 1], ...: one
    at most for each position, in that order. *)
Lemma blocks_from_seq (f : nat -> list JSONCandidate) (start n : nat) :
  (forall i c, c ∈ f i -> f i = [c] /\ Index c = Z.of_nat i) ->
  forall k1 k2 c1 c2,
    (k1 < k2)%nat ->
    flat_map f (seq start n) !! k1 = Some c1 ->
    flat_map f (seq start n) !! k2 = Some c2 ->
    Z.of_nat start <= Index c1 < Index c2.
Proof.
  intros Hf. revert start. induction n as [|n IH]; intros start k1 k2 c1 c2 Hk H1 H2;
    [done|].
  cbn [seq flat_map] in H1, H2.
  assert (Hlater : forall k c, flat_map f (seq (S start) n) !! k = Some c ->
             Z.of_nat start < Index c).
  { clear -Hf. revert start. induction n as [|n IHn]; intros start k c Hc; [done|].
    cbn [seq flat_map] in Hc. apply lookup_app_Some in Hc as [Hc | [_ Hc]].
    - apply list_elem_of_lookup_2 in Hc. destruct (Hf _ _ Hc) as [_ ->]. lia.
    - apply IHn in Hc. lia. }
  destruct (f start) as [|c0 l0] eqn:Ef.
  - cbn [app] in H1, H2. pose proof (IH _ _ _ _ _ Hk H1 H2). lia.
  - destruct (Hf start c0) as [Hone Hidx]; [rewrite Ef; by left|].
    rewrite Ef in Hone. injection Hone as ->. cbn [app] in H1, H2.
    destruct k1 as [|k1], k2 as [|k2]; try lia.
    + injection H1 as <-. cbn in H2. apply Hlater in H2. lia.
    + cbn in H1, H2. assert (Hk' : (k1 < k2)%nat) by lia.
      pose proof (IH _ _ _ _ _ Hk' H1 H2). lia.
Qed.

(** X16. Every candidate of [findJSONBlocks] is a stretch of the input, read
    as runes, that starts with the opening rune and ends with the closing
    one, at least two runes long; its [Index] is the position of its first
    rune counted in runes (not in bytes).  The candidates come in the order
    of their positions, no two from the same position. *)
Theorem findJSONBlocks_candidates
    (input : string) (openChar closeChar : rune) :
  openChar ≠ closeChar ->
  (forall cand, cand ∈ findJSONBlocks input openChar closeChar ->
     exists i j : nat,
       (i + 2 <= j <= length (runes input))%nat /\
       Index cand = Z.of_nat i /\
       JSON cand = string_of_runes (take (j - i) (drop i (runes input))) /\
       nth i (runes input) 0 = openChar /\
       nth (j - 1) (runes input) 0 = closeChar) /\
  (forall k1 k2 c1 c2, (k1 < k2)%nat ->
     findJSONBlocks input openChar closeChar !! k1 = Some c1 ->
     findJSONBlocks input openChar closeChar !! k2 = Some c2 ->
     Index c1 < Index c2).
Proof.
  intros Hoc. unfold findJSONBlocks. set (rs := runes input).
  set (f := fun i : nat =>
    if nth i rs 0 =? openChar then
      let '(depth, j) := scan_block (length rs) rs openChar closeChar (S i) 1 false false in
      if depth =? 0 then
        [mkCandidate (string_of_runes (take (j - i) (drop i rs))) (Z.of_nat i)]
      else []
    else []).
  assert (Hf : forall i c, c ∈ f i ->
            f i = [c] /\ Index c = Z.of_nat i /\
            exists j : nat, (i + 2 <= j <= length rs)%nat /\
              JSON c = string_of_runes (take (j - i) (drop i rs)) /\
              nth i rs 0 = openChar /\ nth (j - 1) rs 0 = closeChar).
  { intros i c. unfold f.
    destruct (Z.eqb_spec (nth i rs 0) openChar) as [Ho|Ho];
      [|intros Hc; by apply elem_of_nil in Hc].
    destruct (scan_block _ _ _ _ _ _ _ _) as [depth j] eqn:Es.
    destruct (Z.eqb_spec depth 0) as [Hd|Hd]; [|intros Hc; by apply elem_of_nil in Hc].
    intros Hc. apply list_elem_of_singleton in Hc as ->.
    split; [done|]. split; [done|].
    assert (H1 : 0 < 1) by lia.
    assert (Hr1 : GoInt.in_range 1)
      by (unfold GoInt.in_range, GoInt.MinInt64, GoInt.MaxInt64; lia).
    destruct (scan_block_closes _ _ _ _ _ _ _ _ _ _ Hoc H1 Hr1 Es Hd) as [Hj Hclose].
    exists j. split; [lia|]. done. }
  split.
  - intros cand Hin. apply list_elem_of_In, in_flat_map in Hin as (i & _ & Hin).
    apply list_elem_of_In in Hin.
    destruct (Hf _ _ Hin) as (_ & Hidx & j & Hj & Hjson & Ho & Hc).
    by exists i, j.
  - intros k1 k2 c1 c2 Hk H1 H2.
    eapply (blocks_from_seq f 0 (length rs)); [|exact Hk | exact H1 | exact H2].
    intros i c Hc. destruct (Hf _ _ Hc) as (H & Hi & _). done.
Qed.

End ExtractorMore.

Lemma findJSONBlocks_candidates_witness :
  (123 : rune) ≠ 125 /\
  (forall cand, cand ∈ findJSONBlocks "see {a{b}} and {c}" 123 125 ->
     exists i j : nat,
       (i + 2 <= j <= length (runes "see {a{b}} and {c}"))%nat /\
       Index cand = Z.of_nat i /\
       JSON cand = string_of_runes (take (j - i) (drop i (runes "see {a{b}} and {c}"))) /\
       nth i (runes "see {a{b}} and {c}") 0 = 123 /\
       nth (j - 1) (runes "see {a{b}} and {c}") 0 = 125) /\
  (forall k1 k2 c1 c2, (k1 < k2)%nat ->
     findJSONBlocks "see {a{b}} and {c}" 123 125 !! k1 = Some c1 ->
     findJSONBlocks "see {a{b}} and {c}" 123 125 !! k2 = Some c2 ->
     Index c1 < Index c2).
Proof.
  assert (H : (123 : rune) ≠ 125) by discriminate.
  split; [exact H|].
  exact (findJSONBlocks_candidates "see {a{b}} and {c}" 123 125 H).
Defined.

Example findJSONBlocks_nested :
  findJSONBlocks "see {a{b}} and {c}" 123 125
  = [mkCandidate "{a{b}}" 4; mkCandidate "{b}" 6; mkCandidate "{c}" 15].
Proof. vm_compute. reflexivity. Qed.

Section ExtractorEmpty.
Context `{RT : GoRuntime}.

Lemma match_here_no_tick p off : fence.tick ∉ p -> fence.match_here p off = None.
Proof.
  intros Hp. unfold fence.match_here, fence.fence3.
  destruct p as [|c p]; [done|]. cbn [strings.has_prefix].
  destruct (Z.eqb_spec fence.tick c) as [<-|_]; [|done].
  exfalso. apply Hp. by left.
Qed.

Lemma find_all_no_tick fuel p off : fence.tick ∉ p -> fence.find_all fuel p off = [].
Proof.
  revert p off. induction fuel as [|fuel IH]; intros p off Hp; [done|].
  cbn [fence.find_all]. destruct p as [|c p']; [done|].
  rewrite match_here_no_tick by done. apply IH.
  intros Hin. apply Hp. by right.
Qed.

Lemma findJSONBlocks_none input openChar closeChar :
  openChar ∉ runes input -> findJSONBlocks input openChar closeChar = [].
Proof.
  intros Hno. unfold findJSONBlocks.
  assert (H : forall l, Forall (fun i => (i < length (runes input))%nat) l ->
            flat_map (fun i =>
              if nth i (runes input) 0 =? openChar then
                let '(depth, j) :=
                  scan_block (length (runes input)) (runes input) openChar closeChar
                    (S i) 1 false false in
                if depth =? 0 then
                  [mkCandidate (string_of_runes (take (j - i) (drop i (runes input))))
                     (Z.of_nat i)]
                else []
              else []) l = []).
  { induction 1 as [|i l Hi _ IH]; [done|]. cbn [flat_map]. rewrite IH, app_nil_r.
    destruct (Z.eqb_spec (nth i (runes input) 0) openChar) as [Ho|Ho]; [|done].
    exfalso. apply Hno. rewrite <- Ho.
    apply lookup_lt_is_Some_2 in Hi as [x Hx].
    rewrite (nth_lookup_Some _ _ _ _ Hx). by eapply list_elem_of_lookup_2. }
  apply H. apply Forall_forall. intros i Hi.
  apply list_elem_of_In, in_seq in Hi. lia.
Qed.

(** X17. A text with no brace, no bracket and no backtick holds no candidate:
    unless it is valid JSON as it stands (a number, a string, a literal),
    [ExtractJSON] fails with no JSON found in input, and [ParseWithScore]
    with that failure wrapped. *)
Theorem ExtractJSON_plain_text_fails (input : string) :
  isValidJSON (strings.TrimSpace input) = false ->
  fence.tick ∉ bytes input -> 123 ∉ runes input -> 91 ∉ runes input ->
  ExtractJSON input = Err ErrNoJSON /\
  forall strict targetType sd,
    ParseWithScore strict input targetType sd = (Err (ErrExtract ErrNoJSON), sd).
Proof.
  intros Hv Htick Hbrace Hbrack.
  assert (He : ExtractJSON input = Err ErrNoJSON).
  { unfold ExtractJSON. rewrite Hv.
    unfold extractMarkdownJSON, fence.FindAllStringSubmatchIndex, findJSONInText.
    rewrite find_all_no_tick by done.
    by rewrite !findJSONBlocks_none by done. }
  split; [done|]. intros strict targetType sd. unfold ParseWithScore. by rewrite He.
Qed.

End ExtractorEmpty.

Lemma ExtractJSON_plain_text_fails_witness :
  isValidJSON (RT := RefRuntime.runtime) (strings.TrimSpace "no data here") = false /\
  (fence.tick ∉ bytes "no data here") /\
  (123 ∉ runes "no data here") /\ (91 ∉ runes "no data here") /\
  ExtractJSON (RT := RefRuntime.runtime) "no data here" = Err ErrNoJSON /\
  forall strict targetType sd,
    ParseWithScore (RT := RefRuntime.runtime) strict "no data here" targetType sd
    = (Err (ErrExtract ErrNoJSON), sd).
Proof.
  assert (H1 : isValidJSON (RT := RefRuntime.runtime)
                 (strings.TrimSpace "no data here") = false)
    by (vm_compute; reflexivity).
  assert (H2 : fence.tick ∉ bytes "no data here").
  { intros H. apply list_elem_of_In in H. vm_compute in H. intuition discriminate. }
  assert (H3 : 123 ∉ runes "no data here").
  { intros H. apply list_elem_of_In in H. vm_compute in H. intuition discriminate. }
  assert (H4 : 91 ∉ runes "no data here").
  { intros H. apply list_elem_of_In in H. vm_compute in H. intuition discriminate. }
  repeat (split; [assumption|]).
  exact (ExtractJSON_plain_text_fails (RT := RefRuntime.runtime)
           "no data here" H1 H2 H3 H4).
Defined.

(** ** The repairer: strings and open brackets *)

Section FixerProps.
Context `{RT : GoRuntime}.

Lemma string_of_runes_app a b :
  string_of_runes (a ++ b) = string_of_runes a +:+ string_of_runes b.
Proof.
  unfold string_of_runes, utf8.encode. by rewrite flat_map_app, of_bytes_app.
Qed.

Lemma string_app_assoc (a b c : string) : (a +:+ b) +:+ c = a +:+ (b +:+ c).
Proof.
  apply bytes_inj. by rewrite !bytes_app, app_assoc.
Qed.

Lemma string_app_nil_r (a : string) : a +:+ "" = a.
Proof. apply bytes_inj. rewrite bytes_app. apply app_nil_r. Qed.

(** Inside a string, runes that are neither the backslash nor the closing
    quote are copied one by one. *)
Lemma parse_loop_string_body body :
  forall fuel rs pre post res q lnw stack,
    rs = pre ++ body ++ post ->
    (forall c, c ∈ body -> c ≠ 92 /\ c ≠ q) ->
    parse_loop (length body + fuel)
      (mkFixState rs (Z.of_nat (length pre)) res true q false lnw stack)
    = parse_loop fuel
        (mkFixState rs (Z.of_nat (length pre + length body))
           (res +:+ string_of_runes body) true q false lnw stack).
Proof.
  induction body as [|c body IH]; intros fuel rs pre post res q lnw stack Hrs Hbody.
  - cbn [length Nat.add]. rewrite Nat.add_0_r. unfold string_of_runes. cbn.
    by rewrite string_app_nil_r.
  - cbn [length Nat.add parse_loop].
    unfold nrunes, rune_at. cbn [pos fx_runes inString].
    destruct (Z.ltb_spec (Z.of_nat (length pre)) (Z.of_nat (length rs))) as [_|Hge].
    2: { rewrite Hrs, !length_app in Hge. cbn [length] in Hge. lia. }
    rewrite Nat2Z.id.
    assert (Hc : nth (length pre) rs 0 = c) by (rewrite Hrs; apply nth_middle).
    rewrite Hc. destruct (Hbody c ltac:(by left)) as [H92 Hq].
    unfold handleStringChar. cbn [stringEscaped stringQuoteChar].
    unfold r_bslash.
    destruct (Z.eqb_spec c 92); [done|]. destruct (Z.eqb_spec c q); [done|].
    unfold WriteRune, set_result, set_pos. cbn [fx_runes pos result inString
      stringQuoteChar stringEscaped lastNonWhitespace bracketStack].
    replace (Z.of_nat (length pre) + 1) with (Z.of_nat (length (pre ++ [c])))
      by (rewrite length_app; cbn [length]; lia).
    rewrite (IH fuel rs (pre ++ [c]) post).
    + rewrite length_app. cbn [length].
      replace (length pre + 1 + length body)%nat with (length pre + S (length body))%nat
        by lia.
      rewrite string_app_assoc, <- string_of_runes_app. done.
    + rewrite Hrs, <- app_assoc. done.
    + intros c' Hc'. apply Hbody. by right.
Qed.

Lemma parse_loop_step fuel p :
  pos p < nrunes p ->
  parse_loop (S fuel) p =
  parse_loop fuel
    (let p' := if inString p then handleStringChar p (rune_at p (pos p))
               else handleNonStringChar p (rune_at p (pos p)) in
     set_pos p' (pos p' + 1)).
Proof.
  intros H. cbn [parse_loop]. destruct (Z.ltb_spec (pos p) (nrunes p)); [done | lia].
Qed.

(** X18. A text that is one string between double quotes, single quotes or
    backticks, with no backslash and no closing quote of its kind inside,
    comes out of [FixJSON] between double quotes with its runes unchanged: a
    double quote inside a single-quoted string is copied, not escaped. *)
Theorem FixJSON_requotes_string (s : string) (q : rune) (body : list rune) :
  q = 34 \/ q = 39 \/ q = 96 ->
  runes s = q :: body ++ [q] ->
  (forall c, c ∈ body -> c ≠ 92 /\ c ≠ q) ->
  FixJSON s = Ok (string_of_runes (34 :: body ++ [34])).
Proof.
  intros Hq Hs Hbody. unfold FixJSON, parse. rewrite Hs.
  set (rs := q :: body ++ [q]).
  assert (Hlen : length rs = S (length body + 1))
    by (unfold rs; cbn [length]; by rewrite length_app).
  cbn [fx_runes]. rewrite Hlen.
  (* the opening quote *)
  rewrite parse_loop_step by (unfold nrunes; cbn [pos fx_runes]; lia).
  cbv zeta. cbn [inString pos].
  change (rune_at (mkFixState rs 0 "" false 0 false 0 []) 0) with q.
  assert (Hopen : handleNonStringChar (mkFixState rs 0 "" false 0 false 0 []) q
                  = mkFixState rs 0 (string_of_runes [34]) true q false 34 []).
  { unfold handleNonStringChar, r_dquote, r_squote, r_btick.
    destruct Hq as [-> | [-> | ->]]; reflexivity. }
  rewrite Hopen. unfold set_pos. cbn [fx_runes pos result inString stringQuoteChar
    stringEscaped lastNonWhitespace bracketStack Z.add].
  (* the body *)
  change 1 with (Z.of_nat (length [q])) at 1.
  rewrite (parse_loop_string_body body 1 rs [q] [q]); [|done|done].
  (* the closing quote *)
  rewrite parse_loop_step
    by (unfold nrunes; cbn [pos fx_runes length]; rewrite Hlen; lia).
  cbv zeta. cbn [inString pos length Nat.add].
  assert (Hlast : rune_at
                    (mkFixState rs (Z.of_nat (S (length body)))
                       (string_of_runes [34] +:+ string_of_runes body) true q false 34 [])
                    (Z.of_nat (S (length body))) = q).
  { unfold rune_at. cbn [fx_runes]. rewrite Nat2Z.id. unfold rs. cbn [nth].
    replace (length body) with (length body + 0)%nat at 1 by lia.
    by rewrite app_nth2_plus. }
  rewrite Hlast. unfold handleStringChar.
  cbn [stringEscaped stringQuoteChar]. unfold r_bslash.
  assert (Hq92 : (q =? 92) = false) by (destruct Hq as [-> | [-> | ->]]; done).
  rewrite Hq92, Z.eqb_refl.
  cbn [parse_loop].
  unfold closeUnclosedStructures, set_lastNonWhitespace, set_inString, WriteRune,
    set_result, set_pos, r_dquote.
  cbn [closeUnclosedStructures_loop bracketStack result fx_runes pos inString
       stringQuoteChar stringEscaped lastNonWhitespace].
  f_equal. change (34 :: body ++ [34]) with ([34] ++ body ++ [34]).
  by rewrite !string_of_runes_app, string_app_assoc.
Qed.

Lemma bracketStack_quote_after structural keep p :
  bracketStack (quote_after structural keep p) = bracketStack p.
Proof. unfold quote_after. repeat case_match; reflexivity. Qed.

Lemma bracketStack_removeTrailingComma p :
  bracketStack (removeTrailingComma p) = bracketStack p.
Proof. unfold removeTrailingComma. case_match; reflexivity. Qed.

Lemma bracketStack_skip_line_comment fuel p :
  bracketStack (skip_line_comment fuel p) = bracketStack p.
Proof.
  revert p. induction fuel as [|fuel IH]; intros p; [done|]. cbn [skip_line_comment].
  case_match; [by rewrite IH | done].
Qed.

Lemma bracketStack_skip_block_comment fuel p :
  bracketStack (skip_block_comment fuel p) = bracketStack p.
Proof.
  revert p. induction fuel as [|fuel IH]; intros p; [done|]. cbn [skip_block_comment].
  repeat case_match; [done | by rewrite IH | done].
Qed.

Lemma bracketStack_handleStringChar p ch :
  bracketStack (handleStringChar p ch) = bracketStack p.
Proof. unfold handleStringChar. repeat case_match; reflexivity. Qed.

(** A step outside strings leaves the stack as it is, pushes the bracket
    just read, or pops the innermost one. *)
Lemma bracketStack_handleNonStringChar p ch :
  bracketStack (handleNonStringChar p ch) = bracketStack p \/
  (bracketStack (handleNonStringChar p ch) = ch :: bracketStack p /\
   (ch = 123 \/ ch = 91)) \/
  (exists c, bracketStack p = c :: bracketStack (handleNonStringChar p ch)).
Proof.
  unfold handleNonStringChar, r_dquote, r_squote, r_btick, r_lbrace, r_lbrack,
    r_rbrace, r_rbrack, r_colon, r_comma, r_slash, r_star.
  destruct (ch =? 34); [by left|]. destruct (ch =? 39); [by left|].
  destruct (ch =? 96); [by left|].
  destruct ((ch =? 123) || (ch =? 91)) eqn:Eopen.
  { right. left. split; [done|].
    apply orb_true_iff in Eopen as [E|E]; apply Z.eqb_eq in E; auto. }
  destruct ((ch =? 125) || (ch =? 93)).
  { unfold handleCloseBracket. destruct (bracketStack p) as [|c st] eqn:Est; [by left|].
    case_match; [|by left]. right. right. exists c.
    unfold set_lastNonWhitespace, WriteRune, set_result. cbn [bracketStack].
    rewrite bracketStack_removeTrailingComma. cbn [bracketStack set_bracketStack].
    done. }
  destruct (ch =? 58).
  { left. cbn. apply bracketStack_quote_after. }
  destruct (ch =? 44).
  { left. cbn. case_match; [apply bracketStack_quote_after | done]. }
  destruct ((ch =? 32) || (ch =? 9) || (ch =? 10) || (ch =? 13)).
  { left. repeat case_match; reflexivity. }
  destruct ((ch =? 47) || (ch =? 42)).
  { left. repeat case_match;
      [by rewrite bracketStack_skip_line_comment
      |by rewrite bracketStack_skip_block_comment | done]. }
  left. repeat case_match; reflexivity.
Qed.

Lemma parse_loop_stack_open fuel p :
  Forall (fun c => c = 123 \/ c = 91) (bracketStack p) ->
  Forall (fun c => c = 123 \/ c = 91) (bracketStack (parse_loop fuel p)).
Proof.
  revert p. induction fuel as [|fuel IH]; intros p Hp; [done|]. cbn [parse_loop].
  case_match; [|done]. apply IH. cbn [bracketStack set_pos].
  destruct (inString p); [by rewrite bracketStack_handleStringChar|].
  destruct (bracketStack_handleNonStringChar p (rune_at p (pos p)))
    as [-> | [[-> Hch] | [c Hc]]]; [done | by constructor |].
  rewrite Hc in Hp. by apply Forall_cons in Hp as [_ Hp].
Qed.

Lemma closer_bytes c : c = 125 \/ c = 93 -> bytes (string_of_runes [c]) = [c].
Proof. intros [-> | ->]; reflexivity. Qed.

(** Right after a closing bracket there is no trailing comma to remove. *)
Lemma removeTrailingComma_after_closer p r c :
  c = 125 \/ c = 93 -> result p = r +:+ string_of_runes [c] ->
  removeTrailingComma p = p.
Proof.
  intros Hc Hr. unfold removeTrailingComma, strings.TrimRight, strings.HasSuffix.
  rewrite Hr, bytes_app, (closer_bytes c Hc), rev_app_distr. cbn [rev app].
  assert (Hkeep : strings.drop_while
                    (fun b => existsb (Z.eqb b) (bytes ws_cutset)) (c :: rev (bytes r))
                  = c :: rev (bytes r)).
  { cbn [strings.drop_while]. by destruct Hc as [-> | ->]. }
  rewrite Hkeep. cbn [rev]. rewrite rev_involutive.
  rewrite (bytes_of_bytes (bytes r ++ [c])).
  - rewrite rev_app_distr. cbn [rev app].
    assert (H44 : bytes (of_bytes [r_comma]) = [44]) by reflexivity.
    rewrite H44. cbn [rev app strings.has_prefix].
    by destruct Hc as [-> | ->].
  - apply Forall_app. split; [apply bytes_range|].
    constructor; [destruct Hc as [-> | ->]; lia | constructor].
Qed.

Lemma close_loop_appends stack :
  forall p r c,
    Forall (fun c => c = 123 \/ c = 91) stack ->
    c = 125 \/ c = 93 -> result p = r +:+ string_of_runes [c] ->
    result (closeUnclosedStructures_loop stack p)
    = result p +:+ string_of_runes (map closing_rune stack).
Proof.
  induction stack as [|o stack IH]; intros p r c Hopen Hc Hr.
  - cbn. by rewrite string_app_nil_r.
  - apply Forall_cons in Hopen as [Ho Hopen]. cbn [closeUnclosedStructures_loop map].
    assert (Hrm : removeTrailingComma (set_bracketStack p stack) = set_bracketStack p stack)
      by (by apply (removeTrailingComma_after_closer _ r c)).
    unfold r_rbrace, r_lbrace, r_lbrack, r_rbrack.
    destruct Ho as [-> | ->]; cbn [Z.eqb Pos.eqb]; rewrite Hrm.
    + rewrite (IH _ (result p) 125); [|done | by left | done].
      cbn [WriteRune set_result result set_bracketStack].
      change (closing_rune 123 :: map closing_rune stack)
        with ([125] ++ map closing_rune stack).
      by rewrite string_of_runes_app, string_app_assoc.
    + rewrite (IH _ (result p) 93); [|done | by right | done].
      cbn [WriteRune set_result result set_bracketStack].
      change (closing_rune 91 :: map closing_rune stack)
        with ([93] ++ map closing_rune stack).
      by rewrite string_of_runes_app, string_app_assoc.
Qed.

(** X19. Through a run of the repairer the bracket stack holds nothing but
    open braces and open brackets.  At the end of the input
    [closeUnclosedStructures] therefore does one thing only: after dropping
    a comma that trails the text, it appends the closing rune of every
    bracket still open, the innermost first.  The test [lastOpen == '}']
    under which it would put quotes around a pending value never holds. *)
Theorem FixJSON_closes_open_brackets (input : string) :
  let p := parse_loop (length (runes input))
             (mkFixState (runes input) 0 "" false 0 false 0 []) in
  Forall (fun c => c = 123 \/ c = 91) (bracketStack p) /\
  FixJSON input =
    Ok (match bracketStack p with
        | [] => result p
        | stack =>
            result (removeTrailingComma p) +:+ string_of_runes (map closing_rune stack)
        end).
Proof.
  cbv zeta. set (p := parse_loop _ _).
  assert (Hopen : Forall (fun c => c = 123 \/ c = 91) (bracketStack p)).
  { apply parse_loop_stack_open. constructor. }
  split; [done|]. unfold FixJSON, parse. cbn [fx_runes]. fold p.
  unfold closeUnclosedStructures. f_equal.
  destruct (bracketStack p) as [|o stack] eqn:Est; [done|].
  apply Forall_cons in Hopen as [Ho Hopen]. cbn [closeUnclosedStructures_loop map].
  unfold r_rbrace, r_lbrace, r_lbrack, r_rbrack.
  assert (Hres : forall q, result (removeTrailingComma (set_bracketStack p q))
                           = result (removeTrailingComma p)).
  { intros q. unfold removeTrailingComma. cbn [result set_bracketStack].
    by case_match. }
  destruct Ho as [-> | ->]; cbn [Z.eqb Pos.eqb].
  - rewrite (close_loop_appends stack _ (result (removeTrailingComma p)) 125);
      [|done | by left |].
    + cbn [WriteRune set_result result]. rewrite Hres.
      change (closing_rune 123 :: map closing_rune stack)
        with ([125] ++ map closing_rune stack).
      by rewrite string_of_runes_app, string_app_assoc.
    + cbn [WriteRune set_result result]. by rewrite Hres.
  - rewrite (close_loop_appends stack _ (result (removeTrailingComma p)) 93);
      [|done | by right |].
    + cbn [WriteRune set_result result]. rewrite Hres.
      change (closing_rune 91 :: map closing_rune stack)
        with ([93] ++ map closing_rune stack).
      by rewrite string_of_runes_app, string_app_assoc.
    + cbn [WriteRune set_result result]. by rewrite Hres.
Qed.

End FixerProps.

Lemma FixJSON_requotes_string_witness :
  let body := [115; 97; 121; 32; 34; 104; 105; 34] in
  ((39 : rune) = 34 \/ (39 : rune) = 39 \/ (39 : rune) = 96) /\
  runes quoted_greeting = 39 :: body ++ [39] /\
  (forall c, c ∈ body -> c ≠ 92 /\ c ≠ 39) /\
  FixJSON (RT := RefRuntime.runtime) quoted_greeting
  = Ok (string_of_runes (34 :: body ++ [34])).
Proof.
  cbv zeta.
  assert (H1 : (39 : rune) = 34 \/ (39 : rune) = 39 \/ (39 : rune) = 96)
    by (right; left; reflexivity).
  assert (H2 : runes quoted_greeting
               = 39 :: [115; 97; 121; 32; 34; 104; 105; 34] ++ [39])
    by (vm_compute; reflexivity).
  assert (H3 : forall c, c ∈ [115; 97; 121; 32; 34; 104; 105; 34] -> c ≠ 92 /\ c ≠ 39).
  { intros c Hc. repeat (apply elem_of_cons in Hc as [->|Hc]); [done..|].
    by apply elem_of_nil in Hc. }
  repeat (split; [assumption|]).
  exact (FixJSON_requotes_string (RT := RefRuntime.runtime) quoted_greeting 39
           [115; 97; 121; 32; 34; 104; 105; 34] H1 H2 H3).
Defined.

Example FixJSON_closes_array_and_object :
  FixJSON (RT := RefRuntime.runtime) (requote "{'a':[1,2,")
  = Ok (requote "{'a':[1,2]}").
Proof. vm_compute. reflexivity. Qed.

(** ** coercer.go: what a slice is made of, and the range of a score *)

Section CoercerShape.
Context `{RT : GoRuntime}.

(** After the loop over the items, slot [i + k] holds the coercion of item
    [k], which is not nil. *)
Lemma coerce_items_elementwise f items :
  forall i res st res' st',
    coerce_items f items i res st = (Ok res', st') ->
    (i + length items <= length res)%nat ->
    forall k item, items !! k = Some item ->
      exists r st1 st2,
        res' !! (i + k)%nat = Some r /\ r ≠ GNil /\ f item st1 = (Ok r, st2).
Proof.
  induction items as [|x items IH]; intros i res st res' st' H Hlen k item Hk; [done|].
  cbn [coerce_items] in H.
  apply bind_Ok_inv in H as (a & st1 & Hx & H).
  apply bind_Ok_inv in H as (a' & st2 & Hset & H).
  apply reflect_Set_Ok_inv in Hset as (-> & -> & Hnil).
  cbn [length] in Hlen. destruct k as [|k].
  - injection Hk as <-. exists a, st, st1. split; [|done].
    destruct (coerce_items_frame _ _ _ _ _ _ _ H) as [_ Hframe].
    rewrite Nat.add_0_r, Hframe by lia.
    apply list_lookup_insert_eq. lia.
  - cbn in Hk. replace (i + S k)%nat with (S i + k)%nat by lia.
    eapply (IH (S i)); [exact H | | exact Hk]. rewrite length_insert. lia.
Qed.

(** X20. A coercion to a slice that succeeds returns one element for each
    item of the array, in order, each being the coercion of its item to the
    element type (and never nil); a value that is no array is treated as an
    array of that one value. *)
Theorem coerceToSlice_elementwise
    (value : Value) (elemType : GoType) (st st' : CState) (g : GoValue) :
  elemType ≠ TInterface -> value ≠ VNull ->
  coerceValue value (TSlice elemType) st = (Ok g, st') ->
  exists res,
    g = GSlice elemType (Some res) /\
    length res = length (slice_items value) /\
    forall k item, slice_items value !! k = Some item ->
      exists r st1 st2,
        res !! k = Some r /\ r ≠ GNil /\ coerceValue item elemType st1 = (Ok r, st2).
Proof.
  intros Hne Hnull H. rewrite coerceValue_slice in H.
  assert (Hm : type_matches (typeOf value) (TSlice elemType) = false).
  { destruct value; try done. by apply slice_type_differs. }
  rewrite Hm in H.
  assert (H' : coerceToSlice (fun v => coerceValue v elemType) value elemType st
               = (Ok g, st')) by (by destruct value).
  unfold coerceToSlice in H'. fold (slice_items value) in H'.
  apply bind_Ok_inv in H' as (res & st1 & Hitems & Hret).
  injection Hret as <- <-. exists res. split; [done|].
  destruct (coerce_items_frame _ _ _ _ _ _ _ Hitems) as [Hlen _].
  rewrite repeat_length in Hlen. split; [done|].
  intros k item Hk.
  destruct (coerce_items_elementwise _ _ _ _ _ _ _ Hitems
              ltac:(rewrite repeat_length; lia) k item Hk)
    as (r & s1 & s2 & Hr & Hnil & Hc).
  by exists r, s1, s2.
Qed.

(** X21. The score a whole coercion returns is never negative, and is at
    most twice the number of nodes of the value times the number of nodes
    of the type (as long as that bound fits Go's [int]). *)
Theorem Coerce_score_range (v : Value) (t : GoType) (sd : Seed) :
  2 * size_v v * size_t t <= GoInt.MaxInt64 ->
  0 <= Total (snd (fst (Coerce v t sd))) <= 2 * size_v v * size_t t.
Proof. intros H. unfold Total. by apply Coerce_total_bounds. Qed.

End CoercerShape.

Lemma coerceToSlice_elementwise_witness :
  let st := mkCState (mkScore (Some ∅) 0) 0 in
  let st' := mkCState (mkScore (Some {[ "StringToInt" := 2 ]}) 2) 0 in
  let value := VArray [VNumber 1; VString "2"] in
  let g := GSlice (TInt KInt) (Some [GInt KInt 1; GInt KInt 2]) in
  TInt KInt ≠ TInterface /\ value ≠ VNull /\
  coerceValue (RT := RefRuntime.runtime) value (TSlice (TInt KInt)) st = (Ok g, st') /\
  exists res,
    g = GSlice (TInt KInt) (Some res) /\
    length res = length (slice_items value) /\
    forall k item, slice_items value !! k = Some item ->
      exists r st1 st2,
        res !! k = Some r /\ r ≠ GNil /\
        coerceValue (RT := RefRuntime.runtime) item (TInt KInt) st1 = (Ok r, st2).
Proof.
  cbv zeta.
  assert (H1 : TInt KInt ≠ TInterface) by discriminate.
  assert (H2 : VArray [VNumber 1; VString "2"] ≠ VNull) by discriminate.
  assert (H3 : coerceValue (RT := RefRuntime.runtime)
                 (VArray [VNumber 1; VString "2"]) (TSlice (TInt KInt))
                 (mkCState (mkScore (Some ∅) 0) 0)
               = (Ok (GSlice (TInt KInt) (Some [GInt KInt 1; GInt KInt 2])),
                  mkCState (mkScore (Some {[ "StringToInt" := 2 ]}) 2) 0))
    by (vm_compute; reflexivity).
  repeat (split; [assumption|]).
  exact (coerceToSlice_elementwise (RT := RefRuntime.runtime) _ _ _ _ _ H1 H2 H3).
Defined.

Lemma Coerce_score_range_witness :
  let v := VArray [VString "3"; VBool true; VNumber 2.5] in
  let t := TSlice (TInt KInt) in
  2 * size_v v * size_t t <= GoInt.MaxInt64 /\
  0 <= Total (snd (fst (Coerce (RT := RefRuntime.runtime) v t 0)))
    <= 2 * size_v v * size_t t.
Proof.
  cbv zeta.
  assert (H : 2 * size_v (VArray [VString "3"; VBool true; VNumber 2.5])
              * size_t (TSlice (TInt KInt)) <= GoInt.MaxInt64)
    by (vm_compute; discriminate).
  split; [exact H|].
  exact (Coerce_score_range (RT := RefRuntime.runtime) _ _ 0 H).
Defined.

(** ** sap.go: the best of the candidates *)

Section BestOfAll.
Context `{RT : GoRuntime}.

(** A round of the loop is the attempt on its candidate followed by the
    update of the best result. *)
Lemma try_candidate_attempt strict t c b sd :
  try_candidate strict t c b sd =
  (match fst (attempt_candidate strict t c sd) with
   | Coerced res sc =>
       Some (if match bestScore b with
                | None => true
                | Some bs => Less sc bs
                end
             then mkBest res (Some sc) None else b)
   | Failed e => Some (mkBest (bestResult b) (bestScore b) (Some e))
   | Skipped => Some b
   | Panicked => None
   end, snd (attempt_candidate strict t c sd)).
Proof.
  unfold try_candidate, attempt_candidate.
  assert (Hco : forall raw,
    match Coerce raw t sd with
    | (Ok res, candScore, sd') =>
        if match bestScore b with
           | None => true
           | Some bs => Less candScore bs
           end
        then (Some (mkBest res (Some candScore) None), sd')
        else (Some b, sd')
    | (Err err, _, sd') => (Some (mkBest (bestResult b) (bestScore b) (Some err)), sd')
    | (Panic _, _, sd') => (None, sd')
    end =
    (match fst match Coerce raw t sd with
               | (Ok res, candScore, sd') => (Coerced res candScore, sd')
               | (Err err, _, sd') => (Failed err, sd')
               | (Panic _, _, sd') => (Panicked, sd')
               end with
     | Coerced res sc =>
         Some (if match bestScore b with
                  | None => true
                  | Some bs => Less sc bs
                  end
               then mkBest res (Some sc) None else b)
     | Failed e => Some (mkBest (bestResult b) (bestScore b) (Some e))
     | Skipped => Some b
     | Panicked => None
     end,
     snd match Coerce raw t sd with
         | (Ok res, candScore, sd') => (Coerced res candScore, sd')
         | (Err err, _, sd') => (Failed err, sd')
         | (Panic _, _, sd') => (Panicked, sd')
         end)).
  { intros raw. destruct (Coerce raw t sd) as [[[res|e|msg] sc] sd']; cbn; [|done..].
    by destruct (match bestScore b with None => true | Some bs => Less sc bs end). }
  destruct (json.Unmarshal (JSON c)) as [raw|e|msg]; [apply Hco|..];
    (destruct strict; [done|]);
    (destruct (FixJSON (JSON c)) as [fixed|e1|m1]; [|done..]);
    (destruct (json.Unmarshal fixed) as [raw|e2|m2]; [apply Hco | done..]).
Qed.

Lemma best_of_skipped pre b : best_of pre b -> best_of (pre ++ [Skipped]) b.
Proof.
  intros [He Hb]. split; [done|]. destruct (bestScore b) as [sc|].
  - destruct Hb as (i & Hi & Hmin & Hfirst). exists i.
    assert (Hlt : (i < length pre)%nat) by (by eapply lookup_lt_Some).
    split; [by rewrite lookup_app_l|]. split.
    + intros j res' sc' Hj. apply lookup_app_Some in Hj as [Hj | [_ Hj]];
        [by eapply Hmin|]. by destruct (j - length pre)%nat.
    + intros j res' sc' Hji Hj. rewrite lookup_app_l in Hj by lia. by eapply Hfirst.
  - intros j res sc Hj. apply lookup_app_Some in Hj as [Hj | [_ Hj]];
      [by eapply Hb|]. by destruct (j - length pre)%nat.
Qed.

Lemma best_of_coerced pre b res sc :
  best_of pre b ->
  best_of (pre ++ [Coerced res sc])
    (if match bestScore b with
        | None => true
        | Some bs => Less sc bs
        end
     then mkBest res (Some sc) None else b).
Proof.
  intros [He Hb].
  assert (Hnew : forall j res' sc',
            (pre ++ [Coerced res sc]) !! j = Some (Coerced res' sc') ->
            pre !! j = Some (Coerced res' sc') \/
            (j = length pre /\ res' = res /\ sc' = sc)).
  { intros j res' sc' Hj. apply lookup_app_Some in Hj as [Hj | [Hge Hj]]; [by left|].
    right. destruct (j - length pre)%nat eqn:E; [|done].
    injection Hj as <- <-. split; [lia | done]. }
  destruct (bestScore b) as [bs|] eqn:Ebs.
  - destruct Hb as (i & Hi & Hmin & Hfirst).
    assert (Hlt : (i < length pre)%nat) by (by eapply lookup_lt_Some).
    unfold Less, Total in *. destruct (Z.ltb_spec (total sc) (total bs)) as [Hless|Hge].
    + split; [done|]. cbn [bestScore bestResult]. exists (length pre).
      split; [by rewrite lookup_app_r, Nat.sub_diag by lia|]. split.
      * intros j res' sc' Hj. apply Hnew in Hj as [Hj | (_ & _ & ->)]; [|unfold Total; lia].
        specialize (Hmin _ _ _ Hj). unfold Total in *. lia.
      * intros j res' sc' Hjl Hj. rewrite lookup_app_l in Hj by lia.
        specialize (Hmin _ _ _ Hj). unfold Total in *. lia.
    + split; [done|]. rewrite Ebs. exists i.
      split; [by rewrite lookup_app_l|]. split.
      * intros j res' sc' Hj. apply Hnew in Hj as [Hj | (_ & _ & ->)]; [|unfold Total; lia].
        by eapply Hmin.
      * intros j res' sc' Hji Hj. rewrite lookup_app_l in Hj by lia. by eapply Hfirst.
  - split; [done|]. cbn [bestScore bestResult]. exists (length pre).
    split; [by rewrite lookup_app_r, Nat.sub_diag by lia|]. split.
    + intros j res' sc' Hj. apply Hnew in Hj as [Hj | (_ & _ & ->)]; [|unfold Total; lia].
      by destruct (Hb _ _ _ Hj).
    + intros j res' sc' Hjl Hj. rewrite lookup_app_l in Hj by lia.
      by destruct (Hb _ _ _ Hj).
Qed.

Lemma candidates_loop_best_of strict t cs :
  forall b sd rs sd' pre,
    attempts strict t cs sd = (rs, sd') ->
    Forall (fun r => (exists res sc, r = Coerced res sc) \/ r = Skipped) rs ->
    best_of pre b ->
    exists b', candidates_loop strict t cs b sd = (Some b', sd') /\
               best_of (pre ++ rs) b'.
Proof.
  induction cs as [|c cs IH]; intros b sd rs sd' pre Ha Hok Hb.
  - cbn in Ha. injection Ha as <- <-. exists b. by rewrite app_nil_r.
  - cbn [attempts] in Ha. cbn [candidates_loop]. rewrite try_candidate_attempt.
    destruct (attempt_candidate strict t c sd) as [r sd1].
    destruct (attempts strict t cs sd1) as [rs' sd2] eqn:Ha'.
    injection Ha as <- <-. apply Forall_cons in Hok as [Hr Hok]. cbn [fst snd].
    replace (pre ++ r :: rs') with ((pre ++ [r]) ++ rs') by (by rewrite <- app_assoc).
    destruct Hr as [(res & sc & ->) | ->].
    + eapply IH; [exact Ha' | exact Hok | by apply best_of_coerced].
    + eapply IH; [exact Ha' | exact Hok | by apply best_of_skipped].
Qed.

(** X22. When no candidate fails (each one is coerced, or is passed over by
    strict mode) and one at least is coerced, [ParseWithScore] returns the
    coerced result with the least score total, the earliest one among
    equals, together with its score. *)
Theorem ParseWithScore_no_failure_returns_best
    (strict : bool) (input : string) (targetType : GoType) (sd sd' : Seed)
    (cs : list JSONCandidate) (rs : list attempt_result) :
  ExtractJSON input = Ok cs ->
  attempts strict targetType cs sd = (rs, sd') ->
  Forall (fun r => (exists res sc, r = Coerced res sc) \/ r = Skipped) rs ->
  (exists k res sc, rs !! k = Some (Coerced res sc)) ->
  exists i res sc,
    rs !! i = Some (Coerced res sc) /\
    (forall j res' sc', rs !! j = Some (Coerced res' sc') -> Total sc <= Total sc') /\
    (forall j res' sc', (j < i)%nat -> rs !! j = Some (Coerced res' sc') ->
       Total sc < Total sc') /\
    ParseWithScore strict input targetType sd = (Ok (res, sc), sd').
Proof.
  intros He Ha Hok (k & res0 & sc0 & Hk).
  assert (H0 : best_of [] (mkBest GNil None None)).
  { split; [done|]. cbn. intros j res sc Hj. done. }
  destruct (candidates_loop_best_of strict targetType cs _ _ _ _ [] Ha Hok H0)
    as (b & Hloop & Herr & Hb).
  cbn [app] in Hb. unfold ParseWithScore. rewrite He.
  pose proof (ExtractJSON_Ok_nonempty _ _ He) as Hne.
  destruct cs as [|c cs']; [done|]. cbn [length Nat.eqb]. rewrite Hloop, Herr.
  destruct (bestScore b) as [sc|]; [|by destruct (Hb _ _ _ Hk)].
  destruct Hb as (i & Hi & Hmin & Hfirst). by exists i, (bestResult b), sc.
Qed.

End BestOfAll.

Lemma ParseWithScore_no_failure_returns_best_witness :
  let cs := [mkCandidate (requote "{'On':'yes'}") 0; mkCandidate (requote "{'On':true}") 15] in
  let rs := [Coerced (GStruct Flagged [GBool true])
               (mkScore (Some {[ "StringToBool" := 1 ]}) 1);
             Coerced (GStruct Flagged [GBool true]) (mkScore (Some ∅) 0)] in
  ExtractJSON (RT := RefRuntime.runtime) two_objects = Ok cs /\
  attempts (RT := RefRuntime.runtime) false Flagged cs 0 = (rs, 0) /\
  Forall (fun r => (exists res sc, r = Coerced res sc) \/ r = Skipped) rs /\
  (exists k res sc, rs !! k = Some (Coerced res sc)) /\
  exists i res sc,
    rs !! i = Some (Coerced res sc) /\
    (forall j res' sc', rs !! j = Some (Coerced res' sc') -> Total sc <= Total sc') /\
    (forall j res' sc', (j < i)%nat -> rs !! j = Some (Coerced res' sc') ->
       Total sc < Total sc') /\
    ParseWithScore (RT := RefRuntime.runtime) false two_objects Flagged 0
    = (Ok (res, sc), 0).
Proof.
  cbv zeta.
  set (cs := [mkCandidate (requote "{'On':'yes'}") 0;
              mkCandidate (requote "{'On':true}") 15]).
  set (rs := [Coerced (GStruct Flagged [GBool true])
                (mkScore (Some {[ "StringToBool" := 1 ]}) 1);
              Coerced (GStruct Flagged [GBool true]) (mkScore (Some ∅) 0)]).
  assert (H1 : ExtractJSON (RT := RefRuntime.runtime) two_objects = Ok cs)
    by (vm_compute; reflexivity).
  assert (H2 : attempts (RT := RefRuntime.runtime) false Flagged cs 0 = (rs, 0))
    by (vm_compute; reflexivity).
  assert (H3 : Forall (fun r => (exists res sc, r = Coerced res sc) \/ r = Skipped) rs).
  { constructor; [left; eauto|]. constructor; [left; eauto|]. constructor. }
  assert (H4 : exists k res sc, rs !! k = Some (Coerced res sc)).
  { exists 0%nat. eexists _, _. reflexivity. }
  repeat (split; [assumption|]).
  exact (ParseWithScore_no_failure_returns_best (RT := RefRuntime.runtime)
           false two_objects Flagged 0 0 cs rs H1 H2 H3 H4).
Defined.

Example ParseWithScore_two_objects :
  ParseWithScore (RT := RefRuntime.runtime) false two_objects Flagged 0
  = (Ok (GStruct Flagged [GBool true], mkScore (Some ∅) 0), 0).
Proof. vm_compute. reflexivity. Qed.

(** ** coercer.go: maps are strict *)

Section MapProps.
Context `{RT : GoRuntime}.

Lemma coerce_entries_all_coerced fk fe entries :
  forall res st res' st',
    coerce_entries fk fe entries res st = (Ok res', st') ->
    forall k v, (k, v) ∈ entries ->
      exists st1 st2 st3 key elem,
        fk (VString k) st1 = (Ok key, st2) /\ fe v st2 = (Ok elem, st3).
Proof.
  induction entries as [|[k0 v0] entries IH]; intros res st res' st' H k v Hin.
  - by apply elem_of_nil in Hin.
  - cbn [coerce_entries] in H.
    apply bind_Ok_inv in H as (key & st1 & Hk & H).
    apply bind_Ok_inv in H as (elem & st2 & He & H).
    apply elem_of_cons in Hin as [[= -> ->] | Hin].
    + by exists st, st1, st2, key, elem.
    + by eapply IH.
Qed.

Lemma map_type_differs keyType elemType :
  keyType ≠ TString \/ elemType ≠ TInterface ->
  GoType_eqb (TMap TString TInterface) (TMap keyType elemType) = false.
Proof.
  intros Hne. destruct keyType; try reflexivity.
  destruct elemType; try reflexivity.
  destruct Hne as [H|H]; by destruct H.
Qed.

(** X23. The coercion of an object to a map type is all or nothing: when it
    succeeds, every key of the object has been coerced to the key type and
    every value to the element type, in whatever order the runtime walked
    the object.  One key or value that fails to coerce makes the whole map
    fail.  (The map type [map[string]interface{}] aside, for which the
    object is returned as it is.) *)
Theorem coerceToMap_all_or_nothing
    (mapVal : list (string * Value)) (keyType elemType : GoType)
    (st st' : CState) (g : GoValue) :
  keyType ≠ TString \/ elemType ≠ TInterface ->
  coerceValue (VObject mapVal) (TMap keyType elemType) st = (Ok g, st') ->
  forall k v, (k, v) ∈ mapVal ->
    exists st1 st2 st3 key elem,
      coerceValue (VString k) keyType st1 = (Ok key, st2) /\
      coerceValue v elemType st2 = (Ok elem, st3).
Proof.
  intros Hne H k v Hin.
  cbn [coerceValue typeOf type_matches] in H.
  rewrite (map_type_differs _ _ Hne) in H. unfold coerceToMap in H.
  apply bind_Ok_inv in H as (entries & st1 & Hrange & H).
  apply bind_Ok_inv in H as (res & st2 & Hentries & _).
  assert (Hperm : Permutation entries mapVal).
  { unfold range in Hrange. pose proof (mapiter_perm (seed st) mapVal) as Hp.
    destruct (mapiter (seed st) mapVal) as [es sd]. by injection Hrange as <- _. }
  eapply (coerce_entries_all_coerced _ _ _ _ _ _ _ Hentries).
  by rewrite Hperm.
Qed.

End MapProps.

Lemma coerceToMap_all_or_nothing_witness :
  let st := mkCState (mkScore (Some ∅) 0) 0 in
  let st' := mkCState (mkScore (Some {[ "StringToInt" := 2 ]}) 2) 1 in
  let mapVal := [("a", VNumber 1); ("b", VString "2")] in
  let g := GMap TString (TInt KInt)
             (Some [(GString "a", GInt KInt 1); (GString "b", GInt KInt 2)]) in
  (TString ≠ TString \/ TInt KInt ≠ TInterface) /\
  coerceValue (RT := RefRuntime.runtime) (VObject mapVal) (TMap TString (TInt KInt)) st
  = (Ok g, st') /\
  forall k v, (k, v) ∈ mapVal ->
    exists st1 st2 st3 key elem,
      coerceValue (RT := RefRuntime.runtime) (VString k) TString st1 = (Ok key, st2) /\
      coerceValue (RT := RefRuntime.runtime) v (TInt KInt) st2 = (Ok elem, st3).
Proof.
  cbv zeta.
  assert (H1 : TString ≠ TString \/ TInt KInt ≠ TInterface) by (right; discriminate).
  assert (H2 : coerceValue (RT := RefRuntime.runtime)
                 (VObject [("a", VNumber 1); ("b", VString "2")])
                 (TMap TString (TInt KInt)) (mkCState (mkScore (Some ∅) 0) 0)
               = (Ok (GMap TString (TInt KInt)
                        (Some [(GString "a", GInt KInt 1); (GString "b", GInt KInt 2)])),
                  mkCState (mkScore (Some {[ "StringToInt" := 2 ]}) 2) 1))
    by (vm_compute; reflexivity).
  repeat (split; [assumption|]).
  exact (coerceToMap_all_or_nothing (RT := RefRuntime.runtime) _ _ _ _ _ _ H1 H2).
Defined.

(** ** coercer.go: which key a field reads *)

Section FieldProps.
Context `{RT : GoRuntime}.

(** X24. A record field reads the key its [json] tag names when the object
    has it; failing that, the key that is the field's name; both at no
    cost.  Only when neither is there does the coercer look for a key equal
    to the name without regard to case: a key so found costs one
    FuzzyFieldMatch; when there is none, nothing is read and nothing is
    charged. *)
Theorem resolve_field_order
    (mapVal : list (string * Value)) (field : StructField GoType) (st : CState) :
  (forall v, tag_value mapVal field = Some v ->
     resolve_field mapVal field st = (Ok (tag_name field, v), st)) /\
  (forall v, tag_value mapVal field = None ->
     lookup_key mapVal (Name field) = Some v -> Name field ≠ "" ->
     resolve_field mapVal field st = (Ok (Name field, v), st)) /\
  (tag_value mapVal field = None -> lookup_key mapVal (Name field) = None ->
   exists found st',
     resolve_field mapVal field st = (Ok found, st') /\
     ((exists k v, found = (k, v) /\ (k, v) ∈ mapVal /\
         strings_EqualFold k (Name field) = true /\
         score st' = AddFlag (score st) "FuzzyFieldMatch" 1) \/
      (found = ("", VNull) /\ score st' = score st /\
       forall k v, (k, v) ∈ mapVal -> strings_EqualFold k (Name field) = false))).
Proof.
  assert (Hshape : resolve_field mapVal field st =
    (let found := match tag_value mapVal field with
                  | Some v => (tag_name field, v)
                  | None => ("", VNull)
                  end in
     let found :=
       if String.eqb (fst found) "" then
         match lookup_key mapVal (Name field) with
         | Some v => (Name field, v)
         | None => found
         end
       else found in
     if String.eqb (fst found) "" then
       (let* entries := range mapVal in
        match find (fun kv => strings_EqualFold (fst kv) (Name field)) entries with
        | Some (k, v) => addFlag "FuzzyFieldMatch" 1 ;; ret (k, v)
        | None => ret found
        end) st
     else ret found st)).
  { unfold resolve_field, tag_value, tag_name.
    destruct (JsonTag field) as [tag|]; cbn [nonempty].
    - destruct (nonempty (hd "" (strings.SplitByte tag 44))
                && negb (String.eqb (hd "" (strings.SplitByte tag 44)) "-"));
        [|by destruct (String.eqb (fst _) "")].
      destruct (lookup_key mapVal (hd "" (strings.SplitByte tag 44)));
        cbv zeta; by destruct (String.eqb (fst _) "").
    - cbn. by destruct (String.eqb _ ""). }
  split; [|split].
  - intros v Hv. rewrite Hshape, Hv. cbv zeta. cbn [fst].
    unfold tag_value in Hv.
    destruct (nonempty (tag_name field)) eqn:En; [|done].
    unfold nonempty in En. apply negb_true_iff in En.
    rewrite En. cbn [fst]. by rewrite En.
  - intros v Ht Hn Hne. rewrite Hshape, Ht, Hn. cbv zeta. cbn [fst].
    rewrite String.eqb_refl. cbn [fst].
    by destruct (String.eqb_spec (Name field) "").
  - intros Ht Hn. rewrite Hshape, Ht, Hn. cbv zeta. cbn [fst].
    rewrite String.eqb_refl. unfold bind, range.
    pose proof (mapiter_perm (seed st) mapVal) as Hp.
    destruct (mapiter (seed st) mapVal) as [es sd]. cbn [fst] in Hp.
    destruct (find _ es) as [[k v]|] eqn:Ef.
    + apply find_some in Ef as [Hin Hfold]. cbn [fst] in Hfold.
      eexists _, _. split; [reflexivity|]. left. exists k, v.
      split; [done|]. split; [|done].
      rewrite <- Hp. by apply list_elem_of_In.
    + eexists _, _. split; [reflexivity|]. right.
      split; [done|]. split; [done|]. intros k v Hin.
      rewrite <- Hp in Hin. apply list_elem_of_In in Hin.
      apply (find_none _ _ Ef) in Hin. done.
Qed.

End FieldProps.

Example resolve_field_tag_beats_name :
  let person := mkField "Name" "" (Some "name,omitempty") TString in
  let st := mkCState (mkScore (Some ∅) 0) 0 in
  resolve_field (RT := RefRuntime.runtime)
    [("Name", VString "exact"); ("name", VString "tagged")] person st
  = (Ok ("name", VString "tagged"), st) /\
  resolve_field (RT := RefRuntime.runtime)
    [("NAME", VString "folded"); ("Name", VString "exact")] person st
  = (Ok ("Name", VString "exact"), st) /\
  resolve_field (RT := RefRuntime.runtime) [("NAME", VString "folded")] person st
  = (Ok ("NAME", VString "folded"),
     mkCState (mkScore (Some {[ "FuzzyFieldMatch" := 1 ]}) 1) 1) /\
  resolve_field (RT := RefRuntime.runtime) [("age", VNumber 3)] person st
  = (Ok ("", VNull), mkCState (mkScore (Some ∅) 0) 1).
Proof. cbv zeta. repeat split; vm_compute; reflexivity. Qed.

(** ** coercer.go: the type of what comes back *)

Lemma IntKind_eqb_eq a b : IntKind_eqb a b = true -> a = b.
Proof. by destruct a, b. Qed.
Lemma UintKind_eqb_eq a b : UintKind_eqb a b = true -> a = b.
Proof. by destruct a, b. Qed.
Lemma FloatKind_eqb_eq a b : FloatKind_eqb a b = true -> a = b.
Proof. by destruct a, b. Qed.
Lemma option_string_eqb_eq a b : option_string_eqb a b = true -> a = b.
Proof.
  destruct a as [x|], b as [y|]; cbn; try done.
  intros H. apply String.eqb_eq in H. by subst.
Qed.

Lemma GoType_eqb_eq a : forall b, GoType_eqb a b = true -> a = b.
Proof.
  induction a as [ | | |k|k|k|e IH|e IH|n e IH|k e IHk IHe|fs IH|k]
    using GoType_nested_ind; intros b; destruct b; cbn [GoType_eqb]; try done.
  - intros H. by rewrite (IntKind_eqb_eq _ _ H).
  - intros H. by rewrite (UintKind_eqb_eq _ _ H).
  - intros H. by rewrite (FloatKind_eqb_eq _ _ H).
  - intros H. by rewrite (IH _ H).
  - intros H. by rewrite (IH _ H).
  - intros H. apply andb_true_iff in H as [Hn He].
    apply Nat.eqb_eq in Hn. by rewrite Hn, (IH _ He).
  - intros H. apply andb_true_iff in H as [Hk He].
    by rewrite (IHk _ Hk), (IHe _ He).
  - intros H. f_equal. revert fields H.
    induction IH as [|f fs Hf _ IHfs]; intros [|f' fs']; try done.
    intros H. repeat (apply andb_true_iff in H as [H ?]).
    destruct f as [n p tg ty], f' as [n' p' tg' ty']. cbn in *.
    apply String.eqb_eq in H.
    match goal with Hp : String.eqb p p' = true |- _ => apply String.eqb_eq in Hp end.
    match goal with Ht : option_string_eqb tg tg' = true |- _ =>
      apply option_string_eqb_eq in Ht end.
    match goal with Hy : GoType_eqb ty ty' = true |- _ => apply Hf in Hy end.
    subst. f_equal. by apply IHfs.
  - intros H. apply String.eqb_eq in H. by subst.
Qed.

Section TypeProps.
Context `{RT : GoRuntime}.

Lemma dynamic_type_toGo v : dynamic_type (toGo v) = typeOf v.
Proof. by destruct v. Qed.

(** X25. What [coerceValue] returns without error is nil when the value is
    null, and otherwise a value whose type is the target type (any target
    but [interface{}], for which the value comes back as decoded). *)
Theorem coerceValue_result_type
    (value : Value) (targetType : GoType) (st st' : CState) (g : GoValue) :
  targetType ≠ TInterface ->
  coerceValue value targetType st = (Ok g, st') ->
  (value = VNull /\ g = GNil) \/
  (value ≠ VNull /\ dynamic_type g = Some targetType).
Proof.
  intros Hne H.
  assert (Hcase : value = VNull \/ value ≠ VNull)
    by (destruct value; [by left | by right..]).
  destruct Hcase as [->|Hv].
  { left. rewrite coerceValue_null in H. by injection H as <- _. }
  right. split; [done|].
  assert (Hbody :
    (if type_matches (typeOf value) targetType then ret (toGo value)
     else
       match targetType with
       | TPtr elemType =>
           let* elem := coerceValue value elemType in
           match elem with
           | GNil => ret (GPtr elemType None)
           | _ => ret (GPtr elemType (Some elem))
           end
       | TString => coerceToString value
       | TInt k => coerceToInt value k
       | TUint k => coerceToUint value k
       | TFloat k => coerceToFloat value k
       | TBool => coerceToBool value
       | TSlice elemType =>
           coerceToSlice (fun v => coerceValue v elemType) value elemType
       | TArray n elemType =>
           coerceToArray (fun v => coerceValue v elemType) value n elemType
       | TMap keyType elemType =>
           coerceToMap (fun v => coerceValue v keyType)
                       (fun v => coerceValue v elemType) value keyType elemType
       | TStruct fields => coerceToStruct coerceValue value targetType fields
       | TInterface | TOther _ => fail (ErrUnsupportedType targetType)
       end) st = (Ok g, st')).
  { rewrite <- H. destruct value; [done|..]; by destruct targetType. }
  clear H. destruct (type_matches (typeOf value) targetType) eqn:Em.
  { injection Hbody as <- _. rewrite dynamic_type_toGo.
    unfold type_matches in Em. destruct (typeOf value) as [t|]; [|done].
    by rewrite (GoType_eqb_eq _ _ Em). }
  destruct targetType as [ | | |k|k|k|e|e|n e|kt e|fs|k]; try done.
  - (* string *)
    unfold coerceToString in Hbody.
    destruct value; try (by injection Hbody as <- _).
    by destruct (PrimFloat.eqb _ _); injection Hbody as <- _.
  - (* bool *)
    unfold coerceToBool in Hbody.
    destruct value; try done; try (by injection Hbody as <- _).
    repeat case_match; try done; by injection Hbody as <- _.
  - (* int *)
    unfold coerceToInt in Hbody.
    apply bind_Ok_inv in Hbody as (n & st1 & _ & Hret). by injection Hret as <- _.
  - (* uint *)
    unfold coerceToUint in Hbody.
    apply bind_Ok_inv in Hbody as (x & st1 & _ & Hret).
    destruct x; try done. by injection Hret as <- _.
  - (* float *)
    unfold coerceToFloat in Hbody.
    apply bind_Ok_inv in Hbody as (x & st1 & _ & Hret). by injection Hret as <- _.
  - (* pointer *)
    apply bind_Ok_inv in Hbody as (elem & st1 & _ & Hret).
    destruct elem; by injection Hret as <- _.
  - (* slice *)
    unfold coerceToSlice in Hbody.
    apply bind_Ok_inv in Hbody as (res & st1 & _ & Hret). by injection Hret as <- _.
  - (* array *)
    unfold coerceToArray in Hbody.
    apply bind_Ok_inv in Hbody as (res & st1 & Hitems & Hret). injection Hret as <- _.
    apply coerce_items_frame in Hitems as [Hlen _].
    cbn [dynamic_type]. by rewrite Hlen, repeat_length.
  - (* map *)
    unfold coerceToMap in Hbody. destruct value; try done.
    apply bind_Ok_inv in Hbody as (es & st1 & _ & Hbody).
    apply bind_Ok_inv in Hbody as (res & st2 & _ & Hret). by injection Hret as <- _.
  - (* struct *)
    unfold coerceToStruct in Hbody. destruct value; try done.
    apply bind_Ok_inv in Hbody as (res & st1 & _ & Hret). by injection Hret as <- _.
Qed.

End TypeProps.

Lemma coerceValue_result_type_witness :
  let st := mkCState (mkScore (Some ∅) 0) 0 in
  let st' := mkCState (mkScore (Some {[ "StringToInt" := 2 ]}) 2) 0 in
  TInt KInt8 ≠ TInterface /\
  coerceValue (RT := RefRuntime.runtime) (VString "42") (TInt KInt8) st
  = (Ok (GInt KInt8 42), st') /\
  ((VString "42" = VNull /\ GInt KInt8 42 = GNil) \/
   (VString "42" ≠ VNull /\ dynamic_type (GInt KInt8 42) = Some (TInt KInt8))).
Proof.
  cbv zeta.
  assert (H1 : TInt KInt8 ≠ TInterface) by discriminate.
  assert (H2 : coerceValue (RT := RefRuntime.runtime) (VString "42") (TInt KInt8)
                 (mkCState (mkScore (Some ∅) 0) 0)
               = (Ok (GInt KInt8 42),
                  mkCState (mkScore (Some {[ "StringToInt" := 2 ]}) 2) 0))
    by (vm_compute; reflexivity).
  repeat (split; [assumption|]).
  exact (coerceValue_result_type (RT := RefRuntime.runtime) _ _ _ _ _ H1 H2).
Defined.

(** ** coercer.go: when the order of the keys does not matter *)

Section FieldChoice.
Context `{RT : GoRuntime}.

Lemma find_unique {A} (f : A -> bool) (l1 l2 : list A) :
  Permutation l1 l2 ->
  (forall x y, x ∈ l1 -> y ∈ l1 -> f x = true -> f y = true -> x = y) ->
  find f l1 = find f l2.
Proof.
  intros Hp Huniq.
  destruct (find f l1) as [x|] eqn:E1, (find f l2) as [y|] eqn:E2; [| | |done].
  - apply find_some in E1 as [Hx Hfx]. apply find_some in E2 as [Hy Hfy].
    f_equal. apply Huniq; try done; [by apply list_elem_of_In|].
    rewrite Hp. by apply list_elem_of_In.
  - apply find_some in E1 as [Hx Hfx].
    apply list_elem_of_In in Hx. rewrite Hp in Hx. apply list_elem_of_In in Hx.
    apply (find_none _ _ E2) in Hx. congruence.
  - apply find_some in E2 as [Hy Hfy].
    apply list_elem_of_In in Hy. rewrite <- Hp in Hy. apply list_elem_of_In in Hy.
    apply (find_none _ _ E1) in Hy. congruence.
Qed.

(** X26. The key a field reads, and what reading it costs, do not depend on
    the order in which the runtime walks the object, unless two entries of
    the object both equal the field's name without regard to case: from two
    states with the same score (the seeds may differ) [resolve_field] finds
    the same key and value and leaves the same score. *)
Theorem resolve_field_order_independent
    (mapVal : list (string * Value)) (field : StructField GoType) (st1 st2 : CState) :
  (forall kv1 kv2, kv1 ∈ mapVal -> kv2 ∈ mapVal ->
     strings_EqualFold (fst kv1) (Name field) = true ->
     strings_EqualFold (fst kv2) (Name field) = true -> kv1 = kv2) ->
  score st1 = score st2 ->
  fst (resolve_field mapVal field st1) = fst (resolve_field mapVal field st2) /\
  score (snd (resolve_field mapVal field st1))
  = score (snd (resolve_field mapVal field st2)).
Proof.
  intros Huniq Hscore. unfold resolve_field.
  match goal with
  | |- context [if String.eqb (fst ?found) "" then _ else ret ?found] =>
      destruct (String.eqb (fst found) ""); [|done]
  end.
  unfold bind, range.
  pose proof (mapiter_perm (seed st1) mapVal) as Hp1.
  pose proof (mapiter_perm (seed st2) mapVal) as Hp2.
  destruct (mapiter (seed st1) mapVal) as [es1 sd1].
  destruct (mapiter (seed st2) mapVal) as [es2 sd2]. cbn [fst] in Hp1, Hp2.
  assert (Hfind : find (fun kv => strings_EqualFold (fst kv) (Name field)) es1
                  = find (fun kv => strings_EqualFold (fst kv) (Name field)) es2).
  { apply find_unique; [by rewrite Hp1, Hp2|].
    intros x y Hx Hy. rewrite Hp1 in Hx, Hy. by apply Huniq. }
  rewrite Hfind.
  destruct (find _ es2) as [[k v]|]; cbn; [|done].
  by rewrite Hscore.
Qed.

End FieldChoice.

Lemma resolve_field_order_independent_witness :
  let mapVal := [("age", VNumber 3); ("NAME", VString "Ann")] in
  let field := mkField "Name" "" None TString in
  let st1 := mkCState (mkScore (Some ∅) 0) 0 in
  let st2 := mkCState (mkScore (Some ∅) 0) 1 in
  (forall kv1 kv2, kv1 ∈ mapVal -> kv2 ∈ mapVal ->
     @strings_EqualFold RefRuntime.runtime (fst kv1) (Name field) = true ->
     @strings_EqualFold RefRuntime.runtime (fst kv2) (Name field) = true ->
     kv1 = kv2) /\
  score st1 = score st2 /\
  fst (resolve_field (RT := RefRuntime.runtime) mapVal field st1)
  = fst (resolve_field (RT := RefRuntime.runtime) mapVal field st2) /\
  score (snd (resolve_field (RT := RefRuntime.runtime) mapVal field st1))
  = score (snd (resolve_field (RT := RefRuntime.runtime) mapVal field st2)).
Proof.
  cbv zeta.
  set (mapVal := [("age", VNumber 3); ("NAME", VString "Ann")]).
  set (field := mkField "Name" "" None TString).
  assert (H1 : forall kv1 kv2, kv1 ∈ mapVal -> kv2 ∈ mapVal ->
             @strings_EqualFold RefRuntime.runtime (fst kv1) (Name field) = true ->
             @strings_EqualFold RefRuntime.runtime (fst kv2) (Name field) = true ->
             kv1 = kv2).
  { intros kv1 kv2 Hin1 Hin2.
    repeat (apply elem_of_cons in Hin1 as [->|Hin1]);
      [| |by apply elem_of_nil in Hin1];
      (repeat (apply elem_of_cons in Hin2 as [->|Hin2]);
         [| |by apply elem_of_nil in Hin2]);
      intros E1 E2; try reflexivity;
      vm_compute in E1; vm_compute in E2; discriminate. }
  assert (H2 : score (mkCState (mkScore (Some ∅) 0) 0)
               = score (mkCState (mkScore (Some ∅) 0) 1)) by reflexivity.
  split; [exact H1|]. split; [exact H2|].
  exact (resolve_field_order_independent (RT := RefRuntime.runtime)
           mapVal field _ _ H1 H2).
Defined.
